(** * EventBus: a shallow embedding of the publish/subscribe dispatcher

    The development follows the [EventBus] class of the repository
    (the file that imports [./types] and exports [EventBus]) together with
    the declarations of [src/types.ts].

    Modelling conventions.
    - A JavaScript function value is a reference; two handlers are the same
      exactly when they are the same reference ([===]).  A handler is
      therefore an identifier, and what calling it does is given by an
      environment [call] that the dispatcher is parameterised over.
    - A handler call either returns (possibly a promise) or throws; it may
      change the world outside the bus.  Handlers do not call back into the
      bus they are registered on: re-entrant handlers are outside this model.
      A callback given as [onError] returns or throws, and may change the
      world, like a handler; the bus's own [defaultErrorHandler] writes to
      the console and returns.  A filter predicate gives a truth value or
      throws; what it gives depends on its arguments only, and it leaves the
      world alone.
    - [Map<string, Array<...>>] is a finite map from names to lists; the order
      in which [Map] enumerates its keys is not modelled, so [eventNames] is
      meaningful up to permutation.
    - [Date.now()] is an explicit argument of [emit].
    - A string is held as its UTF-8 encoding, one byte per [ascii]; this
      covers every JavaScript string without unpaired surrogates.
      [String.prototype.trim] removes the code points of WhiteSpace and
      LineTerminator from both ends; every one of them takes one, two or
      three bytes. *)

From stdpp Require Import base list strings gmap fin_maps sorting.
From Stdlib Require Import ZArith Lia.

Local Open Scope Z_scope.

(** ** Priorities ([src/types.ts], [enum EventPriority]) *)

Inductive EventPriority := Low | Normal | High | Critical.

Definition priority_value (p : EventPriority) : Z :=
  match p with
  | Low => 3
  | Normal => 2
  | High => 1
  | Critical => 0
  end.

#[global] Instance EventPriority_eq_dec : EqDecision EventPriority.
Proof. solve_decision. Defined.

(** A handler is a function reference. *)
Definition EventHandler := nat.
Bind Scope nat_scope with EventHandler.

(** ** Array primitives used by the bus *)

(** [Array.prototype.findIndex]: the first index whose element satisfies the
    predicate; [None] stands for the result [-1]. *)
Fixpoint findIndex {A} (P : A → bool) (l : list A) : option nat :=
  match l with
  | [] => None
  | x :: l' => if P x then Some 0%nat else S <$> findIndex P l'
  end.

(** [arr.splice(index, 1)]: removes the element at [index]; an index past the
    end removes nothing. *)
Definition splice1 {A} (index : nat) (l : list A) : list A :=
  take index l ++ drop (S index) l.

(** [for (const index of indices) arr.splice(index, 1)]. *)
Definition splice_all {A} (indices : list nat) (l : list A) : list A :=
  foldl (λ acc index, splice1 index acc) l indices.

(** [Array.prototype.sort] with a comparator [(a, b) => key a - key b] is a
    stable sort.  It is modelled by a stable insertion sort: working from the
    end of the array, each element is placed in front of the already sorted
    rest, moving right only past elements that the comparator puts strictly
    before it. *)
Fixpoint insert_sorted {A} (key : A → Z) (x : A) (l : list A) : list A :=
  match l with
  | [] => [x]
  | y :: l' =>
      if key x - key y >? 0 then y :: insert_sorted key x l' else x :: y :: l'
  end.

Definition stable_sort_by {A} (key : A → Z) (l : list A) : list A :=
  foldr (insert_sorted key) [] l.

(** [indices.sort((a, b) => b - a)]: descending order. *)
Definition sort_descending (indices : list nat) : list nat :=
  stable_sort_by (λ i, - Z.of_nat i) indices.

(** The last [m] elements of a list, in their order. *)
Definition keep_last {A} (m : nat) (l : list A) : list A :=
  drop (length l - m) l.

(** The order that a sort by [key] establishes. *)
Definition key_le {A} (key : A → Z) : relation A := λ a b, key a ≤ key b.

(** ** Event-name validation ([validateEventName]) *)

Definition code (c : Ascii.ascii) : N := Ascii.N_of_ascii c.

(** The white space of one byte is TAB, LF, VT, FF, CR and SPACE
    ([Ascii.is_space]).  The white space of two bytes is U+00A0, encoded as
    C2 A0. *)
Definition space2 (c1 c2 : Ascii.ascii) : bool :=
  (code c1 =? 0xC2)%N && (code c2 =? 0xA0)%N.

(** The white space of three bytes: U+1680 (E1 9A 80); U+2000 to U+200A
    (E2 80 80 to E2 80 8A); U+2028, U+2029 and U+202F (E2 80 A8, E2 80 A9,
    E2 80 AF); U+205F (E2 81 9F); U+3000 (E3 80 80); U+FEFF (EF BB BF). *)
Definition space3 (c1 c2 c3 : Ascii.ascii) : bool :=
  ((code c1 =? 0xE1) && (code c2 =? 0x9A) && (code c3 =? 0x80) ||
   (code c1 =? 0xE2) && (code c2 =? 0x80) &&
     ((0x80 <=? code c3) && (code c3 <=? 0x8A) ||
      (code c3 =? 0xA8) || (code c3 =? 0xA9) || (code c3 =? 0xAF)) ||
   (code c1 =? 0xE2) && (code c2 =? 0x81) && (code c3 =? 0x9F) ||
   (code c1 =? 0xE3) && (code c2 =? 0x80) && (code c3 =? 0x80) ||
   (code c1 =? 0xEF) && (code c2 =? 0xBB) && (code c3 =? 0xBF))%N.

(** What follows the white-space code point that [s] starts with, if it
    starts with one. *)
Definition skipSpace (s : string) : option string :=
  match s with
  | EmptyString => None
  | String c1 s1 =>
      if Ascii.is_space c1 then Some s1
      else
        match s1 with
        | EmptyString => None
        | String c2 s2 =>
            if space2 c1 c2 then Some s2
            else
              match s2 with
              | EmptyString => None
              | String c3 s3 => if space3 c1 c2 c3 then Some s3 else None
              end
        end
  end.

(** [trimStart]: the string without the white space it starts with. *)
Fixpoint trimStart (s : string) : string :=
  match s with
  | EmptyString => EmptyString
  | String c1 s1 =>
      if Ascii.is_space c1 then trimStart s1
      else
        match s1 with
        | EmptyString => s
        | String c2 s2 =>
            if space2 c1 c2 then trimStart s2
            else
              match s2 with
              | EmptyString => s
              | String c3 s3 => if space3 c1 c2 c3 then trimStart s3 else s
              end
        end
  end.

(** A string that consists of white space only (the empty string
    included). *)
Fixpoint blank (s : string) : bool :=
  match s with
  | EmptyString => true
  | String c1 s1 =>
      if Ascii.is_space c1 then blank s1
      else
        match s1 with
        | EmptyString => false
        | String c2 s2 =>
            if space2 c1 c2 then blank s2
            else
              match s2 with
              | EmptyString => false
              | String c3 s3 => if space3 c1 c2 c3 then blank s3 else false
              end
        end
  end.

(** [trimEnd]: the string up to the point from which on it is white space
    only. *)
Fixpoint trimEnd (s : string) : string :=
  match s with
  | EmptyString => EmptyString
  | String c s' => if blank s then EmptyString else String c (trimEnd s')
  end.

Definition trim (s : string) : string := trimEnd (trimStart s).

(** [!eventName || typeof eventName !== 'string' || eventName.trim() === ''] is
    the condition under which the source throws; a value of type [string] is
    valid when it is non-empty and its trimmed form is non-empty. *)
Definition validateEventName (eventName : string) : bool :=
  negb (bool_decide (eventName = EmptyString)) &&
  negb (bool_decide (trim eventName = EmptyString)).

(** The string of the given bytes. *)
Definition utf8 (bytes : list N) : string :=
  foldr (λ b s, String (Ascii.ascii_of_N b) s) EmptyString bytes.

(** The characters that [trim] removes, in UTF-8: the code points of
    WhiteSpace and LineTerminator.  These are U+0009 to U+000D, U+0020,
    U+00A0, U+1680, U+2000 to U+200A, U+2028, U+2029, U+202F, U+205F,
    U+3000 and U+FEFF. *)
Definition whiteSpace : list string :=
  utf8 <$> [[0x09]; [0x0A]; [0x0B]; [0x0C]; [0x0D]; [0x20]; [0xC2; 0xA0];
            [0xE1; 0x9A; 0x80];
            [0xE2; 0x80; 0x80]; [0xE2; 0x80; 0x81]; [0xE2; 0x80; 0x82];
            [0xE2; 0x80; 0x83]; [0xE2; 0x80; 0x84]; [0xE2; 0x80; 0x85];
            [0xE2; 0x80; 0x86]; [0xE2; 0x80; 0x87]; [0xE2; 0x80; 0x88];
            [0xE2; 0x80; 0x89]; [0xE2; 0x80; 0x8A];
            [0xE2; 0x80; 0xA8]; [0xE2; 0x80; 0xA9]; [0xE2; 0x80; 0xAF];
            [0xE2; 0x81; 0x9F]; [0xE3; 0x80; 0x80]; [0xEF; 0xBB; 0xBF]]%N.

(** The strings made of these characters only. *)
Definition whiteSpaceOnly (s : string) : Prop :=
  ∃ cs, Forall (λ c, c ∈ whiteSpace) cs ∧ s = foldr String.app EmptyString cs.

(** ** Data model *)

(** The callback that receives handler errors: the bus's own
    [defaultErrorHandler], or a function supplied as [onError]. *)
Inductive ErrorCallback := DefaultErrorHandler | UserCallback (ref : nat).

(** [EventBusOptions]: every member is optional. *)
Record EventBusOptions := {
  o_asyncEventHandling : option bool;
  o_catchErrors : option bool;
  o_onError : option nat;
  o_allowEmptyEvents : option bool;
  o_maxHistorySize : option Z
}.

(** [Required<EventBusOptions>], as stored in [this.options]. *)
Record ResolvedOptions := {
  asyncEventHandling : bool;
  catchErrors : bool;
  onError : ErrorCallback;
  allowEmptyEvents : bool;
  opt_maxHistorySize : Z
}.

(** What a failing operation throws.  The source throws plain [Error]
    objects of its own in [validateEventName] and in the empty-event check
    of [emit]; [HandlerError] is an error that leaves [emit] as the code it
    called threw it: a handler, or the error callback or a filter predicate
    (which [emit] calls outside its [try] block). *)
Inductive Thrown {Err : Type} :=
  | InvalidArgument
  | NoSubscribers (eventName : string)
  | HandlerError (e : Err).
Arguments Thrown : clear implicits.

Inductive Result {Err A : Type} :=
  | Ok (a : A)
  | Raise (t : Thrown Err).
Arguments Result : clear implicits.

(** The handle returned by a subscription; [unsubscribe] below interprets
    it the way the closure in the source does. *)
Inductive EventSubscription :=
  | NamedSubscription (eventName : string) (h : EventHandler)
  | WildcardSubscription (h : EventHandler).

(** Records of a named bucket. *)
Record SubscriptionRecord := {
  handler : EventHandler;
  priority : EventPriority;
  once : bool
}.

(** The positions of the once records of a bucket, counted from [k]. *)
Fixpoint once_indices (k : nat) (l : list SubscriptionRecord) : list nat :=
  match l with
  | [] => []
  | r :: l' => (if once r then [k] else []) ++ once_indices (S k) l'
  end.

Section Bus.

Context {Data Err Promise World : Type}.

(** What calling a predicate of a filter gives: the truth value of what it
    returned, or the error it threw. *)
Inductive Verdict :=
  | Says (v : bool)
  | PredicateThrew (e : Err).

(** [EventFilter]: only the members [event] and [data] are read by the bus;
    [timestamp] and [filter] are declared in [types.ts] and never consulted. *)
Record EventFilter := {
  f_event : option (string → Verdict);
  f_data : option (string → Data → Verdict)
}.

Record WildcardRecord := {
  w_handler : EventHandler;
  w_priority : EventPriority;
  w_once : bool;
  w_filter : option EventFilter
}.

Record HistoryEntry := {
  event : string;
  data : Data;
  timestamp : Z
}.

Record EventBus := {
  handlers : gmap string (list SubscriptionRecord);
  wildcardHandlers : list WildcardRecord;
  options : ResolvedOptions;
  errorHandler : ErrorCallback;
  eventHistory : list HistoryEntry;
  maxHistorySize : Z
}.

Record EventBusSnapshot := {
  s_eventNames : list string;
  s_listenerCounts : gmap string nat;
  s_wildcardListenerCount : nat;
  s_history : list HistoryEntry;
  s_options : ResolvedOptions
}.

(** The argument a handler is called with: [data] for a named subscriber,
    [{ event, data }] for a wildcard subscriber. *)
Inductive Payload :=
  | Plain (d : Data)
  | Envelope (eventName : string) (d : Data).

(** What a handler call does: it returns, with a promise when the result is
    [instanceof Promise], or it throws. *)
Inductive Outcome :=
  | Returned (p : option Promise)
  | Threw (e : Err).

(** Which record an invocation was made for. *)
Inductive Target :=
  | Named (r : SubscriptionRecord)
  | Wildcard (r : WildcardRecord).

(** The calls the bus makes during one [emit], in order: a handler called
    with an argument, and what it did; the error callback called with an
    error and the event name, and what it threw, if it threw. *)
Inductive TraceEvent :=
  | Invoked (t : Target) (arg : Payload) (res : Outcome)
  | Reported (cb : ErrorCallback) (e : Err) (eventName : string)
      (thrown : option Err).

(** The environment: what calling a handler, and what calling the error
    callback, does.  The callback returns ([None]) or throws. *)
Variable call : EventHandler → Payload → World → Outcome * World.
Variable report : ErrorCallback → Err → string → World → option Err * World.

(** [this.errorHandler(error, eventName)].  A callback given as [onError]
    does what the environment says.  The bus's own [defaultErrorHandler] is
    a call of [console.error]: the environment says what that does to the
    world, and it returns. *)
Definition callErrorHandler (cb : ErrorCallback) (e : Err)
    (eventName : string) (w : World) : option Err * World :=
  match cb with
  | DefaultErrorHandler => (None, (report cb e eventName w).2)
  | UserCallback _ => report cb e eventName w
  end.

(** *** Constructor *)

Definition EventBus_new (o : EventBusOptions) : EventBus :=
  let opts := {|
    asyncEventHandling := negb (bool_decide (o_asyncEventHandling o = Some false));
    catchErrors := negb (bool_decide (o_catchErrors o = Some false));
    onError := from_option UserCallback DefaultErrorHandler (o_onError o);
    allowEmptyEvents := negb (bool_decide (o_allowEmptyEvents o = Some false));
    opt_maxHistorySize :=
      match o_maxHistorySize o with
      | Some n => if bool_decide (n = 0) then 1000 else n
      | None => 1000
      end
  |} in
  {| handlers := ∅;
     wildcardHandlers := [];
     options := opts;
     errorHandler := onError opts;
     eventHistory := [];
     maxHistorySize := opt_maxHistorySize opts |}.

(** *** [sortHandlersByPriority] *)

Definition sortHandlersByPriority (hs : list SubscriptionRecord)
  : list SubscriptionRecord :=
  stable_sort_by (λ r, priority_value (priority r)) hs.

(** [onAny] passes the wildcard list to the same method. *)
Definition sortWildcardsByPriority (hs : list WildcardRecord)
  : list WildcardRecord :=
  stable_sort_by (λ r, priority_value (w_priority r)) hs.

Definition set_handlers (m : gmap string (list SubscriptionRecord))
    (b : EventBus) : EventBus :=
  {| handlers := m;
     wildcardHandlers := wildcardHandlers b;
     options := options b;
     errorHandler := errorHandler b;
     eventHistory := eventHistory b;
     maxHistorySize := maxHistorySize b |}.

Definition set_wildcardHandlers (ws : list WildcardRecord)
    (b : EventBus) : EventBus :=
  {| handlers := handlers b;
     wildcardHandlers := ws;
     options := options b;
     errorHandler := errorHandler b;
     eventHistory := eventHistory b;
     maxHistorySize := maxHistorySize b |}.

Definition set_eventHistory (h : list HistoryEntry)
    (b : EventBus) : EventBus :=
  {| handlers := handlers b;
     wildcardHandlers := wildcardHandlers b;
     options := options b;
     errorHandler := errorHandler b;
     eventHistory := h;
     maxHistorySize := maxHistorySize b |}.

(** The bucket of a name: [this.handlers.get(eventName) || []]. *)
Definition bucket (b : EventBus) (eventName : string)
  : list SubscriptionRecord :=
  default [] (handlers b !! eventName).

(** *** [on], [once]: push a record, then sort the bucket

    The two methods differ in the [once] member of the record only. *)

Definition subscribe (isOnce : bool) (b : EventBus) (eventName : string)
    (h : EventHandler) (p : EventPriority)
  : Result Err EventSubscription * EventBus :=
  if validateEventName eventName then
    let hs := bucket b eventName ++
              [{| handler := h; priority := p; once := isOnce |}] in
    (Ok (NamedSubscription eventName h),
     set_handlers (<[eventName := sortHandlersByPriority hs]> (handlers b)) b)
  else (Raise InvalidArgument, b).

Definition on := subscribe false.

(** The method [once]; the name [once] itself is the member of the records. *)
Definition once_ := subscribe true.

(** *** [onAny]: the second argument is a priority or a filter object *)

Definition onAny (b : EventBus) (h : EventHandler)
    (opts : option (EventPriority + EventFilter))
  : Result Err EventSubscription * EventBus :=
  let p := match opts with Some (inl p) => p | _ => Normal end in
  let f := match opts with Some (inr f) => Some f | _ => None end in
  let ws := wildcardHandlers b ++
            [{| w_handler := h; w_priority := p; w_once := false;
                w_filter := f |}] in
  (Ok (WildcardSubscription h),
   set_wildcardHandlers (sortWildcardsByPriority ws) b).

(** *** [off] *)

Definition off (b : EventBus) (eventName : string)
    (h : option EventHandler) : Result Err () * EventBus :=
  if validateEventName eventName then
    match handlers b !! eventName with
    | None => (Ok (), b)
    | Some hs =>
        match h with
        | None => (Ok (), set_handlers (delete eventName (handlers b)) b)
        | Some h =>
            let hs' :=
              match findIndex (λ r, bool_decide (handler r = h)) hs with
              | Some index => splice1 index hs
              | None => hs
              end in
            (Ok (),
             if bool_decide (length hs' = 0%nat)
             then set_handlers (delete eventName (handlers b)) b
             else set_handlers (<[eventName := hs']> (handlers b)) b)
        end
    end
  else (Raise InvalidArgument, b).

(** The [unsubscribe] closure of a subscription handle. *)
Definition unsubscribe (s : EventSubscription) (b : EventBus)
  : Result Err () * EventBus :=
  match s with
  | NamedSubscription eventName h => off b eventName (Some h)
  | WildcardSubscription h =>
      match findIndex (λ r, bool_decide (w_handler r = h)) (wildcardHandlers b) with
      | Some index =>
          (Ok (), set_wildcardHandlers (splice1 index (wildcardHandlers b)) b)
      | None => (Ok (), b)
      end
  end.

(** *** [recordEvent] *)

Definition recordEvent (b : EventBus) (eventName : string) (d : Data)
    (now : Z) : EventBus :=
  let h := eventHistory b ++
           [{| event := eventName; data := d; timestamp := now |}] in
  set_eventHistory
    (if bool_decide (maxHistorySize b < Z.of_nat (length h)) then tail h else h)
    b.

(** *** [emit] *)

(** The local variables of one [emit] call that change while the handlers
    run. *)
Record Pass := {
  p_world : World;
  p_handlerPromises : list Promise;
  p_onceHandlerIndices : list nat;
  p_onceWildcardIndices : list nat;
  p_trace : list TraceEvent
}.

Definition Pass_init (w : World) : Pass :=
  {| p_world := w; p_handlerPromises := []; p_onceHandlerIndices := [];
     p_onceWildcardIndices := []; p_trace := [] |}.

Definition target_handler (t : Target) : EventHandler :=
  match t with
  | Named r => handler r
  | Wildcard r => w_handler r
  end.

(** The [try { result = handler(arg); ... } catch (error) { ... }] block, which
    both loops of [emit] share.  The first component is the error that leaves
    [emit], if any. *)
Definition invoke (b : EventBus) (eventName : string) (t : Target)
    (arg : Payload) (st : Pass) : option Err * Pass :=
  let '(res, w) := call (target_handler t) arg (p_world st) in
  match res with
  | Returned p =>
      (None,
       {| p_world := w;
          p_handlerPromises :=
            if asyncEventHandling (options b)
            then p_handlerPromises st ++ option_list p
            else p_handlerPromises st;
          p_onceHandlerIndices := p_onceHandlerIndices st;
          p_onceWildcardIndices := p_onceWildcardIndices st;
          p_trace := p_trace st ++ [Invoked t arg res] |})
  | Threw e =>
      if catchErrors (options b) then
        let '(thrown, w) := callErrorHandler (errorHandler b) e eventName w in
        (thrown,
         {| p_world := w;
            p_handlerPromises := p_handlerPromises st;
            p_onceHandlerIndices := p_onceHandlerIndices st;
            p_onceWildcardIndices := p_onceWildcardIndices st;
            p_trace := p_trace st ++
                       [Invoked t arg res;
                        Reported (errorHandler b) e eventName thrown] |})
      else
        (Some e,
         {| p_world := w;
            p_handlerPromises := p_handlerPromises st;
            p_onceHandlerIndices := p_onceHandlerIndices st;
            p_onceWildcardIndices := p_onceWildcardIndices st;
            p_trace := p_trace st ++ [Invoked t arg res] |})
  end.

Definition note_onceHandler (live : list SubscriptionRecord)
    (r : SubscriptionRecord) (st : Pass) : Pass :=
  if once r then
    match findIndex (λ h, bool_decide (handler h = handler r)) live with
    | Some originalIndex =>
        {| p_world := p_world st;
           p_handlerPromises := p_handlerPromises st;
           p_onceHandlerIndices := p_onceHandlerIndices st ++ [originalIndex];
           p_onceWildcardIndices := p_onceWildcardIndices st;
           p_trace := p_trace st |}
    | None => st
    end
  else st.

Definition note_onceWildcard (live : list WildcardRecord)
    (r : WildcardRecord) (st : Pass) : Pass :=
  if w_once r then
    match findIndex (λ h, bool_decide (w_handler h = w_handler r)) live with
    | Some originalIndex =>
        {| p_world := p_world st;
           p_handlerPromises := p_handlerPromises st;
           p_onceHandlerIndices := p_onceHandlerIndices st;
           p_onceWildcardIndices := p_onceWildcardIndices st ++ [originalIndex];
           p_trace := p_trace st |}
    | None => st
    end
  else st.

(** The first loop: the records of the cloned named bucket, in order.  [live]
    is the bucket itself, in which the once records are looked up. *)
Fixpoint runHandlers (b : EventBus) (eventName : string) (d : Data)
    (live clonedHandlers : list SubscriptionRecord) (st : Pass)
  : option Err * Pass :=
  match clonedHandlers with
  | [] => (None, st)
  | r :: rest =>
      match invoke b eventName (Named r) (Plain d) (note_onceHandler live r st) with
      | (Some e, st') => (Some e, st')
      | (None, st') => runHandlers b eventName d live rest st'
      end
  end.

(** The filter block of the second loop: [event] is asked first, and [data]
    only when [event] is absent or gave a true value; [Says false] is the
    [continue].  A record without a filter is not asked anything, and an
    absent member of the filter object does not reject. *)
Definition applyFilter (f : option EventFilter) (eventName : string)
    (d : Data) : Verdict :=
  match f with
  | None => Says true
  | Some f =>
      match (match f_event f with
             | Some p => p eventName
             | None => Says true
             end) with
      | Says true =>
          match f_data f with
          | Some p => p eventName d
          | None => Says true
          end
      | v => v
      end
  end.

(** The filter does not make the loop skip the record: the pass comes to
    it.  (When a predicate of the filter threw, the pass ends there.) *)
Definition passes (f : option EventFilter) (eventName : string) (d : Data)
  : bool :=
  match applyFilter f eventName d with
  | Says false => false
  | _ => true
  end.

(** The second loop: the records of the cloned wildcard list, in order. *)
Fixpoint runWildcards (b : EventBus) (eventName : string) (d : Data)
    (live clonedWildcardHandlers : list WildcardRecord) (st : Pass)
  : option Err * Pass :=
  match clonedWildcardHandlers with
  | [] => (None, st)
  | r :: rest =>
      match applyFilter (w_filter r) eventName d with
      | Says true =>
          match invoke b eventName (Wildcard r) (Envelope eventName d)
                  (note_onceWildcard live r st) with
          | (Some e, st') => (Some e, st')
          | (None, st') => runWildcards b eventName d live rest st'
          end
      | Says false => runWildcards b eventName d live rest st
      | PredicateThrew e => (Some e, st)
      end
  end.

(** What one [emit] call leaves behind: its result ([Ok None] for
    [undefined], [Ok (Some ps)] for [Promise.all(ps)]), the bus, the world
    and the calls made. *)
Record EmitResult := {
  emit_result : Result Err (option (list Promise));
  emit_bus : EventBus;
  emit_world : World;
  emit_trace : list TraceEvent
}.

Definition emit (b : EventBus) (eventName : string) (d : Data) (now : Z)
    (w : World) : EmitResult :=
  if validateEventName eventName then
    let b := recordEvent b eventName d now in
    let hs := bucket b eventName in
    if negb (allowEmptyEvents (options b)) &&
       bool_decide (length hs = 0%nat) &&
       bool_decide (length (wildcardHandlers b) = 0%nat)
    then {| emit_result := Raise (NoSubscribers eventName);
            emit_bus := b; emit_world := w; emit_trace := [] |}
    else
      match runHandlers b eventName d hs hs (Pass_init w) with
      | (Some e, st) =>
          {| emit_result := Raise (HandlerError e); emit_bus := b;
             emit_world := p_world st; emit_trace := p_trace st |}
      | (None, st) =>
          match runWildcards b eventName d (wildcardHandlers b)
                  (wildcardHandlers b) st with
          | (Some e, st) =>
              {| emit_result := Raise (HandlerError e); emit_bus := b;
                 emit_world := p_world st; emit_trace := p_trace st |}
          | (None, st) =>
              let hs' :=
                splice_all (sort_descending (p_onceHandlerIndices st)) hs in
              let ws' :=
                splice_all (sort_descending (p_onceWildcardIndices st))
                  (wildcardHandlers b) in
              (* the splices act on the array stored in the map, when the
                 name has one *)
              let m :=
                match handlers b !! eventName with
                | Some _ => <[eventName := hs']> (handlers b)
                | None => handlers b
                end in
              let m :=
                if bool_decide (length hs' = 0%nat) &&
                   bool_decide (is_Some (m !! eventName))
                then delete eventName m else m in
              {| emit_result :=
                   Ok (if asyncEventHandling (options b) &&
                          bool_decide (0 < length (p_handlerPromises st))%nat
                       then Some (p_handlerPromises st) else None);
                 emit_bus := set_wildcardHandlers ws' (set_handlers m b);
                 emit_world := p_world st;
                 emit_trace := p_trace st |}
          end
      end
  else {| emit_result := Raise InvalidArgument; emit_bus := b;
          emit_world := w; emit_trace := [] |}.

(** *** Queries *)

Definition listenerCount (b : EventBus) (eventName : string)
  : Result Err nat :=
  if validateEventName eventName then
    Ok (match handlers b !! eventName with
        | Some hs => length hs
        | None => 0%nat
        end)
  else Raise InvalidArgument.

Definition eventNames (b : EventBus) : list string :=
  (map_to_list (handlers b)).*1.

Definition wildcardListenerCount (b : EventBus) : nat :=
  length (wildcardHandlers b).

Definition hasListeners (b : EventBus) (eventName : string)
  : Result Err bool :=
  if validateEventName eventName then
    Ok ((bool_decide (is_Some (handlers b !! eventName)) &&
         bool_decide (0 < length (bucket b eventName))%nat)
        || bool_decide (0 < length (wildcardHandlers b))%nat)
  else Raise InvalidArgument.

Definition clear (b : EventBus) : EventBus :=
  set_wildcardHandlers [] (set_handlers ∅ b).

Definition getHistory (b : EventBus) : list HistoryEntry := eventHistory b.

Definition clearHistory (b : EventBus) : EventBus := set_eventHistory [] b.

(** *** Snapshots *)

Definition getSnapshot (b : EventBus) : EventBusSnapshot :=
  {| s_eventNames := eventNames b;
     s_listenerCounts := length <$> handlers b;
     s_wildcardListenerCount := length (wildcardHandlers b);
     s_history := eventHistory b;
     s_options := options b |}.

(** [restoreFromSnapshot] assigns [this.options] and [this.eventHistory]; the
    members [this.errorHandler] and [this.maxHistorySize], which the
    constructor derives from the options, are not assigned. *)
Definition restoreFromSnapshot (b : EventBus) (snapshot : EventBusSnapshot)
  : EventBus :=
  let b := clear b in
  {| handlers :=
       map_fold (λ eventName count (m : gmap string (list SubscriptionRecord)),
                   if bool_decide (0 < count)%nat
                   then <[eventName := []]> m else m)
         (handlers b) (s_listenerCounts snapshot);
     wildcardHandlers := wildcardHandlers b;
     options := s_options snapshot;
     errorHandler := errorHandler b;
     eventHistory := s_history snapshot;
     maxHistorySize := maxHistorySize b |}.

(** ** Sequences of public operations *)

Inductive Op :=
  | OpOn (eventName : string) (h : EventHandler) (p : EventPriority)
  | OpOnce (eventName : string) (h : EventHandler) (p : EventPriority)
  | OpOnAny (h : EventHandler) (opts : option (EventPriority + EventFilter))
  | OpOff (eventName : string) (h : option EventHandler)
  | OpUnsubscribe (s : EventSubscription)
  | OpEmit (eventName : string) (d : Data) (now : Z)
  | OpClear
  | OpClearHistory
  | OpRestoreFromSnapshot (snapshot : EventBusSnapshot).

(** A caller that goes on after an operation threw keeps the bus in the
    state the operation left it in. *)
Definition step (s : EventBus * World) (op : Op) : EventBus * World :=
  let '(b, w) := s in
  match op with
  | OpOn eventName h p => ((on b eventName h p).2, w)
  | OpOnce eventName h p => ((once_ b eventName h p).2, w)
  | OpOnAny h opts => ((onAny b h opts).2, w)
  | OpOff eventName h => ((off b eventName h).2, w)
  | OpUnsubscribe sub => ((unsubscribe sub b).2, w)
  | OpEmit eventName d now =>
      let r := emit b eventName d now w in (emit_bus r, emit_world r)
  | OpClear => (clear b, w)
  | OpClearHistory => (clearHistory b, w)
  | OpRestoreFromSnapshot snapshot => (restoreFromSnapshot b snapshot, w)
  end.

Definition run (ops : list Op) (s : EventBus * World) : EventBus * World :=
  foldl step s ops.

Definition is_restore (op : Op) : bool :=
  match op with
  | OpRestoreFromSnapshot _ => true
  | _ => false
  end.

(** ** Vocabulary for the statements *)

(** The calls of a trace, without their outcomes and without the reports to
    the error callback. *)
Definition calls (tr : list TraceEvent) : list (Target * Payload) :=
  omap (λ ev, match ev with
              | Invoked t arg _ => Some (t, arg)
              | Reported _ _ _ _ => None
              end) tr.

(** The records an [emit] of [(eventName, d)] has to call, in the order of the
    two loops: the named bucket, then the wildcard records that pass their
    filter.  (A record whose filter throws is among them: the pass comes to
    it, and ends there.) *)
Definition matching (b : EventBus) (eventName : string) (d : Data)
  : list (Target * Payload) :=
  ((λ r, (Named r, Plain d)) <$> bucket b eventName) ++
  ((λ r, (Wildcard r, Envelope eventName d)) <$>
     filter (λ r, passes (w_filter r) eventName d = true) (wildcardHandlers b)).

(** The promises that the calls of a trace returned. *)
Definition promises (tr : list TraceEvent) : list Promise :=
  tr ≫= λ ev, match ev with
              | Invoked _ _ (Returned (Some p)) => [p]
              | _ => []
              end.

Definition is_returned (ev : TraceEvent) : Prop :=
  match ev with
  | Invoked _ _ (Returned _) => True
  | _ => False
  end.

(** Every call that threw is followed at once by the report of its error, for
    this event name, to the callback [cb]; nothing else is reported. *)
Fixpoint reports_follow (cb : ErrorCallback) (eventName : string)
    (tr : list TraceEvent) : Prop :=
  match tr with
  | [] => True
  | Invoked _ _ (Returned _) :: tr' => reports_follow cb eventName tr'
  | Invoked _ _ (Threw e) :: tr' =>
      match tr' with
      | Reported cb' e' n' _ :: tr'' =>
          cb' = cb ∧ e' = e ∧ n' = eventName ∧ reports_follow cb eventName tr''
      | _ => False
      end
  | Reported _ _ _ _ :: _ => False
  end.

(** The error callback returned from every call that the trace has. *)
Definition callback_returned (tr : list TraceEvent) : Prop :=
  ∀ j cb e eventName thrown,
    tr !! j = Some (Reported cb e eventName thrown) → thrown = None.

(** The trace is a log of what was done to the world [w], which [w'] is the
    outcome of: each entry is a call that was made, in the world that the
    entries before it left, and it holds what that call gave. *)
Fixpoint replays (tr : list TraceEvent) (w w' : World) : Prop :=
  match tr with
  | [] => w' = w
  | Invoked t arg res :: tr' =>
      (call (target_handler t) arg w).1 = res ∧
      replays tr' (call (target_handler t) arg w).2 w'
  | Reported cb e eventName thrown :: tr' =>
      (callErrorHandler cb e eventName w).1 = thrown ∧
      replays tr' (callErrorHandler cb e eventName w).2 w'
  end.

(** No filter predicate of a wildcard record throws at this event. *)
Definition filters_return (b : EventBus) (eventName : string) (d : Data)
  : Prop :=
  ∀ r e, r ∈ wildcardHandlers b →
         applyFilter (w_filter r) eventName d ≠ PredicateThrew e.

(** The shape of the trace of a pass over the calls [cs]: [None] when the pass
    went through all of them, [Some e] when it stopped at one of them with
    the error [e]: that of the handler, with [catchErrors] off, or that of
    the error callback, or that of the record's filter. *)
Inductive pass_shape (b : EventBus) (eventName : string)
  : option Err → list (Target * Payload) → list TraceEvent → Prop :=
  | pass_end : pass_shape b eventName None [] []
  | pass_returned t arg p cs oe tr :
      pass_shape b eventName oe cs tr →
      pass_shape b eventName oe ((t, arg) :: cs)
        (Invoked t arg (Returned p) :: tr)
  | pass_caught t arg e cs oe tr :
      catchErrors (options b) = true →
      pass_shape b eventName oe cs tr →
      pass_shape b eventName oe ((t, arg) :: cs)
        (Invoked t arg (Threw e) ::
         Reported (errorHandler b) e eventName None :: tr)
  | pass_callback_threw t arg e e' cs :
      catchErrors (options b) = true →
      errorHandler b ≠ DefaultErrorHandler →
      pass_shape b eventName (Some e') ((t, arg) :: cs)
        [Invoked t arg (Threw e);
         Reported (errorHandler b) e eventName (Some e')]
  | pass_aborted t arg e cs :
      catchErrors (options b) = false →
      pass_shape b eventName (Some e) ((t, arg) :: cs) [Invoked t arg (Threw e)]
  | pass_filter_threw r d e cs :
      applyFilter (w_filter r) eventName d = PredicateThrew e →
      pass_shape b eventName (Some e)
        ((Wildcard r, Envelope eventName d) :: cs) [].

(** [handlerPromises] collects the promises when [asyncEventHandling] is
    on. *)
Definition collected (b : EventBus) (tr : list TraceEvent) : list Promise :=
  if asyncEventHandling (options b) then promises tr else [].

(** The empty-event check looks at the two registries only. *)
Definition rejects_empty (b : EventBus) (eventName : string) : Prop :=
  allowEmptyEvents (options b) = false ∧
  bucket b eventName = [] ∧ wildcardHandlers b = [].

(** The history is within the bound that [recordEvent] enforces. *)
Definition history_bounded (b : EventBus) : Prop :=
  Z.of_nat (length (eventHistory b)) ≤ maxHistorySize b.

(** The entry that an [emit] of [(eventName, d)] at time [now] records. *)
Definition entry_of (eventName : string) (d : Data) (now : Z) : HistoryEntry :=
  {| event := eventName; data := d; timestamp := now |}.

(** A bucket, and a wildcard list, in ascending order of priority value. *)
Definition bucket_sorted (hs : list SubscriptionRecord) : Prop :=
  StronglySorted (key_le (λ r, priority_value (priority r))) hs.

Definition wildcards_sorted (ws : list WildcardRecord) : Prop :=
  StronglySorted (key_le (λ r, priority_value (w_priority r))) ws.

(** Every bucket, and the wildcard list, is in priority order. *)
Definition bus_sorted (b : EventBus) : Prop :=
  (∀ name hs, handlers b !! name = Some hs → bucket_sorted hs) ∧
  wildcards_sorted (wildcardHandlers b).

(** No name is listed with an empty bucket. *)
Definition buckets_nonempty (b : EventBus) : Prop :=
  ∀ name hs, handlers b !! name = Some hs → hs ≠ [].

End Bus.

(** ** The remaining queries *)

Section BusState.

Context {Data Err : Type}.

(** The result of [getState]. *)
Record BusState := {
  eventCount : nat;
  totalListeners : nat;
  historySize : nat;
  state_options : ResolvedOptions
}.

(** [getState]: [totalListeners] is the [reduce] of the bucket lengths over
    [this.handlers.values()]. *)
Definition getState (b : @EventBus Data Err) : BusState :=
  {| eventCount := size (handlers b);
     totalListeners :=
       foldl (λ sum hs, sum + length hs)%nat 0%nat (map_to_list (handlers b)).*2;
     historySize := length (eventHistory b);
     state_options := options b |}.

Definition hasAnyListeners (b : @EventBus Data Err) : bool :=
  bool_decide (0 < size (handlers b))%nat ||
  bool_decide (0 < length (wildcardHandlers b))%nat.

End BusState.

(** [getListenerCount] and [getWildcardListenerCount] pass their argument
    on. *)
Definition getListenerCount {Data Err} (b : @EventBus Data Err)
    (event : string)
  : Result Err nat := listenerCount b event.

Definition getWildcardListenerCount {Data Err} (b : @EventBus Data Err)
  : nat :=
  wildcardListenerCount b.

(** [new EventBus()]: no option given. *)
Definition default_options : EventBusOptions :=
  {| o_asyncEventHandling := None; o_catchErrors := None; o_onError := None;
     o_allowEmptyEvents := None; o_maxHistorySize := None |}.

(** * A concrete environment

    A small environment in which the operations can be evaluated: event data
    and errors are numbers, the world is the list of the handlers and
    callbacks called so far, handler [13] throws (its own number), every
    other handler returns without a promise.  The default error handler
    writes to the console, which is not part of the world; a callback given
    as [onError] is noted in the world; callback [66] throws (its own
    number), every other callback returns. *)

Definition demo_call (h : EventHandler) (arg : @Payload nat)
    (w : list EventHandler) : @Outcome nat nat * list EventHandler :=
  (if bool_decide (h = 13%nat) then Threw h else Returned None, w ++ [h]).

Definition demo_report (cb : ErrorCallback) (e : nat) (eventName : string)
    (w : list EventHandler) : option nat * list EventHandler :=
  match cb with
  | DefaultErrorHandler => (None, w)
  | UserCallback ref =>
      (if bool_decide (ref = 66%nat) then Some ref else None, w ++ [ref])
  end.

(** [new EventBus({ allowEmptyEvents: false })] *)
Definition strict_options : EventBusOptions :=
  {| o_asyncEventHandling := None; o_catchErrors := None; o_onError := None;
     o_allowEmptyEvents := Some false; o_maxHistorySize := None |}.

(** [new EventBus({ allowEmptyEvents: false, maxHistorySize: -1 })] *)
Definition strict_negative_options : EventBusOptions :=
  {| o_asyncEventHandling := None; o_catchErrors := None; o_onError := None;
     o_allowEmptyEvents := Some false; o_maxHistorySize := Some (-1) |}.

(** [new EventBus({ catchErrors: false })] *)
Definition failfast_options : EventBusOptions :=
  {| o_asyncEventHandling := None; o_catchErrors := Some false;
     o_onError := None; o_allowEmptyEvents := None;
     o_maxHistorySize := None |}.

(** [new EventBus({ onError: cb })] *)
Definition onError_options (cb : nat) : EventBusOptions :=
  {| o_asyncEventHandling := None; o_catchErrors := None;
     o_onError := Some cb; o_allowEmptyEvents := None;
     o_maxHistorySize := None |}.

(** [new EventBus({ maxHistorySize: n })] *)
Definition history_options (n : Z) : EventBusOptions :=
  {| o_asyncEventHandling := None; o_catchErrors := None; o_onError := None;
     o_allowEmptyEvents := None; o_maxHistorySize := Some n |}.

(** [{ event: () => false }]: a filter that rejects every event. *)
Definition reject_all : @EventFilter nat nat :=
  {| f_event := Some (λ _, Says false); f_data := None |}.

(** A strict bus whose only subscriber is a wildcard with [reject_all]. *)
Definition strict_filtered_bus : @EventBus nat nat :=
  (onAny (Err:=nat) (EventBus_new strict_options) 1
     (Some (inr reject_all))).2.

(** A run in which the first of two handlers throws. *)
Definition throwing_ops : list (@Op nat nat) :=
  [OpOn "e" 13 Normal; OpOn "e" 1 Low].

(** Operations that remove the last record of ["a"] by once-pruning and one
    of the two records of ["b"] by [off]. *)
Definition pruning_ops : list (@Op nat nat) :=
  [OpOnce "a" 1 Normal; OpOn "b" 2 Low; OpOn "b" 3 Low; OpEmit "a" 0%nat 0;
   OpOff "b" (Some 2%nat)].

(** A bus with a once record in front of a persistent record of another
    handler. *)
Definition mixed_bus : @EventBus nat nat :=
  (run demo_call demo_report [OpOnce "e" 1 High; OpOn "e" 2 Low]
     (EventBus_new default_options, [])).1.

(** * EventManager: groups, history and state on top of the bus

    The [EventManager] class (the file that imports [./EventBus] and exports
    [EventManager]).  It owns one bus and forwards to it.

    Modelling conventions, beside those of the bus.
    - The payloads the manager emits are object literals of a few shapes;
      the data type of its bus is the tagged union [ManagerData] of these
      shapes and of the values a caller passes.  A value is [option V],
      where [None] is [undefined].  [setState] compares values with [===],
      which the class [StrictEquality] stands for; [===] does not hold
      between [NaN] and itself, and it holds between [+0] and [-0].
    - [Map] and [Set] enumerate in insertion order.  A [Set<string>] is a
      list without duplicates in insertion order; a [Map] that the manager
      iterates over is an association list in insertion order.
    - The arrays held in [groupSubscriptions] and the sets held in
      [stateListeners] are captured by the closures that the manager hands
      out, and the manager replaces them by fresh ones; they live in a store
      ([arrays], [sets]) and are referred to by reference.  A closure is the
      data it captured.
    - A state listener is a function reference, what calling it does is
      given by the environment [notify]; listeners, like handlers, do not
      call back into the manager.
    - [emit] reads the clock twice: in the manager's [recordEvent] and in the
      bus's; both readings are arguments.
    - The member [groups] is initialised by the constructor and never used;
      the option [groupPrefix] is stored and never read. *)

Module Manager.

Inductive GroupAction := Add | Remove.

(** The data of an event that goes through the manager. *)
Inductive ManagerData {V : Type} :=
  | UserValue (v : option V)
  | GroupCreated (groupName : string) (eventNames : list string)
  | GroupUpdated (groupName : string) (eventNames : list string)
      (action : GroupAction)
  | GroupDeleted (groupName : string) (eventNames : list string)
  | StateChange (key : string) (value oldValue : option V).
Arguments ManagerData : clear implicits.

(** [EventManager.EVENTS] *)
Definition STATE_CHANGE : string := "@state:change".
Definition GROUP_CREATED : string := "@group:created".
Definition GROUP_UPDATED : string := "@group:updated".
Definition GROUP_DELETED : string := "@group:deleted".
Definition MANAGER_RESET : string := "@manager:reset".

(** A member of an options object that is spread over defaults: it is
    absent, or present with the value [undefined], or present with a
    value. *)
Inductive Member (A : Type) :=
  | Absent
  | Undefined
  | Given (a : A).
Arguments Absent {A}.
Arguments Undefined {A}.
Arguments Given {A} a.

(** [{ ...defaults, ...options }], for one member: a member that is present
    replaces the default, also when its value is [undefined] ([None]). *)
Definition spread {A} (dflt : A) (m : Member A) : option A :=
  match m with
  | Absent => Some dflt
  | Undefined => None
  | Given a => Some a
  end.

(** [EventManagerOptions]: every member is optional. *)
Record EventManagerOptions := {
  o_enableStateManagement : Member bool;
  o_groupPrefix : Member string;
  o_recordHistory : Member bool;
  o_maxHistoryLength : Member Z;
  o_eventBusOptions : Member EventBusOptions
}.

(** [Required<EventManagerOptions>], as stored in [this.options]; a member
    that was passed as [undefined] is [undefined] here ([None]).  The
    manager reads [enableStateManagement] and [recordHistory] in conditions
    only; they are held as the truth value that a condition sees, which is
    [false] for [undefined]. *)
Record ResolvedManagerOptions := {
  enableStateManagement : bool;
  groupPrefix : option string;
  recordHistory : bool;
  maxHistoryLength : option Z;
  eventBusOptions : option EventBusOptions
}.

(** [===] on the values of [V].  Nothing is assumed of it. *)
Class StrictEquality (V : Type) := strictly_equal : V → V → bool.

(** A state listener is a function reference. *)
Definition StateListener := nat.
Bind Scope nat_scope with StateListener.

(** What a failing operation of the manager throws: an error of the bus, one
    of the manager's own [Error]s, the error of a state listener, or the
    [TypeError] of a member access on [undefined]. *)
Inductive ManagerThrown {Err : Type} :=
  | BusError (t : Thrown Err)
  | GroupExists (groupName : string)
  | GroupNotFound (groupName : string)
  | StateManagementDisabled
  | ListenerError (e : Err)
  | TypeError.
Arguments ManagerThrown : clear implicits.

Inductive MResult {Err A : Type} :=
  | Done (a : A)
  | Throw (t : ManagerThrown Err).
Arguments MResult : clear implicits.

(** [void]: the value of a call is dropped. *)
Definition void {Err A} (r : MResult Err A) : MResult Err () :=
  match r with
  | Done _ => Done ()
  | Throw t => Throw t
  end.

(** ** [forEach], [Set] and [Map] *)

(** [l.forEach(f)] for a callback that may throw: the first error ends the
    loop. *)
Fixpoint forEach {A S E} (f : A → S → option E * S) (l : list A) (s : S)
  : option E * S :=
  match l with
  | [] => (None, s)
  | x :: l' =>
      match f x s with
      | (Some e, s') => (Some e, s')
      | (None, s') => forEach f l' s'
      end
  end.

(** [set.add(x)] *)
Definition Set_add {A} `{EqDecision A} (x : A) (s : list A) : list A :=
  if bool_decide (x ∈ s) then s else s ++ [x].

(** [set.delete(x)] *)
Definition Set_delete {A} `{EqDecision A} (x : A) (s : list A) : list A :=
  filter (λ y, y ≠ x) s.

(** [xs.forEach(x => set.add(x))] *)
Definition Set_addAll {A} `{EqDecision A} (xs : list A) (s : list A)
  : list A :=
  foldl (λ s x, Set_add x s) s xs.

(** [xs.forEach(x => set.delete(x))] *)
Definition Set_deleteAll {A} `{EqDecision A} (xs : list A) (s : list A)
  : list A :=
  foldl (λ s x, Set_delete x s) s xs.

(** [new Set(xs)] *)
Definition Set_new {A} `{EqDecision A} (xs : list A) : list A :=
  Set_addAll xs [].

(** [map.get(k)]; [None] stands for [undefined]. *)
Fixpoint Map_get {A} (k : string) (m : list (string * A)) : option A :=
  match m with
  | [] => None
  | (k', v) :: m' => if bool_decide (k' = k) then Some v else Map_get k m'
  end.

(** [map.has(k)] *)
Definition Map_has {A} (k : string) (m : list (string * A)) : bool :=
  bool_decide (is_Some (Map_get k m)).

(** [map.set(k, v)]: a key that is present keeps its place. *)
Fixpoint Map_set {A} (k : string) (v : A) (m : list (string * A))
  : list (string * A) :=
  match m with
  | [] => [(k, v)]
  | (k', v') :: m' =>
      if bool_decide (k' = k) then (k, v) :: m' else (k', v') :: Map_set k v m'
  end.

(** [map.delete(k)] *)
Definition Map_delete {A} (k : string) (m : list (string * A))
  : list (string * A) :=
  filter (λ e, e.1 ≠ k) m.

Section Manager.

Context {V Err Promise World : Type} `{!StrictEquality V}.

Abbreviation Data := (ManagerData V).

(** The operations of the bus, which [getEventBus] gives access to. *)
Abbreviation BusOp := (@Op Data Err).

(** The members of [EventFilter] that [getHistory] reads. *)
Record HistoryFilter := {
  hf_event : option (string → bool);
  hf_data : option (string → Data → bool);
  hf_timestamp : option (Z → bool)
}.

(** [EventRecord] *)
Record EventRecord := {
  r_eventName : string;
  r_data : Data;
  r_timestamp : Z
}.

(** The object that [onGroup] and [onceGroup] return.  Its [unsubscribe]
    closure captured the array [subscriptions] of bus subscriptions and the
    array [groupSubs] it was pushed to; [gs_ref] is the identity of the
    object, which [indexOf] compares. *)
Record GroupSubscription := {
  gs_ref : nat;
  subscriptions : list EventSubscription;
  groupSubs : nat
}.

(** The function that [onStateChange] returns: it captured the set and the
    listener. *)
Record StateUnsubscribe := {
  su_listeners : nat;
  su_listener : StateListener
}.

Record EventManager := {
  options : ResolvedManagerOptions;
  eventBus : @EventBus Data Err;
  stateValues : gmap string (option V);
  stateListeners : gmap string nat;
  eventHistory : list EventRecord;
  eventGroups : list (string * list string);
  groupSubscriptions : list (string * nat);
  (* the store *)
  arrays : gmap nat (list GroupSubscription);
  sets : gmap nat (list StateListener);
  next : nat
}.

(** The environment: the bus's, and what calling a state listener with
    [(newValue, oldValue)] does: it returns, or it throws. *)
Variable call : EventHandler → @Payload Data → World →
                @Outcome Err Promise * World.
Variable report : ErrorCallback → Err → string → World → option Err * World.
Variable notify : StateListener → option V → option V → World →
                  option Err * World.

(** *** Constructor: [{ ...defaults, ...options }]

    The bus is made by [new EventBus(this.options.eventBusOptions)], whose
    parameter defaults to [{}] when the argument is [undefined]. *)

Definition EventManager_new (o : EventManagerOptions) : EventManager :=
  let opts := {|
    enableStateManagement :=
      default false (spread false (o_enableStateManagement o));
    groupPrefix := spread "group:" (o_groupPrefix o);
    recordHistory := default false (spread true (o_recordHistory o));
    maxHistoryLength := spread 1000 (o_maxHistoryLength o);
    eventBusOptions := spread default_options (o_eventBusOptions o)
  |} in
  {| options := opts;
     eventBus := EventBus_new (default default_options (eventBusOptions opts));
     stateValues := ∅;
     stateListeners := ∅;
     eventHistory := [];
     eventGroups := [];
     groupSubscriptions := [];
     arrays := ∅;
     sets := ∅;
     next := 0 |}.

Definition set_eventBus (b : @EventBus Data Err) (m : EventManager)
  : EventManager :=
  {| options := options m; eventBus := b; stateValues := stateValues m;
     stateListeners := stateListeners m; eventHistory := eventHistory m;
     eventGroups := eventGroups m;
     groupSubscriptions := groupSubscriptions m;
     arrays := arrays m; sets := sets m; next := next m |}.

Definition set_stateValues (vs : gmap string (option V)) (m : EventManager)
  : EventManager :=
  {| options := options m; eventBus := eventBus m; stateValues := vs;
     stateListeners := stateListeners m; eventHistory := eventHistory m;
     eventGroups := eventGroups m;
     groupSubscriptions := groupSubscriptions m;
     arrays := arrays m; sets := sets m; next := next m |}.

Definition set_stateListeners (ls : gmap string nat) (m : EventManager)
  : EventManager :=
  {| options := options m; eventBus := eventBus m;
     stateValues := stateValues m;
     stateListeners := ls; eventHistory := eventHistory m;
     eventGroups := eventGroups m;
     groupSubscriptions := groupSubscriptions m;
     arrays := arrays m; sets := sets m; next := next m |}.

Definition set_eventHistory (h : list EventRecord) (m : EventManager)
  : EventManager :=
  {| options := options m; eventBus := eventBus m;
     stateValues := stateValues m;
     stateListeners := stateListeners m; eventHistory := h;
     eventGroups := eventGroups m;
     groupSubscriptions := groupSubscriptions m;
     arrays := arrays m; sets := sets m; next := next m |}.

Definition set_eventGroups (gs : list (string * list string))
    (m : EventManager) : EventManager :=
  {| options := options m; eventBus := eventBus m;
     stateValues := stateValues m;
     stateListeners := stateListeners m; eventHistory := eventHistory m;
     eventGroups := gs;
     groupSubscriptions := groupSubscriptions m;
     arrays := arrays m; sets := sets m; next := next m |}.

Definition set_groupSubscriptions (gs : list (string * nat))
    (m : EventManager) : EventManager :=
  {| options := options m; eventBus := eventBus m;
     stateValues := stateValues m;
     stateListeners := stateListeners m; eventHistory := eventHistory m;
     eventGroups := eventGroups m;
     groupSubscriptions := gs;
     arrays := arrays m; sets := sets m; next := next m |}.

Definition set_arrays (a : gmap nat (list GroupSubscription))
    (m : EventManager) : EventManager :=
  {| options := options m; eventBus := eventBus m;
     stateValues := stateValues m;
     stateListeners := stateListeners m; eventHistory := eventHistory m;
     eventGroups := eventGroups m;
     groupSubscriptions := groupSubscriptions m;
     arrays := a; sets := sets m; next := next m |}.

Definition set_sets (s : gmap nat (list StateListener))
    (m : EventManager) : EventManager :=
  {| options := options m; eventBus := eventBus m;
     stateValues := stateValues m;
     stateListeners := stateListeners m; eventHistory := eventHistory m;
     eventGroups := eventGroups m;
     groupSubscriptions := groupSubscriptions m;
     arrays := arrays m; sets := s; next := next m |}.

Definition set_next (n : nat) (m : EventManager) : EventManager :=
  {| options := options m; eventBus := eventBus m;
     stateValues := stateValues m;
     stateListeners := stateListeners m; eventHistory := eventHistory m;
     eventGroups := eventGroups m;
     groupSubscriptions := groupSubscriptions m;
     arrays := arrays m; sets := sets m; next := n |}.

(** The array, and the set, behind a reference. *)
Definition array (m : EventManager) (ref : nat) : list GroupSubscription :=
  default [] (arrays m !! ref).

Definition listeners (m : EventManager) (ref : nat) : list StateListener :=
  default [] (sets m !! ref).

(** [this.groupSubscriptions.set(groupName, [])]: a new, empty array. *)
Definition set_groupSubscriptions_empty (groupName : string)
    (m : EventManager) : EventManager :=
  set_next (S (next m))
    (set_arrays (<[next m := []]> (arrays m))
       (set_groupSubscriptions
          (Map_set groupName (next m) (groupSubscriptions m)) m)).

(** *** [recordEvent]

    [this.eventHistory.length > this.options.maxHistoryLength] is false
    when [maxHistoryLength] is [undefined]. *)

Definition recordEvent (m : EventManager) (eventName : string) (d : Data)
    (now : Z) : EventManager :=
  let h := eventHistory m ++
           [{| r_eventName := eventName; r_data := d; r_timestamp := now |}] in
  set_eventHistory
    (match maxHistoryLength (options m) with
     | Some cap => if bool_decide (cap < Z.of_nat (length h)) then tail h else h
     | None => h
     end)
    m.

(** *** [emit]: record, then forward to the bus

    [now] is the clock reading of the manager's [recordEvent], [now'] that
    of the bus's. *)

Definition emit (m : EventManager) (eventName : string) (d : Data)
    (now now' : Z) (w : World)
  : MResult Err (option (list Promise)) * EventManager * World :=
  let m := if recordHistory (options m)
           then recordEvent m eventName d now else m in
  let r := emit call report (eventBus m) eventName d now' w in
  (match emit_result r with
   | Ok v => Done v
   | Raise t => Throw (BusError t)
   end,
   set_eventBus (emit_bus r) m, emit_world r).

(** A call [this.emit(...)] whose value is dropped. *)
Definition emit_void (m : EventManager) (eventName : string) (d : Data)
    (now now' : Z) (w : World) : MResult Err () * EventManager * World :=
  let '(r, m, w) := emit m eventName d now now' w in (void r, m, w).

(** *** Groups *)

Definition createGroup (m : EventManager) (groupName : string)
    (eventNames : list string) (now now' : Z) (w : World)
  : MResult Err () * EventManager * World :=
  if Map_has groupName (eventGroups m) then (Throw (GroupExists groupName), m, w)
  else
    let eventSet := Set_new eventNames in
    let m := set_eventGroups (Map_set groupName eventSet (eventGroups m)) m in
    let m := set_groupSubscriptions_empty groupName m in
    emit_void m GROUP_CREATED (GroupCreated groupName eventSet) now now' w.

Definition addToGroup (m : EventManager) (groupName : string)
    (eventNames : list string) (now now' : Z) (w : World)
  : MResult Err () * EventManager * World :=
  match Map_get groupName (eventGroups m) with
  | None => (Throw (GroupNotFound groupName), m, w)
  | Some group =>
      let originalCount := length group in
      let group := Set_addAll eventNames group in
      let m := set_eventGroups (Map_set groupName group (eventGroups m)) m in
      if bool_decide (originalCount < length group)%nat then
        emit_void m GROUP_UPDATED (GroupUpdated groupName group Add) now now' w
      else (Done (), m, w)
  end.

Definition removeFromGroup (m : EventManager) (groupName : string)
    (eventNames : list string) (now now' : Z) (w : World)
  : MResult Err () * EventManager * World :=
  match Map_get groupName (eventGroups m) with
  | None => (Throw (GroupNotFound groupName), m, w)
  | Some group =>
      let originalCount := length group in
      let group := Set_deleteAll eventNames group in
      let m := set_eventGroups (Map_set groupName group (eventGroups m)) m in
      if bool_decide (length group < originalCount)%nat then
        emit_void m GROUP_UPDATED (GroupUpdated groupName group Remove)
          now now' w
      else (Done (), m, w)
  end.

(** [getGroups]: the result is an object; it is given by its own
    properties, a finite map from group names to arrays.  The assignment
    [result[groupName] = ...] creates the property, except for the name
    ['__proto__']: that assignment goes to the setter of [Object.prototype]
    and makes the array the prototype of the result, so that no property of
    this name is created. *)
Definition getGroups (m : EventManager) : gmap string (list string) :=
  foldl (λ result g,
           if bool_decide (g.1 = "__proto__") then result
           else <[g.1 := g.2]> result)
    ∅ (eventGroups m).

(** [onGroup], [onceGroup]: they differ in the bus method only.  The loop
    over the group, [subscribeEach], subscribes on the bus and collects the
    subscriptions. *)
Definition subscribeEach (isOnce : bool) (h : EventHandler)
    (p : EventPriority) (eventName : string)
    (s : @EventBus Data Err * list EventSubscription)
  : option (ManagerThrown Err) *
    (@EventBus Data Err * list EventSubscription) :=
  match subscribe (Err:=Err) isOnce s.1 eventName h p with
  | (Ok sub, b) => (None, (b, s.2 ++ [sub]))
  | (Raise t, b) => (Some (BusError t), (b, s.2))
  end.

Definition subscribeGroup (isOnce : bool) (m : EventManager)
    (groupName : string) (h : EventHandler) (p : EventPriority)
  : MResult Err GroupSubscription * EventManager :=
  match Map_get groupName (eventGroups m) with
  | None => (Throw (GroupNotFound groupName), m)
  | Some group =>
      let groupSubs := Map_get groupName (groupSubscriptions m) in
      match forEach (subscribeEach isOnce h p) group (eventBus m, []) with
      | (Some e, s) => (Throw e, set_eventBus s.1 m)
      | (None, s) =>
          let m := set_eventBus s.1 m in
          match groupSubs with
          | None => (Throw TypeError, m)
          | Some ref =>
              let groupSubscription :=
                {| gs_ref := next m; subscriptions := s.2;
                   groupSubs := ref |} in
              (Done groupSubscription,
               set_next (S (next m))
                 (set_arrays
                    (<[ref := array m ref ++ [groupSubscription]]> (arrays m))
                    m))
          end
      end
  end.

Definition onGroup := subscribeGroup false.
Definition onceGroup := subscribeGroup true.

(** The [unsubscribe] closure of a group subscription:
    [subscriptions.forEach(sub => sub.unsubscribe())], then the object takes
    itself out of the array it was pushed to. *)
Definition unsubscribeEach (sub : EventSubscription)
    (b : @EventBus Data Err)
  : option (ManagerThrown Err) * @EventBus Data Err :=
  match unsubscribe (Err:=Err) sub b with
  | (Ok _, b') => (None, b')
  | (Raise t, b') => (Some (BusError t), b')
  end.

Definition unsubscribeGroup (g : GroupSubscription) (m : EventManager)
  : option (ManagerThrown Err) * EventManager :=
  match forEach unsubscribeEach (subscriptions g) (eventBus m) with
  | (Some e, b) => (Some e, set_eventBus b m)
  | (None, b) =>
      let m := set_eventBus b m in
      match findIndex (λ x, bool_decide (gs_ref x = gs_ref g))
              (array m (groupSubs g)) with
      | Some index =>
          (None,
           set_arrays
             (<[groupSubs g := splice1 index (array m (groupSubs g))]>
                (arrays m)) m)
      | None => (None, m)
      end
  end.

Definition offGroup (m : EventManager) (groupName : string)
  : option (ManagerThrown Err) * EventManager :=
  match Map_get groupName (groupSubscriptions m) with
  | None => (None, m)
  | Some ref =>
      match forEach unsubscribeGroup (array m ref) m with
      | (Some e, m) => (Some e, m)
      | (None, m) => (None, set_groupSubscriptions_empty groupName m)
      end
  end.

Definition deleteGroup (m : EventManager) (groupName : string)
    (now now' : Z) (w : World) : MResult Err () * EventManager * World :=
  if negb (Map_has groupName (eventGroups m)) then (Done (), m, w)
  else
    match offGroup m groupName with
    | (Some e, m) => (Throw e, m, w)
    | (None, m) =>
        let eventNames := default [] (Map_get groupName (eventGroups m)) in
        let m := set_eventGroups (Map_delete groupName (eventGroups m)) m in
        let m := set_groupSubscriptions
                   (Map_delete groupName (groupSubscriptions m)) m in
        emit_void m GROUP_DELETED (GroupDeleted groupName eventNames)
          now now' w
    end.

(** *** History *)

Definition accepts (filter : HistoryFilter) (record : EventRecord) : bool :=
  match hf_event filter with
  | Some p => p (r_eventName record)
  | None => true
  end &&
  match hf_data filter with
  | Some p => p (r_eventName record) (r_data record)
  | None => true
  end &&
  match hf_timestamp filter with
  | Some p => p (r_timestamp record)
  | None => true
  end.

Definition getHistory (m : EventManager)
    (historyFilter : option HistoryFilter) : list EventRecord :=
  if negb (recordHistory (options m)) then []
  else
    match historyFilter with
    | None => eventHistory m
    | Some f => filter (λ record, accepts f record = true) (eventHistory m)
    end.

Definition clearHistory (m : EventManager) : EventManager :=
  set_eventHistory [] m.

Definition getEventBus (m : EventManager) : @EventBus Data Err :=
  eventBus m.

(** *** State *)

(** [this.stateValues.get(key)] *)
Definition stateValue (m : EventManager) (key : string) : option V :=
  mjoin (stateValues m !! key).

(** [a === b] for two values that may be [undefined]: [undefined] is [===]
    to itself and to nothing else. *)
Definition strictEquals (a b : option V) : bool :=
  match a, b with
  | None, None => true
  | Some x, Some y => strictly_equal x y
  | _, _ => false
  end.

(** The listeners registered for a key: the set that
    [this.stateListeners.get(key)] gives, if any. *)
Definition listenersOf (m : EventManager) (key : string)
  : list StateListener :=
  match stateListeners m !! key with
  | Some ref => listeners m ref
  | None => []
  end.

Definition setState (m : EventManager) (key : string) (value : option V)
    (now now' : Z) (w : World) : MResult Err () * EventManager * World :=
  if negb (enableStateManagement (options m))
  then (Throw StateManagementDisabled, m, w)
  else
    let oldValue := stateValue m key in
    if strictEquals oldValue value then (Done (), m, w)
    else
      let m := set_stateValues (<[key := value]> (stateValues m)) m in
      match forEach (λ listener w, notify listener value oldValue w)
              (listenersOf m key) w with
      | (Some e, w) => (Throw (ListenerError e), m, w)
      | (None, w) =>
          emit_void m STATE_CHANGE (StateChange key value oldValue) now now' w
      end.

Definition getState (m : EventManager) (key : string)
  : MResult Err (option V) :=
  if negb (enableStateManagement (options m))
  then Throw StateManagementDisabled
  else Done (stateValue m key).

Definition onStateChange (m : EventManager) (key : string)
    (listener : StateListener) : MResult Err StateUnsubscribe * EventManager :=
  if negb (enableStateManagement (options m))
  then (Throw StateManagementDisabled, m)
  else
    let '(ref, m) :=
      match stateListeners m !! key with
      | Some ref => (ref, m)
      | None =>
          (next m,
           set_next (S (next m))
             (set_sets (<[next m := []]> (sets m))
                (set_stateListeners (<[key := next m]> (stateListeners m)) m)))
      end in
    (Done {| su_listeners := ref; su_listener := listener |},
     set_sets (<[ref := Set_add listener (listeners m ref)]> (sets m)) m).

(** The function returned by [onStateChange]. *)
Definition unsubscribeState (u : StateUnsubscribe) (m : EventManager)
  : EventManager :=
  set_sets
    (<[su_listeners u :=
         Set_delete (su_listener u) (listeners m (su_listeners u))]> (sets m))
    m.

(** *** [reset] *)

Definition reset (m : EventManager) (now now' : Z) (w : World)
  : MResult Err () * EventManager * World :=
  match forEach (λ (g : string * list string) m, offGroup m g.1)
          (eventGroups m) m with
  | (Some e, m) => (Throw e, m, w)
  | (None, m) =>
      let m := set_eventGroups [] m in
      let m := set_groupSubscriptions [] m in
      let m := clearHistory m in
      let m := if enableStateManagement (options m)
               then set_stateListeners ∅ (set_stateValues ∅ m) else m in
      emit_void m MANAGER_RESET (UserValue None) now now' w
  end.

(** ** Sequences of public operations

    The operations of the manager, the closures it hands out, and the
    operations of the bus that [getEventBus] gives access to. *)

(** [OpUnsubscribeGroup] and [OpUnsubscribeState] take any closure; the ones
    a caller holds are among them. *)
Inductive Op :=
  | OpCreateGroup (groupName : string) (eventNames : list string)
      (now now' : Z)
  | OpAddToGroup (groupName : string) (eventNames : list string)
      (now now' : Z)
  | OpRemoveFromGroup (groupName : string) (eventNames : list string)
      (now now' : Z)
  | OpDeleteGroup (groupName : string) (now now' : Z)
  | OpOnGroup (groupName : string) (h : EventHandler) (p : EventPriority)
  | OpOnceGroup (groupName : string) (h : EventHandler) (p : EventPriority)
  | OpUnsubscribeGroup (g : GroupSubscription)
  | OpOffGroup (groupName : string)
  | OpEmit (eventName : string) (d : Data) (now now' : Z)
  | OpClearHistory
  | OpSetState (key : string) (value : option V) (now now' : Z)
  | OpOnStateChange (key : string) (listener : StateListener)
  | OpUnsubscribeState (u : StateUnsubscribe)
  | OpReset (now now' : Z)
  | OpBus (op : BusOp).

(** A caller that goes on after an operation threw keeps the manager in the
    state the operation left it in. *)
Definition step (s : EventManager * World) (op : Op) : EventManager * World :=
  let '(m, w) := s in
  match op with
  | OpCreateGroup groupName eventNames now now' =>
      let r := createGroup m groupName eventNames now now' w in (r.1.2, r.2)
  | OpAddToGroup groupName eventNames now now' =>
      let r := addToGroup m groupName eventNames now now' w in (r.1.2, r.2)
  | OpRemoveFromGroup groupName eventNames now now' =>
      let r := removeFromGroup m groupName eventNames now now' w in
      (r.1.2, r.2)
  | OpDeleteGroup groupName now now' =>
      let r := deleteGroup m groupName now now' w in (r.1.2, r.2)
  | OpOnGroup groupName h p => ((onGroup m groupName h p).2, w)
  | OpOnceGroup groupName h p => ((onceGroup m groupName h p).2, w)
  | OpUnsubscribeGroup g => ((unsubscribeGroup g m).2, w)
  | OpOffGroup groupName => ((offGroup m groupName).2, w)
  | OpEmit eventName d now now' =>
      let r := emit m eventName d now now' w in (r.1.2, r.2)
  | OpClearHistory => (clearHistory m, w)
  | OpSetState key value now now' =>
      let r := setState m key value now now' w in (r.1.2, r.2)
  | OpOnStateChange key listener => ((onStateChange m key listener).2, w)
  | OpUnsubscribeState u => (unsubscribeState u m, w)
  | OpReset now now' => let r := reset m now now' w in (r.1.2, r.2)
  | OpBus op =>
      let s := step call report (eventBus m, w) op in (set_eventBus s.1 m, s.2)
  end.

Definition run (ops : list Op) (s : EventManager * World)
  : EventManager * World :=
  foldl step s ops.

(** ** Vocabulary for the statements *)

(** The record that an [emit] of [(eventName, d)] at time [now] leaves in
    the manager's history. *)
Definition record_of (eventName : string) (d : Data) (now : Z)
  : EventRecord :=
  {| r_eventName := eventName; r_data := d; r_timestamp := now |}.

(** The history is within the bound that [recordEvent] enforces; a bound
    below zero acts as zero, and [undefined] is no bound. *)
Definition history_bounded (m : EventManager) : Prop :=
  match maxHistoryLength (options m) with
  | Some cap => Z.of_nat (length (eventHistory m)) ≤ Z.max 0 cap
  | None => True
  end.

(** A record that [recordEvent] appends stays in the history:
    [maxHistoryLength] is at least one, or [undefined]. *)
Definition keeps_record (o : ResolvedManagerOptions) : bool :=
  match maxHistoryLength o with
  | Some cap => bool_decide (1 ≤ cap)
  | None => true
  end.

(** A bus subscription whose [unsubscribe] does not throw. *)
Definition valid_subscription (sub : EventSubscription) : Prop :=
  match sub with
  | NamedSubscription eventName _ => validateEventName eventName = true
  | WildcardSubscription _ => True
  end.

(** A group subscription that unsubscribes without throwing and whose
    reference has been handed out. *)
Definition handle_ok (m : EventManager) (g : GroupSubscription) : Prop :=
  Forall valid_subscription (subscriptions g) ∧ (gs_ref g < next m)%nat.

(** The state of a manager is well formed: the group names are distinct
    and each group is a set, the two maps of groups have the same keys, and
    the arrays hold group subscriptions that are in order. *)
Definition well_formed (m : EventManager) : Prop :=
  NoDup (eventGroups m).*1 ∧
  Forall (λ g, NoDup g.2) (eventGroups m) ∧
  (groupSubscriptions m).*1 = (eventGroups m).*1 ∧
  ∀ ref arr, arrays m !! ref = Some arr → Forall (handle_ok m) arr.

(** The sets of listeners that the keys refer to are distinct, and their
    references lie between [lo] and the next reference to be handed out. *)
Definition listeners_fresh (lo : nat) (m : EventManager) : Prop :=
  (lo ≤ next m)%nat ∧
  (∀ k ref, stateListeners m !! k = Some ref → (lo ≤ ref < next m)%nat) ∧
  (∀ k1 k2 ref, stateListeners m !! k1 = Some ref →
                stateListeners m !! k2 = Some ref → k1 = k2).

(** The bus after [group.forEach(eventName => this.eventBus.on(eventName,
    handler, priority))] went through the names [l]. *)
Definition subscribed (isOnce : bool) (h : EventHandler) (p : EventPriority)
    (l : list string) (b : @EventBus Data Err) : @EventBus Data Err :=
  foldl (λ b eventName, (subscribe (Err:=Err) isOnce b eventName h p).2) b l.

End Manager.

End Manager.

(** * EventUtils: throttled and debounced handlers

    [EventUtils.throttle] and [EventUtils.debounce] (the file that exports
    [EventUtils]) wrap a handler in a closure that keeps a little state and
    a timer.

    Modelling conventions.
    - The closure is a state ([Throttled], [Debounced]) and two functions on
      it: what a call of the wrapped handler does, and what the callback
      given to [setTimeout] does when the timer fires.  Each closure has at
      most one timer pending, the one held in its variable [timeout]; it is
      part of the state, with the time at which it is due (the time of
      [setTimeout] plus the delay asked for).  [clearTimeout] drops it.
    - When a timer fires is up to the environment: a run is a sequence of
      calls and timer firings, each with the reading of the clock at that
      moment.  A timer that is not pending does not fire.
    - The handler is given by the environment [handler]; it returns
      (possibly a promise) or throws, and does not call the wrapped handler
      itself.  [is_null] tells whether an argument is [null].
    - The other members of [EventUtils] build on promises, or on handlers
      that call back into the bus during [emit]; they are outside this
      model. *)

Module Utils.

Section Utils.

Context {T Err Promise World : Type}.

Variable is_null : T → bool.
Variable handler : T → World → @Outcome Err Promise * World.

(** What happens in a run: the wrapped handler is called with [data], or the
    pending timer fires. *)
Inductive Action :=
  | Call (data : T) (now : Z)
  | Timer (now : Z).

(** A call of the underlying handler: when, and with what. *)
Definition Invocation : Type := Z * T.

(** ** [throttle] *)









(** ** [debounce] *)

(** The variables of the closure; the pending timer comes with the [data]
    that its callback captured. *)
Record Debounced := {
  d_timeout : option (Z * T);
  d_lastResult : option Promise
}.


Definition debounce_call (delay : Z) (immediate : bool) (st : Debounced)
    (data : T) (now : Z) (w : World)
  : @Outcome Err Promise * Debounced * World :=
  let callNow := immediate && negb (bool_decide (is_Some (d_timeout st))) in
  let st := {| d_timeout := Some (now + delay, data);
               d_lastResult := d_lastResult st |} in
  if callNow then
    match handler data w with
    | (Returned p, w') =>
        (Returned p, {| d_timeout := d_timeout st; d_lastResult := p |}, w')
    | (Threw e, w') => (Threw e, st, w')
    end
  else (Returned (d_lastResult st), st, w).

(** The callback of the timer that captured [data]. *)
Definition debounce_timer (immediate : bool) (st : Debounced) (data : T)
    (w : World) : option Err * Debounced * World :=
  let st := {| d_timeout := None; d_lastResult := d_lastResult st |} in
  if immediate then (None, st, w)
  else
    match handler data w with
    | (Returned p, w') =>
        (None, {| d_timeout := d_timeout st; d_lastResult := p |}, w')
    | (Threw e, w') => (Some e, st, w')
    end.

Definition debounce_invokes (immediate : bool) (st : Debounced) (a : Action)
  : list Invocation :=
  match a with
  | Call data now =>
      if immediate && negb (bool_decide (is_Some (d_timeout st)))
      then [(now, data)] else []
  | Timer now =>
      match d_timeout st with
      | Some (_, data) => if immediate then [] else [(now, data)]
      | None => []
      end
  end.

Definition debounce_step (delay : Z) (immediate : bool)
    (s : Debounced * World * list Invocation) (a : Action)
  : Debounced * World * list Invocation :=
  let '(st, w, tr) := s in
  match a with
  | Call data now =>
      let r := debounce_call delay immediate st data now w in
      (r.1.2, r.2, tr ++ debounce_invokes immediate st a)
  | Timer now =>
      match d_timeout st with
      | Some (_, data) =>
          let r := debounce_timer immediate st data w in
          (r.1.2, r.2, tr ++ debounce_invokes immediate st a)
      | None => s
      end
  end.


(** No timer fires before it is due. *)
Fixpoint debounce_timely (delay : Z) (immediate : bool) (acts : list Action)
    (s : Debounced * World * list Invocation) : Prop :=
  match acts with
  | [] => True
  | a :: acts' =>
      match a with
      | Timer now =>
          match d_timeout s.1.1 with
          | Some (due, _) => due ≤ now
          | None => True
          end
      | Call _ _ => True
      end ∧
      debounce_timely delay immediate acts' (debounce_step delay immediate s a)
  end.

(** ** Vocabulary for the statements *)



End Utils.

End Utils.

(** ** A concrete environment for the manager

    Errors and promises are numbers and the world is the list of the
    handlers and listeners called so far; handler [13] and listener [13]
    throw their own number.  The values are natural numbers, which [===]
    compares by value, or the numbers [Num], which have a [NaN]. *)

Definition call_with {V} (h : EventHandler)
    (arg : @Payload (Manager.ManagerData V)) (w : list nat)
  : @Outcome nat nat * list nat :=
  (if bool_decide (h = 13%nat) then Threw h else Returned None, w ++ [h]).

Definition notify_with {V} (listener : Manager.StateListener)
    (value oldValue : option V) (w : list nat) : option nat * list nat :=
  (if bool_decide (listener = 13%nat) then Some listener else None,
   w ++ [listener]).

Definition manager_call := call_with (V:=nat).
Definition manager_notify := notify_with (V:=nat).

#[global] Instance nat_StrictEquality : Manager.StrictEquality nat :=
  λ a b, bool_decide (a = b).

Inductive Num := NaN | Finite (z : Z).

#[global] Instance Num_StrictEquality : Manager.StrictEquality Num :=
  λ a b, match a, b with
         | Finite x, Finite y => bool_decide (x = y)
         | _, _ => false
         end.

(** The same environment for a manager whose values are numbers. *)
Definition num_call := call_with (V:=Num).
Definition num_notify := notify_with (V:=Num).

(** [new EventManager()] *)
Definition plain_manager : Manager.EventManagerOptions :=
  {| Manager.o_enableStateManagement := Manager.Absent;
     Manager.o_groupPrefix := Manager.Absent;
     Manager.o_recordHistory := Manager.Absent;
     Manager.o_maxHistoryLength := Manager.Absent;
     Manager.o_eventBusOptions := Manager.Absent |}.

(** [new EventManager({ enableStateManagement: true })] *)
Definition stateful_manager : Manager.EventManagerOptions :=
  {| Manager.o_enableStateManagement := Manager.Given true;
     Manager.o_groupPrefix := Manager.Absent;
     Manager.o_recordHistory := Manager.Absent;
     Manager.o_maxHistoryLength := Manager.Absent;
     Manager.o_eventBusOptions := Manager.Absent |}.

(** [createGroup('users', ['login', 'logout', 'login'])] *)
Definition users_ops : list (@Manager.Op nat nat) :=
  [Manager.OpCreateGroup "users" ["login"; "logout"; "login"] 1 2].

(** A group with a name that the bus rejects. *)
Definition blank_ops : list (@Manager.Op nat nat) :=
  [Manager.OpCreateGroup "g" ["a"; " "; "b"] 1 2].

(** A group with the name ['__proto__']. *)
Definition proto_ops : list (@Manager.Op nat nat) :=
  [Manager.OpCreateGroup "__proto__" ["x"] 1 2].

(** [onStateChange('k', 5)], then [setState('k', NaN)]. *)
Definition nan_ops : list (@Manager.Op Num nat) :=
  [Manager.OpOnStateChange "k" 5; Manager.OpSetState "k" (Some NaN) 1 2].

(** A group with a subscription. *)
Definition subscribed_ops : list (@Manager.Op nat nat) :=
  [Manager.OpCreateGroup "users" ["login"; "logout"] 1 2;
   Manager.OpOnGroup "users" 7 Normal].

(** ** A concrete environment for the wrapped handlers

    The data are numbers and [0] stands for [null]; the world is the list of
    the data the handler was called with; the handler throws at [13]. *)





(** * Facts about the array primitives *)

Section ArrayFacts.

Context {A : Type}.
Implicit Types (l : list A) (key : A → Z).

Lemma findIndex_Some (P : A → bool) l i :
  findIndex P l = Some i →
  ∃ x, l !! i = Some x ∧ P x = true ∧
       ∀ j y, (j < i)%nat → l !! j = Some y → P y = false.
Proof.
  revert i. induction l as [|a l IH]; intros i; simpl; [done|].
  destruct (P a) eqn:Ha.
  - intros [= <-]. exists a. split_and!; [done..|]. intros; lia.
  - destruct (findIndex P l) as [k|]; simpl; [|done].
    intros [= <-]. destruct (IH k eq_refl) as (x & Hx & HP & Hmin).
    exists x. split_and!; [done..|].
    intros [|j] y Hj; simpl; [by intros [= <-]|].
    apply Hmin. lia.
Qed.

Lemma splice1_delete (i : nat) l : splice1 i l = delete i l.
Proof. unfold splice1. by rewrite delete_take_drop. Qed.

Lemma splice1_sublist (i : nat) l : splice1 i l `sublist_of` l.
Proof. rewrite splice1_delete. apply sublist_delete. Qed.

Lemma splice_all_sublist (indices : list nat) l :
  splice_all indices l `sublist_of` l.
Proof.
  unfold splice_all. revert l.
  induction indices as [|i indices IH]; intros l; simpl; [done|].
  etrans; [apply IH|]. apply splice1_sublist.
Qed.

Lemma StronglySorted_sublist (R : relation A) l1 l2 :
  l1 `sublist_of` l2 → StronglySorted R l2 → StronglySorted R l1.
Proof.
  induction 1 as [|x l1 l2 Hsub IH|x l1 l2 Hsub IH]; intros Hs.
  - constructor.
  - apply StronglySorted_inv in Hs as [Hs Hall]. constructor; [auto|].
    rewrite Forall_forall in Hall |- *. intros y Hy. apply Hall.
    by eapply elem_of_sublist.
  - apply StronglySorted_inv in Hs as [Hs _]. auto.
Qed.

Lemma filter_none (P : A → Prop) `{!∀ x, Decision (P x)} l :
  Forall (λ x, ¬ P x) l → filter P l = [].
Proof.
  induction 1 as [|x l Hx _ IH]; [done|]. by rewrite filter_cons_False.
Qed.

Lemma filter_all (P : A → Prop) `{!∀ x, Decision (P x)} l :
  Forall P l → filter P l = l.
Proof.
  induction 1 as [|x l Hx _ IH]; [done|]. by rewrite filter_cons_True, IH.
Qed.

Lemma insert_sorted_head key x l :
  Forall (λ y, key x ≤ key y) l → insert_sorted key x l = x :: l.
Proof.
  destruct 1 as [|y l Hy _]; simpl; [done|].
  destruct (Z.gtb_spec (key x - key y) 0); [lia|done].
Qed.

Lemma insert_sorted_Permutation key x l : insert_sorted key x l ≡ₚ x :: l.
Proof.
  induction l as [|y l IH]; simpl; [done|].
  destruct (key x - key y >? 0); [|done].
  rewrite IH. apply Permutation_swap.
Qed.

Lemma insert_sorted_sorted key x l :
  StronglySorted (key_le key) l →
  StronglySorted (key_le key) (insert_sorted key x l).
Proof.
  induction l as [|y l IH]; intros Hs; simpl.
  - repeat constructor.
  - apply StronglySorted_inv in Hs as [Hs Hall].
    destruct (Z.gtb_spec (key x - key y) 0).
    + constructor; [auto|].
      rewrite insert_sorted_Permutation. constructor; [|done].
      unfold key_le. lia.
    + constructor; [by constructor|].
      constructor; [unfold key_le; lia|].
      eapply Forall_impl; [exact Hall|]. unfold key_le. intros; simpl in *; lia.
Qed.

Lemma stable_sort_by_Permutation key l : stable_sort_by key l ≡ₚ l.
Proof.
  induction l as [|x l IH]; simpl; [done|].
  by rewrite insert_sorted_Permutation, IH.
Qed.

Lemma stable_sort_by_length key l : length (stable_sort_by key l) = length l.
Proof. by rewrite stable_sort_by_Permutation. Qed.

Lemma stable_sort_by_sorted key l :
  StronglySorted (key_le key) (stable_sort_by key l).
Proof.
  induction l as [|x l IH]; simpl; [constructor|].
  by apply insert_sorted_sorted.
Qed.

(** Stability, in the form the bus uses it: a record pushed to the end of a
    sorted array comes to rest behind every record whose key is at most its
    own and in front of the others, which keep their order. *)
Lemma stable_sort_by_push key l x :
  StronglySorted (key_le key) l →
  stable_sort_by key (l ++ [x]) =
    filter (λ y, key y ≤ key x) l ++ [x] ++ filter (λ y, key x < key y) l.
Proof.
  unfold stable_sort_by. rewrite foldr_app. simpl.
  induction l as [|a l IH]; intros Hs; simpl; [done|].
  apply StronglySorted_inv in Hs as [Hs Hall].
  rewrite IH by done. clear IH.
  rewrite !filter_cons.
  destruct (decide (key a ≤ key x)) as [Hle|Hgt].
  - rewrite decide_False by lia. simpl.
    apply insert_sorted_head.
    rewrite Forall_forall in Hall.
    apply Forall_forall. intros y.
    rewrite elem_of_app, elem_of_cons, !list_elem_of_filter.
    intros [[_ Hy]|[->|[_ Hy]]]; [by apply Hall|done|by apply Hall].
  - rewrite decide_True by lia.
    assert (Hall' : Forall (λ y, key a ≤ key y) l) by done.
    assert (filter (λ y, key y ≤ key x) l = []) as ->.
    { apply filter_none. eapply Forall_impl; [exact Hall'|].
      intros; simpl in *; lia. }
    assert (filter (λ y, key x < key y) l = l) as ->.
    { apply filter_all. eapply Forall_impl; [exact Hall'|].
      intros; simpl in *; lia. }
    simpl. destruct (Z.gtb_spec (key a - key x) 0); [|lia].
    f_equal. by apply insert_sorted_head.
Qed.

Lemma insert_sorted_last key x l :
  Forall (λ y, key y < key x) l → insert_sorted key x l = l ++ [x].
Proof.
  induction 1 as [|y l Hy _ IH]; simpl; [done|].
  destruct (Z.gtb_spec (key x - key y) 0); [|lia]. by rewrite IH.
Qed.

Lemma findIndex_unique `{EqDecision B} (f : A → B) (pre : list A) x post :
  NoDup (f <$> (pre ++ x :: post)) →
  findIndex (λ y, bool_decide (f y = f x)) (pre ++ x :: post) =
    Some (length pre).
Proof.
  induction pre as [|a pre IH]; simpl.
  - intros _. by rewrite bool_decide_true.
  - intros [Ha Hnd]%NoDup_cons.
    rewrite bool_decide_false, IH; [done..|].
    intros Heq. apply Ha. rewrite Heq, fmap_app, fmap_cons.
    apply elem_of_app. right. apply list_elem_of_here.
Qed.

End ArrayFacts.

(** Sorting a strictly ascending list of indices in descending order reverses
    it. *)
Lemma sort_descending_ascending (indices : list nat) :
  StronglySorted lt indices → sort_descending indices = reverse indices.
Proof.
  unfold sort_descending, stable_sort_by.
  induction 1 as [|i indices _ IH Hall]; simpl; [done|].
  rewrite IH, reverse_cons. apply insert_sorted_last.
  apply Forall_forall. intros j Hj. rewrite elem_of_reverse in Hj.
  rewrite Forall_forall in Hall. apply Hall in Hj. lia.
Qed.

(** * Facts about the bus *)

Section BusFacts.

Context {Data Err Promise World : Type}.
Variable call : EventHandler → @Payload Data → World → @Outcome Err Promise * World.
Variable report : ErrorCallback → Err → string → World → option Err * World.

Abbreviation Bus := (@EventBus Data Err).
Abbreviation Event := (@TraceEvent Data Err Promise).
Abbreviation Call := (@Target Data * @Payload Data)%type.

Implicit Types (b : Bus) (tr : list Event) (w : World).

Lemma pass_shape_app b n oe cs1 cs2 tr1 tr2 :
  pass_shape b n None cs1 tr1 → pass_shape b n oe cs2 tr2 →
  pass_shape b n oe (cs1 ++ cs2) (tr1 ++ tr2).
Proof.
  intros H1 H2. remember None as o eqn:Ho.
  induction H1; simplify_eq/=; [done|..].
  - constructor; auto.
  - constructor; auto.
Qed.

Lemma pass_shape_app_l b n e cs1 cs2 tr :
  pass_shape b n (Some e) cs1 tr → pass_shape b n (Some e) (cs1 ++ cs2) tr.
Proof.
  intros H1. remember (Some e) as o eqn:Ho.
  induction H1; simplify_eq/=.
  - constructor; auto.
  - constructor; auto.
  - by apply pass_callback_threw.
  - by apply pass_aborted.
  - by apply pass_filter_threw.
Qed.

Lemma pass_shape_calls_prefix b n oe cs tr :
  pass_shape b n oe cs tr → calls tr `prefix_of` cs.
Proof.
  induction 1; simpl.
  - done.
  - by apply prefix_cons.
  - by apply prefix_cons.
  - apply prefix_cons, prefix_nil.
  - apply prefix_cons, prefix_nil.
  - apply prefix_nil.
Qed.

Lemma pass_shape_calls_all b n cs tr :
  pass_shape b n None cs tr → calls tr = cs.
Proof.
  intros H. remember None as o eqn:Ho.
  induction H; simplify_eq/=; f_equal; auto.
Qed.

(** With [catchErrors] on, every error of a handler is reported. *)
Lemma pass_shape_caught b n oe cs tr :
  catchErrors (options b) = true → pass_shape b n oe cs tr →
  reports_follow (errorHandler b) n tr.
Proof.
  intros Hc.
  induction 1 as [|t arg p cs oe tr _ IH|t arg e cs oe tr _ _ IH| | |]; simpl.
  - done.
  - done.
  - done.
  - done.
  - congruence.
  - done.
Qed.

Lemma callback_returned_cons ev tr :
  callback_returned (ev :: tr) → callback_returned tr.
Proof. intros H j cb e n thrown Hj. by apply (H (S j) cb e n thrown). Qed.

(** With [catchErrors] on, a pass goes through all its calls when the error
    callback returns each time and no filter throws. *)
Lemma pass_shape_went_through b n oe cs tr :
  catchErrors (options b) = true → pass_shape b n oe cs tr →
  callback_returned tr →
  (∀ r d e, (Wildcard r, Envelope n d) ∈ cs →
            applyFilter (w_filter r) n d ≠ PredicateThrew e) →
  oe = None.
Proof.
  intros Hc.
  induction 1 as [|t arg p cs oe tr _ IH|t arg e cs oe tr _ _ IH
                  |t arg e e' cs _ _|t arg e cs Hc'|r d e cs Hf];
    intros Hcb Hfs.
  - done.
  - apply IH; [by eapply callback_returned_cons|].
    intros r d e Hr. apply Hfs. by apply list_elem_of_further.
  - apply IH; [by do 2 eapply callback_returned_cons|].
    intros r d e' Hr. apply Hfs. by apply list_elem_of_further.
  - by specialize (Hcb 1%nat _ _ _ _ eq_refl).
  - congruence.
  - exfalso. by apply (Hfs r d e); [apply list_elem_of_here|].
Qed.

(** A pass ends with the error that the error callback threw. *)
Lemma pass_shape_callback_threw b n oe cs tr i cb e eventName e' :
  pass_shape b n oe cs tr →
  tr !! i = Some (Reported cb e eventName (Some e')) →
  oe = Some e' ∧ length tr = S i.
Proof.
  intros Hsh. revert i.
  induction Hsh as [|t arg p cs oe tr _ IH|t arg e0 cs oe tr _ _ IH
                    |t arg e0 e1 cs _ _|t arg e0 cs _|r d e0 cs _]; intros i Hi.
  - done.
  - destruct i as [|i]; [done|]. simpl in Hi.
    destruct (IH i Hi) as [-> Hl]. simpl. by rewrite Hl.
  - destruct i as [|[|i]]; [done..|]. simpl in Hi.
    destruct (IH i Hi) as [-> Hl]. simpl. by rewrite Hl.
  - destruct i as [|[|i]]; [done| |done]. simpl in Hi. by simplify_eq.
  - by destruct i.
  - done.
Qed.

Lemma pass_shape_uncaught b n oe cs tr :
  catchErrors (options b) = false → pass_shape b n oe cs tr →
  match oe with
  | None => Forall is_returned tr
  | Some e =>
      (∃ pre t arg, tr = pre ++ [Invoked t arg (Threw e)] ∧
                    Forall is_returned pre) ∨
      Forall is_returned tr
  end.
Proof.
  intros Hc.
  induction 1 as [|t arg p cs oe tr _ IH| | |t arg e cs _|r d e cs _]; simpl.
  - constructor.
  - destruct oe as [e|].
    + destruct IH as [(pre & t' & arg' & -> & Hpre)|Hall].
      * left. exists (Invoked t arg (Returned p) :: pre), t', arg'.
        split; [done|]. by constructor.
      * right. by constructor.
    + by constructor.
  - congruence.
  - congruence.
  - left. by exists [], t, arg.
  - right. constructor.
Qed.


Lemma replays_app tr1 tr2 w w1 w2 :
  replays call report tr1 w w1 → replays call report tr2 w1 w2 →
  replays call report (tr1 ++ tr2) w w2.
Proof.
  revert w. induction tr1 as [|[t arg res|cb e n thrown] tr1 IH]; intros w;
    simpl.
  - by intros ->.
  - intros [? ?] ?. split; [done|]. by apply IH.
  - intros [? ?] ?. split; [done|]. by apply IH.
Qed.

(** ** The two loops *)

Lemma collected_app b tr1 tr2 :
  collected b (tr1 ++ tr2) = collected b tr1 ++ collected b tr2.
Proof.
  unfold collected, promises.
  destruct (asyncEventHandling (options b)); [|done]. apply bind_app.
Qed.

Lemma invoke_shape b n t arg st oe st' :
  invoke call report b n t arg st = (oe, st') →
  ∃ tr, p_trace st' = p_trace st ++ tr ∧
        ((oe = None ∧ pass_shape b n None [(t, arg)] tr) ∨
         (∃ e, oe = Some e ∧ pass_shape b n (Some e) [(t, arg)] tr)) ∧
        p_handlerPromises st' = p_handlerPromises st ++ collected b tr.
Proof.
  unfold invoke, collected.
  destruct (call (target_handler t) arg (p_world st)) as [[p|e] w'].
  - intros [= <- <-]; simpl. eexists; split_and!; [done| |].
    + left. split; [done|]. repeat constructor.
    + destruct (asyncEventHandling (options b)); [|by rewrite app_nil_r].
      by destruct p.
  - destruct (catchErrors (options b)) eqn:Hc.
    + destruct (callErrorHandler _ _ _ _ _) as [[e'|] w''] eqn:Hrep;
        intros [= <- <-]; simpl.
      * eexists; split_and!; [done| |].
        -- right. exists e'. split; [done|]. apply pass_callback_threw; [done|].
           intros Hd. rewrite Hd in Hrep. done.
        -- destruct (asyncEventHandling (options b)); by rewrite app_nil_r.
      * eexists; split_and!; [done| |].
        -- left. split; [done|]. by repeat constructor.
        -- destruct (asyncEventHandling (options b)); by rewrite app_nil_r.
    + intros [= <- <-]; simpl. eexists; split_and!; [done| |].
      * right. exists e. split; [done|]. by apply pass_aborted.
      * destruct (asyncEventHandling (options b)); by rewrite app_nil_r.
Qed.

Lemma invoke_replays b n t arg st oe st' :
  invoke call report b n t arg st = (oe, st') →
  ∃ tr, p_trace st' = p_trace st ++ tr ∧
        replays call report tr (p_world st) (p_world st').
Proof.
  unfold invoke.
  destruct (call (target_handler t) arg (p_world st)) as [[p|e] w'] eqn:Hc.
  - intros [= <- <-]; simpl. eexists; split; [done|]. simpl.
    by rewrite Hc.
  - destruct (catchErrors (options b)).
    + destruct (callErrorHandler _ _ _ _ _) as [thrown w''] eqn:Hrep.
      intros [= <- <-]; simpl. eexists; split; [done|]. simpl.
      rewrite Hc. simpl. by rewrite Hrep.
    + intros [= <- <-]; simpl. eexists; split; [done|]. simpl.
      by rewrite Hc.
Qed.

Lemma runHandlers_replays b n d live cl st oe st' :
  runHandlers call report b n d live cl st = (oe, st') →
  ∃ tr, p_trace st' = p_trace st ++ tr ∧
        replays call report tr (p_world st) (p_world st').
Proof.
  revert st. induction cl as [|r cl IH]; intros st; simpl.
  - intros [= <- <-]. exists []. by rewrite app_nil_r.
  - destruct (invoke _ _ _ _ _ _ _) as [oe1 st1] eqn:Hinv.
    apply invoke_replays in Hinv as (tr1 & Htr1 & Hw1).
    assert (p_trace (note_onceHandler live r st) = p_trace st ∧
            p_world (note_onceHandler live r st) = p_world st) as [Hn Hn'].
    { unfold note_onceHandler.
      destruct (once r); [|done]. by destruct (findIndex _ _). }
    rewrite Hn in Htr1. rewrite Hn' in Hw1.
    destruct oe1 as [e|].
    + intros [= <- <-]. by exists tr1.
    + intros Hrun. apply IH in Hrun as (tr2 & Htr2 & Hw2).
      exists (tr1 ++ tr2). split; [by rewrite Htr2, Htr1, app_assoc|].
      by eapply replays_app.
Qed.

Lemma runWildcards_replays b n d live cl st oe st' :
  runWildcards call report b n d live cl st = (oe, st') →
  ∃ tr, p_trace st' = p_trace st ++ tr ∧
        replays call report tr (p_world st) (p_world st').
Proof.
  revert st. induction cl as [|r cl IH]; intros st; simpl.
  - intros [= <- <-]. exists []. by rewrite app_nil_r.
  - destruct (applyFilter (w_filter r) n d) as [[|]|e0];
      [|apply IH|intros [= <- <-]; exists []; by rewrite app_nil_r].
    destruct (invoke _ _ _ _ _ _ _) as [oe1 st1] eqn:Hinv.
    apply invoke_replays in Hinv as (tr1 & Htr1 & Hw1).
    assert (p_trace (note_onceWildcard live r st) = p_trace st ∧
            p_world (note_onceWildcard live r st) = p_world st) as [Hn Hn'].
    { unfold note_onceWildcard.
      destruct (w_once r); [|done]. by destruct (findIndex _ _). }
    rewrite Hn in Htr1. rewrite Hn' in Hw1.
    destruct oe1 as [e|].
    + intros [= <- <-]. by exists tr1.
    + intros Hrun. apply IH in Hrun as (tr2 & Htr2 & Hw2).
      exists (tr1 ++ tr2). split; [by rewrite Htr2, Htr1, app_assoc|].
      by eapply replays_app.
Qed.

Lemma runHandlers_shape b n d live cl st oe st' :
  runHandlers call report b n d live cl st = (oe, st') →
  ∃ tr, p_trace st' = p_trace st ++ tr ∧
        pass_shape b n oe ((λ r, (Named r, Plain d)) <$> cl) tr ∧
        p_handlerPromises st' = p_handlerPromises st ++ collected b tr.
Proof.
  revert st. induction cl as [|r cl IH]; intros st; simpl.
  - intros [= <- <-]. exists []. rewrite !app_nil_r.
    split_and!; [done|constructor|].
    unfold collected. destruct (asyncEventHandling _); by rewrite app_nil_r.
  - destruct (invoke _ _ _ _ _ _ _) as [oe1 st1] eqn:Hinv.
    apply invoke_shape in Hinv as (tr1 & Htr1 & Hsh & Hp1).
    assert (p_trace (note_onceHandler live r st) = p_trace st ∧
            p_handlerPromises (note_onceHandler live r st) =
            p_handlerPromises st) as [Hnote Hnote'].
    { unfold note_onceHandler.
      destruct (once r); [|done]. by destruct (findIndex _ _). }
    rewrite Hnote in Htr1. rewrite Hnote' in Hp1.
    destruct Hsh as [[-> Hsh]|(e & -> & Hsh)].
    + intros Hrun. apply IH in Hrun as (tr2 & Htr2 & Hsh2 & Hp2).
      exists (tr1 ++ tr2). split_and!.
      * by rewrite Htr2, Htr1, app_assoc.
      * by apply (pass_shape_app _ _ _ [_]).
      * by rewrite Hp2, Hp1, collected_app, app_assoc.
    + intros [= <- <-]. exists tr1. split_and!; [done| |done].
      by apply (pass_shape_app_l _ _ _ [_]).
Qed.

Lemma runWildcards_shape b n d live cl st oe st' :
  runWildcards call report b n d live cl st = (oe, st') →
  ∃ tr, p_trace st' = p_trace st ++ tr ∧
        pass_shape b n oe
          ((λ r, (Wildcard r, Envelope n d)) <$>
             filter (λ r, passes (w_filter r) n d = true) cl) tr ∧
        p_handlerPromises st' = p_handlerPromises st ++ collected b tr.
Proof.
  revert st. induction cl as [|r cl IH]; intros st; simpl.
  - intros [= <- <-]. exists []. rewrite !app_nil_r.
    split_and!; [done|constructor|].
    unfold collected. destruct (asyncEventHandling _); by rewrite app_nil_r.
  - rewrite filter_cons.
    destruct (applyFilter (w_filter r) n d) as [[|]|e0] eqn:Hp.
    + rewrite decide_True by (unfold passes; by rewrite Hp).
      destruct (invoke _ _ _ _ _ _ _) as [oe1 st1] eqn:Hinv.
      apply invoke_shape in Hinv as (tr1 & Htr1 & Hsh & Hp1).
      assert (p_trace (note_onceWildcard live r st) = p_trace st ∧
              p_handlerPromises (note_onceWildcard live r st) =
              p_handlerPromises st) as [Hnote Hnote'].
      { unfold note_onceWildcard.
        destruct (w_once r); [|done]. by destruct (findIndex _ _). }
      rewrite Hnote in Htr1. rewrite Hnote' in Hp1.
      destruct Hsh as [[-> Hsh]|(e & -> & Hsh)].
      * intros Hrun. apply IH in Hrun as (tr2 & Htr2 & Hsh2 & Hp2).
        exists (tr1 ++ tr2). split_and!.
        -- by rewrite Htr2, Htr1, app_assoc.
        -- rewrite fmap_cons. by apply (pass_shape_app _ _ _ [_]).
        -- by rewrite Hp2, Hp1, collected_app, app_assoc.
      * intros [= <- <-]. exists tr1. split_and!; [done| |done].
        rewrite fmap_cons. by apply (pass_shape_app_l _ _ _ [_]).
    + rewrite decide_False by (unfold passes; by rewrite Hp). apply IH.
    + rewrite decide_True by (unfold passes; by rewrite Hp).
      intros [= <- <-]. exists [].
      rewrite !app_nil_r. split_and!; [done| |].
      * rewrite fmap_cons. by apply pass_filter_threw.
      * unfold collected. destruct (asyncEventHandling _); by rewrite app_nil_r.
Qed.

(** ** One [emit] *)

Lemma pass_shape_ext b b' n oe cs tr :
  options b = options b' → errorHandler b = errorHandler b' →
  pass_shape b n oe cs tr → pass_shape b' n oe cs tr.
Proof.
  intros Ho He. induction 1.
  - constructor.
  - by constructor.
  - rewrite He. constructor; congruence.
  - rewrite He. apply pass_callback_threw; congruence.
  - apply pass_aborted. congruence.
  - by apply pass_filter_threw.
Qed.

Lemma emit_invalid b n d now w :
  validateEventName n = false →
  emit call report b n d now w =
    {| emit_result := Raise InvalidArgument; emit_bus := b;
       emit_world := w; emit_trace := [] |}.
Proof. intros Hv. unfold emit. by rewrite Hv. Qed.

(** The bus keeps its configuration across an [emit]. *)
Lemma emit_frame b n d now w :
  let r := emit call report b n d now w in
  options (emit_bus r) = options b ∧
  errorHandler (emit_bus r) = errorHandler b ∧
  maxHistorySize (emit_bus r) = maxHistorySize b.
Proof.
  unfold emit. destruct (validateEventName n); [|done].
  destruct (_ && _); [done|].
  destruct (runHandlers _ _ _ _ _ _ _ _) as [[e|] st]; [done|].
  by destruct (runWildcards _ _ _ _ _ _ _ _) as [[e|] st'].
Qed.

(** The history after an [emit] with a valid name is the one [recordEvent]
    produced, whatever happened afterwards. *)
Lemma emit_eventHistory b n d now w :
  validateEventName n = true →
  eventHistory (emit_bus (emit call report b n d now w)) =
  eventHistory (recordEvent b n d now).
Proof.
  intros Hv. unfold emit. rewrite Hv.
  destruct (_ && _); [done|].
  destruct (runHandlers _ _ _ _ _ _ _ _) as [[e|] st]; [done|].
  by destruct (runWildcards _ _ _ _ _ _ _ _) as [[e|] st'].
Qed.

#[local] Instance rejects_empty_dec b n : Decision (rejects_empty b n).
Proof. unfold rejects_empty. apply _. Defined.

Lemma emit_check_true b n d now :
  let b1 := recordEvent b n d now in
  negb (allowEmptyEvents (options b1)) &&
    bool_decide (length (bucket b1 n) = 0%nat) &&
    bool_decide (length (wildcardHandlers b1) = 0%nat) = true ↔
  rejects_empty b n.
Proof.
  unfold rejects_empty. simpl.
  rewrite !andb_true_iff, negb_true_iff, !bool_decide_eq_true.
  change (bucket (recordEvent b n d now) n) with (bucket b n).
  rewrite !length_zero_iff_nil. tauto.
Qed.

Lemma emit_rejected b n d now w :
  validateEventName n = true → rejects_empty b n →
  emit call report b n d now w =
    {| emit_result := Raise (NoSubscribers n);
       emit_bus := recordEvent b n d now;
       emit_world := w; emit_trace := [] |}.
Proof.
  intros Hv Hr. unfold emit. rewrite Hv.
  destruct (_ && _) eqn:Hchk; [done|].
  apply (emit_check_true b n d now) in Hr. cbv zeta in Hr. congruence.
Qed.

(** When the call is neither invalid nor rejected, the two loops run; the
    trace has the shape of a pass over [matching].  A pass that threw leaves
    the bus as [recordEvent] left it; a pass that went through returns the
    join of the collected promises, or nothing when there are none. *)
Lemma emit_shape b n d now w :
  validateEventName n = true → ¬ rejects_empty b n →
  let r := emit call report b n d now w in
  ∃ oe, pass_shape b n oe (matching b n d) (emit_trace r) ∧
        match oe with
        | Some e => emit_result r = Raise (HandlerError e) ∧
                    emit_bus r = recordEvent b n d now
        | None =>
            emit_result r =
              Ok (if asyncEventHandling (options b) &&
                     bool_decide (0 < length (promises (emit_trace r)))%nat
                  then Some (promises (emit_trace r)) else None)
        end.
Proof.
  intros Hv Hr. unfold emit. rewrite Hv.
  destruct (_ && _) eqn:Hchk.
  { apply (emit_check_true b n d now) in Hchk. contradiction. }
  clear Hchk.
  set (b1 := recordEvent b n d now).
  assert (∀ oe cs tr, pass_shape b1 n oe cs tr → pass_shape b n oe cs tr)
    as Hext.
  { intros oe cs tr. by apply pass_shape_ext. }
  destruct (runHandlers _ _ _ _ _ _ _ _) as [oe1 st1] eqn:H1.
  apply runHandlers_shape in H1 as (tr1 & Htr1 & Hsh1 & Hp1).
  simpl in Htr1, Hp1.
  destruct oe1 as [e|].
  { exists (Some e). simpl. split; [|done]. rewrite Htr1.
    apply Hext. by apply pass_shape_app_l. }
  destruct (runWildcards _ _ _ _ _ _ _ _) as [oe2 st2] eqn:H2.
  apply runWildcards_shape in H2 as (tr2 & Htr2 & Hsh2 & Hp2).
  rewrite Htr1 in Htr2. rewrite Hp1, <-collected_app in Hp2.
  assert (pass_shape b n oe2 (matching b n d) (p_trace st2)) as Hsh.
  { rewrite Htr2. apply Hext. by apply pass_shape_app. }
  destruct oe2 as [e|]; simpl.
  - exists (Some e). done.
  - exists None. split; [done|].
    rewrite Hp2, Htr2. unfold collected. simpl.
    destruct (asyncEventHandling (options b)); done.
Qed.

(** The trace of an [emit] is a log of what it did to the world. *)
Lemma emit_replays b n d now w :
  let r := emit call report b n d now w in
  replays call report (emit_trace r) w (emit_world r).
Proof.
  unfold emit. destruct (validateEventName n); [|done].
  destruct (_ && _); [done|].
  destruct (runHandlers _ _ _ _ _ _ _ _) as [oe1 st1] eqn:H1.
  apply runHandlers_replays in H1 as (tr1 & Htr1 & Hw1). simpl in Htr1, Hw1.
  destruct oe1 as [e|]; [simpl; by rewrite Htr1|].
  destruct (runWildcards _ _ _ _ _ _ _ _) as [oe2 st2] eqn:H2.
  apply runWildcards_replays in H2 as (tr2 & Htr2 & Hw2).
  assert (replays call report (p_trace st2) w (p_world st2)) as Hall.
  { rewrite Htr2, Htr1. by eapply replays_app. }
  by destruct oe2.
Qed.

(** The named buckets after an [emit]: a bucket of the result is what is left
    of a bucket that was there before, and it is empty only if that one was. *)
Lemma emit_handlers_lookup b n d now w name hs' :
  handlers (emit_bus (emit call report b n d now w)) !! name = Some hs' →
  ∃ hs, handlers b !! name = Some hs ∧ hs' `sublist_of` hs ∧
        (hs' = [] → hs = []).
Proof.
  unfold emit. destruct (validateEventName n); [|by eauto].
  destruct (_ && _); [by eauto|].
  destruct (runHandlers _ _ _ _ _ _ _ _) as [[e|] st]; [by eauto|].
  destruct (runWildcards _ _ _ _ _ _ _ _) as [[e|] st']; [by eauto|].
  simpl. unfold bucket. simpl.
  set (hs1 := splice_all _ _).
  destruct (handlers b !! n) as [hs|] eqn:Hn; simpl in *.
  - destruct (decide (name = n)) as [->|Hne].
    + rewrite lookup_insert_eq. simpl.
      destruct (bool_decide (length hs1 = 0%nat)) eqn:Hlen; simpl.
      * by rewrite lookup_delete_eq.
      * rewrite lookup_insert_eq. intros [= <-].
        exists hs. split_and!; [done|apply splice_all_sublist|].
        intros Hnil. rewrite Hnil in Hlen. done.
    + destruct (_ && _).
      * rewrite lookup_delete_ne, lookup_insert_ne by done. by eauto.
      * rewrite lookup_insert_ne by done. by eauto.
  - rewrite (bool_decide_eq_false_2 (is_Some (handlers b !! n)))
      by (rewrite Hn; by intros [? ?]).
    rewrite andb_false_r. by eauto.
Qed.

Lemma emit_wildcards_sublist b n d now w :
  wildcardHandlers (emit_bus (emit call report b n d now w))
    `sublist_of` wildcardHandlers b.
Proof.
  unfold emit. destruct (validateEventName n); [|done].
  destruct (_ && _); [done|].
  destruct (runHandlers _ _ _ _ _ _ _ _) as [[e|] st]; [done|].
  destruct (runWildcards _ _ _ _ _ _ _ _) as [[e|] st']; [done|].
  simpl. apply splice_all_sublist.
Qed.

(** ** The registries under the public operations *)

Lemma subscribe_handlers isOnce b n h p name :
  validateEventName n = true →
  handlers (subscribe (Err:=Err) isOnce b n h p).2 !! name =
    if decide (n = name)
    then Some (sortHandlersByPriority
                 (bucket b n ++
                  [{| handler := h; priority := p; once := isOnce |}]))
    else handlers b !! name.
Proof.
  intros Hv. unfold subscribe. rewrite Hv. simpl. apply lookup_insert.
Qed.

Lemma subscribe_invalid isOnce b n h p :
  validateEventName n = false →
  subscribe (Err:=Err) isOnce b n h p = (Raise InvalidArgument, b).
Proof. intros Hv. unfold subscribe. by rewrite Hv. Qed.

Lemma sortHandlersByPriority_nil hs :
  sortHandlersByPriority hs = [] → hs = [].
Proof.
  intros H. apply length_zero_iff_nil.
  unfold sortHandlersByPriority in H.
  by rewrite <-(stable_sort_by_length (λ r, priority_value (priority r))), H.
Qed.

Lemma off_handlers_lookup b n h name hs' :
  handlers (off (Err:=Err) b n h).2 !! name = Some hs' →
  ∃ hs, handlers b !! name = Some hs ∧ hs' `sublist_of` hs ∧
        (hs' = [] → hs = []).
Proof.
  unfold off. destruct (validateEventName n); [|by eauto].
  destruct (handlers b !! n) as [hs|] eqn:Hn; [|by eauto].
  destruct (decide (n = name)) as [->|Hne].
  - destruct h as [h|]; simpl.
    + set (hs1 := match findIndex _ hs with
                  | Some index => splice1 index hs | None => hs end).
      assert (hs1 `sublist_of` hs) as Hsub.
      { unfold hs1. destruct (findIndex _ hs); [apply splice1_sublist|done]. }
      destruct (bool_decide (length hs1 = 0%nat)) eqn:Hlen; simpl.
      * by rewrite lookup_delete_eq.
      * rewrite lookup_insert_eq. intros [= <-]. exists hs.
        split_and!; [done..|]. intros Hnil. by rewrite Hnil in Hlen.
    + by rewrite lookup_delete_eq.
  - destruct h as [h|]; simpl.
    + destruct (bool_decide _); simpl.
      * rewrite lookup_delete_ne by done. by eauto.
      * rewrite lookup_insert_ne by done. by eauto.
    + rewrite lookup_delete_ne by done. by eauto.
Qed.

Lemma restoreFromSnapshot_handlers b snapshot name :
  handlers (restoreFromSnapshot b snapshot) !! name =
    s_listenerCounts snapshot !! name ≫=
      λ count, if bool_decide (0 < count)%nat then Some [] else None.
Proof.
  unfold restoreFromSnapshot. simpl.
  apply (map_fold_weak_ind
    (λ (r : gmap string (list SubscriptionRecord)) (m : gmap string nat),
       r !! name =
       m !! name ≫= λ count, if bool_decide (0 < count)%nat
                              then Some [] else None)).
  - by rewrite !lookup_empty.
  - intros i c m r Hi IH.
    destruct (decide (i = name)) as [->|Hne].
    + rewrite lookup_insert_eq. simpl.
      destruct (bool_decide (0 < c)%nat); [by rewrite lookup_insert_eq|].
      by rewrite IH, Hi.
    + rewrite (lookup_insert_ne m) by done.
      destruct (bool_decide (0 < c)%nat); [|done].
      by rewrite lookup_insert_ne.
Qed.

(** What an operation other than [restoreFromSnapshot] can do to a bucket:
    shorten it, never down to an empty one, or store a freshly sorted one. *)
Lemma step_handlers_lookup b w op name hs' :
  is_restore op = false →
  handlers (step call report (b, w) op).1 !! name = Some hs' →
  (∃ hs, handlers b !! name = Some hs ∧ hs' `sublist_of` hs ∧
         (hs' = [] → hs = [])) ∨
  (∃ r, hs' = sortHandlersByPriority (bucket b name ++ [r])).
Proof.
  intros Hop.
  assert (∀ isOnce n h p,
    handlers (subscribe (Err:=Err) isOnce b n h p).2 !! name = Some hs' →
    (∃ hs, handlers b !! name = Some hs ∧ hs' `sublist_of` hs ∧
           (hs' = [] → hs = [])) ∨
    (∃ r, hs' = sortHandlersByPriority (bucket b name ++ [r]))) as Hsub.
  { intros isOnce n h p.
    destruct (validateEventName n) eqn:Hv.
    - rewrite subscribe_handlers by done. case_decide as Hn.
      + subst n. intros [= <-]. right. eauto.
      + intros Hl. left. eauto.
    - rewrite subscribe_invalid by done. intros Hl. left. eauto. }
  assert (∀ n h,
    handlers (off (Err:=Err) b n h).2 !! name = Some hs' →
    (∃ hs, handlers b !! name = Some hs ∧ hs' `sublist_of` hs ∧
           (hs' = [] → hs = [])) ∨
    (∃ r, hs' = sortHandlersByPriority (bucket b name ++ [r]))) as Hoff.
  { intros n h Hl. left. by eapply off_handlers_lookup. }
  destruct op as [n h p|n h p|h o|n h|sub|n d now| | |snap]; simpl; try done.
  - apply Hsub.
  - apply Hsub.
  - intros Hl. left. eauto.
  - apply Hoff.
  - destruct sub as [n h|h]; simpl; [apply Hoff|].
    destruct (findIndex _ _); simpl; intros Hl; left; eauto.
  - intros Hl. left. by eapply emit_handlers_lookup.
  - intros Hl. left. eauto.
Qed.

(** The subscription operations, taken apart into their cases. *)
Ltac op_cases :=
  repeat first
    [ progress (unfold on, once_, subscribe, onAny, off, unsubscribe; simpl)
    | case_match ];
  simpl; try done.

Lemma step_wildcards b w op :
  wildcardHandlers (step call report (b, w) op).1
    `sublist_of` wildcardHandlers b ∨
  ∃ r, wildcardHandlers (step call report (b, w) op).1 =
       sortWildcardsByPriority (wildcardHandlers b ++ [r]).
Proof.
  destruct op as [n h p|n h p|h o|n h|sub|n d now| | |snap]; simpl;
    try (right; by eauto); left;
    try apply emit_wildcards_sublist; try apply sublist_nil_l;
    op_cases.
  apply splice1_sublist.
Qed.

(** The configuration members that only the constructor assigns. *)
Lemma step_fixed b w op :
  errorHandler (step call report (b, w) op).1 = errorHandler b ∧
  maxHistorySize (step call report (b, w) op).1 = maxHistorySize b.
Proof.
  destruct op as [n h p|n h p|h o|n h|sub|n d now| | |snap]; simpl;
    try (pose proof (emit_frame b n d now w) as Hf; simpl in Hf; tauto);
    op_cases.
Qed.

Lemma run_snoc ops op (s : Bus * World) :
  run call report (ops ++ [op]) s = step call report (run call report ops s) op.
Proof. unfold run. by rewrite foldl_app. Qed.

Lemma run_fixed ops b w :
  errorHandler (run call report ops (b, w)).1 = errorHandler b ∧
  maxHistorySize (run call report ops (b, w)).1 = maxHistorySize b.
Proof.
  induction ops as [|op ops IH] using rev_ind; [done|].
  rewrite run_snoc. destruct (run call report ops (b, w)) as [b' w'].
  pose proof (step_fixed b' w' op). simpl in *. intuition congruence.
Qed.

Lemma step_sorted b w op :
  bus_sorted b → bus_sorted (step call report (b, w) op).1.
Proof.
  intros [Hb Hw]. split.
  - intros name hs' Hl.
    destruct (is_restore op) eqn:Hop.
    + destruct op; try done. cbn -[restoreFromSnapshot] in Hl.
      rewrite restoreFromSnapshot_handlers in Hl.
      destruct (s_listenerCounts snapshot !! name) as [c|]; [|done].
      simpl in Hl. destruct (bool_decide _); [|done].
      injection Hl as <-. constructor.
    + apply step_handlers_lookup in Hl as [(hs & Hhs & Hsub & _)|[r ->]];
        [| |done].
      * eapply StronglySorted_sublist; [done|]. by eapply Hb.
      * apply stable_sort_by_sorted.
  - destruct (step_wildcards b w op) as [Hsub|[r ->]].
    + by eapply StronglySorted_sublist.
    + apply stable_sort_by_sorted.
Qed.

Lemma new_sorted o : bus_sorted (EventBus_new (Data:=Data) (Err:=Err) o).
Proof.
  split; [|constructor]. intros name hs. simpl. by rewrite lookup_empty.
Qed.

Lemma run_sorted ops b w :
  bus_sorted b → bus_sorted (run call report ops (b, w)).1.
Proof.
  intros Hb. induction ops as [|op ops IH] using rev_ind; [done|].
  rewrite run_snoc. destruct (run call report ops (b, w)) as [b' w'].
  by apply step_sorted.
Qed.

Lemma bucket_sorted_of_bus b name : bus_sorted b → bucket_sorted (bucket b name).
Proof.
  intros [Hb _]. unfold bucket.
  destruct (handlers b !! name) as [hs|] eqn:Hl; simpl; [by eapply Hb|].
  constructor.
Qed.

Lemma step_nonempty b w op :
  is_restore op = false →
  buckets_nonempty b → buckets_nonempty (step call report (b, w) op).1.
Proof.
  intros Hop Hb name hs' Hl.
  apply step_handlers_lookup in Hl as [(hs & Hhs & _ & Hnil)|[r ->]];
    [| |done].
  - intros ->. by eapply Hb; [|apply Hnil].
  - intros Hnil%sortHandlersByPriority_nil. by destruct (bucket b name).
Qed.

Lemma run_nonempty ops b w :
  forallb (λ op, negb (is_restore op)) ops = true →
  buckets_nonempty b → buckets_nonempty (run call report ops (b, w)).1.
Proof.
  intros Hops Hb. induction ops as [|op ops IH] using rev_ind; [done|].
  rewrite forallb_app in Hops. apply andb_true_iff in Hops as [Hops Hop].
  simpl in Hop. rewrite andb_true_r, negb_true_iff in Hop.
  rewrite run_snoc. destruct (run call report ops (b, w)) as [b' w'].
  apply step_nonempty; [done|]. by apply IH.
Qed.

(** ** Further facts used by the claims *)

Lemma pass_shape_nil_inv b n oe tr :
  pass_shape b n oe [] tr → oe = None ∧ tr = [].
Proof. by inversion 1. Qed.

(** An [emit] that is not rejected and has nothing to call returns
    [undefined] and calls nothing. *)
Lemma emit_no_match b n d now w :
  validateEventName n = true → ¬ rejects_empty b n →
  matching b n d = [] →
  let r := emit call report b n d now w in
  emit_result r = Ok None ∧ emit_trace r = [].
Proof.
  intros Hv Hr Hm.
  destruct (emit_shape b n d now w Hv Hr) as (oe & Hsh & Hres).
  rewrite Hm in Hsh. apply pass_shape_nil_inv in Hsh as [-> Htr].
  simpl. rewrite Htr in Hres. simpl in Hres.
  by rewrite andb_false_r in Hres.
Qed.

Lemma matching_nil b n d :
  matching b n d = [] ↔
  bucket b n = [] ∧
  Forall (λ r, passes (w_filter r) n d = false) (wildcardHandlers b).
Proof.
  unfold matching. split.
  - intros [Hb Hw]%app_nil.
    apply fmap_nil_inv in Hb. apply fmap_nil_inv in Hw. split; [done|].
    apply Forall_forall. intros r Hr.
    destruct (passes (w_filter r) n d) eqn:Hp; [|done].
    assert (r ∈ filter (λ r, passes (w_filter r) n d = true)
                  (wildcardHandlers b)) as Hin
      by by apply list_elem_of_filter.
    rewrite Hw in Hin. by apply elem_of_nil in Hin.
  - intros [-> Hw]. rewrite filter_none; [done|].
    eapply Forall_impl; [exact Hw|].
    intros r Hr; simpl in *. congruence.
Qed.

Lemma matching_wildcard b n d r d0 :
  (Wildcard r, Envelope n d0) ∈ matching b n d →
  r ∈ wildcardHandlers b ∧ d0 = d.
Proof.
  unfold matching. rewrite elem_of_app, !list_elem_of_fmap.
  intros [(x & Hx & _)|(x & Hx & Hin)]; [done|].
  simplify_eq. apply list_elem_of_filter in Hin as [_ Hin]. done.
Qed.

Lemma prefix_take_length {A} (l1 l2 : list A) :
  l1 `prefix_of` l2 → l1 = take (length l1) l2.
Proof. intros [k ->]. by rewrite take_app_length. Qed.

Lemma calls_app tr1 tr2 : calls (tr1 ++ tr2) = calls tr1 ++ calls tr2.
Proof. apply omap_app. Qed.

Lemma calls_returned_length tr :
  Forall is_returned tr → length (calls tr) = length tr.
Proof.
  induction 1 as [|ev tr Hev _ IH]; [done|].
  destruct ev as [t arg [p|e]|]; simpl in *; try done. by rewrite IH.
Qed.

Lemma reports_follow_lookup cb n tr i t arg e :
  reports_follow cb n tr →
  tr !! i = Some (Invoked t arg (Threw e)) →
  ∃ thrown, tr !! S i = Some (Reported cb e n thrown).
Proof.
  remember (length tr) as k eqn:Hk.
  revert tr i Hk. induction (lt_wf k) as [k _ IH]. intros tr i -> Hrf Hi.
  destruct tr as [|[t1 arg1 [p|e1]|] tr]; simpl in *; try done.
  - destruct i as [|i]; [done|]. simpl in *.
    eapply (IH (length tr)); [lia|done..].
  - destruct tr as [|[|cb' e' n' thrown'] tr]; try done.
    destruct Hrf as (-> & -> & -> & Hrf).
    destruct i as [|[|i]]; simpl in *; [simplify_eq; by eauto|done|].
    eapply (IH (length tr)); [lia|done..].
Qed.

Lemma elem_of_eventNames b name :
  name ∈ eventNames b ↔ is_Some (handlers b !! name).
Proof.
  unfold eventNames. rewrite list_elem_of_fmap. split.
  - intros ([k hs] & -> & Hin). apply elem_of_map_to_list in Hin. eauto.
  - intros [hs Hl]. exists (name, hs). by rewrite elem_of_map_to_list.
Qed.

Lemma recordEvent_last b n d now :
  1 ≤ maxHistorySize b →
  last (eventHistory (recordEvent b n d now)) =
    Some {| event := n; data := d; timestamp := now |}.
Proof.
  intros Hcap. unfold recordEvent. simpl.
  case_bool_decide as Hlen; [|apply last_snoc].
  destruct (eventHistory b) as [|x h]; simpl in *.
  - lia.
  - apply last_snoc.
Qed.

(** ** Once-pruning *)

Lemma once_indices_ascending k l :
  StronglySorted lt (once_indices k l) ∧
  Forall (λ i, k ≤ i)%nat (once_indices k l).
Proof.
  revert k. induction l as [|r l IH]; intros k; simpl.
  - split; constructor.
  - destruct (IH (S k)) as [Hs Hall].
    assert (Forall (λ i, k < i)%nat (once_indices (S k) l)) as Hlt.
    { eapply Forall_impl; [exact Hall|]. intros; simpl in *; lia. }
    destruct (once r); simpl.
    + split; constructor; try done.
      eapply Forall_impl; [exact Hall|]. intros; simpl in *; lia.
    + split; [done|].
      eapply Forall_impl; [exact Hall|]. intros; simpl in *; lia.
Qed.

(** Splicing out the positions of the once records, last position first,
    leaves the records that are not once records. *)
Lemma splice_once_indices (pre l : list SubscriptionRecord) :
  splice_all (reverse (once_indices (length pre) l)) (pre ++ l) =
    pre ++ filter (λ r, once r = false) l.
Proof.
  revert pre. induction l as [|r l IH]; intros pre; simpl; [done|].
  rewrite reverse_app. unfold splice_all. rewrite foldl_app.
  fold (splice_all (reverse (once_indices (S (length pre)) l))
          (pre ++ r :: l)).
  specialize (IH (pre ++ [r])).
  rewrite length_app in IH. simpl in IH.
  replace (length pre + 1)%nat with (S (length pre)) in IH by lia.
  rewrite <-!app_assoc in IH. simpl in IH. rewrite IH.
  rewrite filter_cons. destruct (once r) eqn:Hr; simpl.
  - unfold splice1. rewrite take_app_length. f_equal.
    rewrite drop_app_ge by lia.
    by replace (S (length pre) - length pre)%nat with 1%nat by lia.
  - done.
Qed.

Lemma invoke_indices b n t arg st oe st' :
  invoke call report b n t arg st = (oe, st') →
  p_onceHandlerIndices st' = p_onceHandlerIndices st ∧
  p_onceWildcardIndices st' = p_onceWildcardIndices st.
Proof.
  unfold invoke.
  destruct (call (target_handler t) arg (p_world st)) as [[p|e] w'].
  - by intros [= <- <-].
  - destruct (catchErrors (options b));
      [destruct (callErrorHandler _ _ _ _ _) as [thrown w'']|];
      by intros [= <- <-].
Qed.

Lemma runHandlers_indices b n d pre cl st st' :
  NoDup (handler <$> (pre ++ cl)) →
  runHandlers call report b n d (pre ++ cl) cl st = (None, st') →
  p_onceHandlerIndices st' =
    p_onceHandlerIndices st ++ once_indices (length pre) cl.
Proof.
  revert pre st. induction cl as [|r cl IH]; intros pre st Hnd; simpl.
  - intros [= <-]. by rewrite app_nil_r.
  - destruct (invoke _ _ _ _ _ _ _) as [[e|] st1] eqn:Hinv; [done|].
    apply invoke_indices in Hinv as [Hi _].
    intros Hrun.
    replace (pre ++ r :: cl) with ((pre ++ [r]) ++ cl) in Hrun, Hnd
      by by rewrite <-app_assoc.
    apply IH in Hrun; [|done]. rewrite Hrun, Hi.
    rewrite length_app. simpl.
    replace (length pre + 1)%nat with (S (length pre)) by lia.
    assert (p_onceHandlerIndices (note_onceHandler (pre ++ r :: cl) r st) =
            p_onceHandlerIndices st ++ (if once r then [length pre] else []))
      as ->.
    { unfold note_onceHandler. destruct (once r); [|by rewrite app_nil_r].
      rewrite <-app_assoc in Hnd. simpl in Hnd.
      by rewrite (findIndex_unique handler pre r cl Hnd). }
    by rewrite <-app_assoc.
Qed.

Lemma runWildcards_handlerIndices b n d live cl st oe st' :
  runWildcards call report b n d live cl st = (oe, st') →
  p_onceHandlerIndices st' = p_onceHandlerIndices st.
Proof.
  revert st. induction cl as [|r cl IH]; intros st; simpl.
  - by intros [= <- <-].
  - destruct (applyFilter (w_filter r) n d) as [[|]|e0];
      [|apply IH|by intros [= <- <-]].
    destruct (invoke _ _ _ _ _ _ _) as [[e|] st1] eqn:Hinv;
      apply invoke_indices in Hinv as [Hi _].
    + intros [= <- <-]. rewrite Hi. unfold note_onceWildcard.
      destruct (w_once r); [|done]. by destruct (findIndex _ _).
    + intros Hrun%IH. rewrite Hrun, Hi. unfold note_onceWildcard.
      destruct (w_once r); [|done]. by destruct (findIndex _ _).
Qed.

(** Once-pruning, where it works.  The handlers are those of this model:
    none of them subscribes or unsubscribes on the bus while the pass runs.
    When no two records of the named bucket hold the same handler and the
    pass goes through, the bucket after the [emit] consists of the records
    that are not once records, in their order: every once record is gone and
    nothing else is. *)
Theorem emit_prunes_once b n d now w :
  NoDup (handler <$> bucket b n) →
  let r := emit call report b n d now w in
  (∃ v, emit_result r = Ok v) →
  bucket (emit_bus r) n = filter (λ x, once x = false) (bucket b n).
Proof.
  intros Hnd r [v Hres]. subst r. revert Hres. unfold emit.
  destruct (validateEventName n); [|done].
  destruct (_ && _); [done|].
  change (bucket (recordEvent b n d now) n) with (bucket b n).
  destruct (runHandlers _ _ _ _ _ _ _ _) as [[e|] st] eqn:H1; [done|].
  destruct (runWildcards _ _ _ _ _ _ _ _) as [[e|] st'] eqn:H2; [done|].
  intros _. simpl.
  apply (runHandlers_indices _ _ _ []) in H1; [|done]. simpl in H1.
  apply runWildcards_handlerIndices in H2. rewrite H2, H1.
  rewrite (sort_descending_ascending (once_indices 0 (bucket b n)))
    by apply once_indices_ascending.
  pose proof (splice_once_indices [] (bucket b n)) as Hsp. simpl in Hsp.
  rewrite Hsp. clear Hsp.
  set (hs' := filter _ _).
  unfold bucket at 1. simpl. unfold bucket in hs'.
  destruct (handlers b !! n) as [hs|] eqn:Hn; simpl in *.
  - rewrite lookup_insert_eq. simpl.
    destruct (bool_decide (length hs' = 0%nat)) eqn:Hlen; simpl.
    + rewrite lookup_delete_eq. simpl.
      apply bool_decide_eq_true in Hlen. symmetry.
      by apply length_zero_iff_nil.
    + by rewrite lookup_insert_eq.
  - rewrite (bool_decide_eq_false_2 (is_Some (handlers b !! n)))
      by (rewrite Hn; by intros [? ?]).
    by rewrite Hn.
Qed.

(** ** Unsubscribing *)

(** Targeted unsubscribe.  [off(name, h)] with a valid name removes from the
    bucket of [name] the first record that holds [h], and nothing else: the
    records of other handlers stay, in their order, the other buckets and
    the wildcard list are untouched. *)
Theorem off_handler_removes_first b n h :
  validateEventName n = true →
  let b' := (off (Err:=Err) b n (Some h)).2 in
  bucket b' n =
    match findIndex (λ r, bool_decide (handler r = h)) (bucket b n) with
    | Some index => splice1 index (bucket b n)
    | None => bucket b n
    end ∧
  filter (λ r, handler r ≠ h) (bucket b' n) =
    filter (λ r, handler r ≠ h) (bucket b n) ∧
  (∀ name, name ≠ n → bucket b' name = bucket b name) ∧
  wildcardHandlers b' = wildcardHandlers b.
Proof.
  intros Hv b'.
  assert (bucket b' n =
    match findIndex (λ r, bool_decide (handler r = h)) (bucket b n) with
    | Some index => splice1 index (bucket b n)
    | None => bucket b n
    end) as Hb.
  { subst b'. unfold off, bucket. rewrite Hv.
    destruct (handlers b !! n) as [hs|] eqn:Hn; simpl; [|by rewrite Hn].
    set (hs1 := match findIndex _ hs with
                | Some index => splice1 index hs | None => hs end).
    destruct (bool_decide (length hs1 = 0%nat)) eqn:Hlen; simpl.
    - rewrite lookup_delete_eq. simpl.
      apply bool_decide_eq_true in Hlen. symmetry.
      by apply length_zero_iff_nil.
    - by rewrite lookup_insert_eq. }
  split_and!.
  - done.
  - rewrite Hb.
    destruct (findIndex _ _) as [i|] eqn:Hfind; [|done].
    apply findIndex_Some in Hfind as (x & Hx & Hh & _).
    apply bool_decide_eq_true in Hh.
    rewrite <-(take_drop_middle (bucket b n) i x Hx) at 2.
    unfold splice1. rewrite !filter_app, filter_cons_False; [done|].
    intros Hne. by apply Hne.
  - intros name Hne. subst b'. unfold off, bucket. rewrite Hv.
    destruct (handlers b !! n) as [hs|] eqn:Hn; simpl; [|done].
    destruct (bool_decide _); simpl.
    + by rewrite lookup_delete_ne.
    + by rewrite lookup_insert_ne.
  - subst b'. unfold off. rewrite Hv.
    destruct (handlers b !! n) as [hs|]; simpl; [|done].
    by destruct (bool_decide _).
Qed.

(** Blanket unsubscribe.  [off(name)] with a valid name drops the bucket of
    [name]; the other buckets and the wildcard list are untouched, so a
    following [emit] of [name] has only the passing wildcard records to
    call. *)
Theorem off_all_drops_bucket b n d :
  validateEventName n = true →
  let b' := (off (Err:=Err) b n None).2 in
  handlers b' !! n = None ∧
  (∀ name, name ≠ n → handlers b' !! name = handlers b !! name) ∧
  wildcardHandlers b' = wildcardHandlers b ∧
  matching b' n d =
    (λ r, (Wildcard r, Envelope n d)) <$>
      filter (λ r, passes (w_filter r) n d = true) (wildcardHandlers b).
Proof.
  intros Hv b'.
  assert (handlers b' = delete n (handlers b) ∧
          wildcardHandlers b' = wildcardHandlers b) as [Hh Hw].
  { subst b'. unfold off. rewrite Hv.
    destruct (handlers b !! n) as [hs|] eqn:Hn; simpl; [done|].
    split; [|done]. symmetry. by apply delete_id. }
  split_and!.
  - by rewrite Hh, lookup_delete_eq.
  - intros name Hne. by rewrite Hh, lookup_delete_ne.
  - done.
  - unfold matching, bucket. by rewrite Hh, lookup_delete_eq, Hw.
Qed.

(** ** The history *)

Lemma keep_last_snoc {A} (m : nat) (l : list A) (x : A) :
  keep_last m (keep_last m l ++ [x]) = keep_last m (l ++ [x]).
Proof.
  unfold keep_last. rewrite !length_app, length_drop. simpl.
  destruct (decide (length l ≤ m)%nat) as [Hle|Hgt].
  - replace (length l - m)%nat with 0%nat by lia. simpl.
    by replace (length l - 0 + 1 - m)%nat with (length l + 1 - m)%nat by lia.
  - replace (length l - (length l - m) + 1 - m)%nat with 1%nat by lia.
    replace (length l + 1 - m)%nat with ((length l - m) + 1)%nat by lia.
    rewrite <-drop_drop. f_equal. rewrite drop_app_le by lia. done.
Qed.

Lemma recordEvent_keep_last b n d now :
  history_bounded b →
  eventHistory (recordEvent b n d now) =
    keep_last (Z.to_nat (maxHistorySize b))
      (eventHistory b ++ [entry_of n d now]) ∧
  history_bounded (recordEvent b n d now).
Proof.
  unfold history_bounded, recordEvent, keep_last, entry_of. simpl.
  intros Hb. rewrite !length_app. simpl.
  set (h := eventHistory b ++ _).
  case_bool_decide as Hlen.
  - replace (length (eventHistory b) + 1 - Z.to_nat (maxHistorySize b))%nat
      with 1%nat by lia.
    split; [by destruct h|].
    assert (length (tail h) = length (eventHistory b)) as ->; [|done].
    unfold h. destruct (eventHistory b); simpl; [done|].
    rewrite length_app. simpl. lia.
  - replace (length (eventHistory b) + 1 - Z.to_nat (maxHistorySize b))%nat
      with 0%nat by lia.
    split; [done|]. unfold h. rewrite length_app. simpl. lia.
Qed.

(** What an operation other than [restoreFromSnapshot] does to the history:
    nothing, or it empties it, or it records one entry. *)
Lemma step_eventHistory b w op :
  is_restore op = false →
  let b' := (step call report (b, w) op).1 in
  eventHistory b' = eventHistory b ∨ eventHistory b' = [] ∨
  ∃ n d now, op = OpEmit n d now ∧ validateEventName n = true ∧
             eventHistory b' = eventHistory (recordEvent b n d now).
Proof.
  destruct op as [n h p|n h p|h o|n h|sub|n d now| | |snap]; simpl;
    try done; intros _; try (left; by op_cases).
  - destruct (validateEventName n) eqn:Hv.
    + right; right. exists n, d, now. by rewrite emit_eventHistory.
    + left. by rewrite emit_invalid.
  - by right; left.
Qed.

Lemma step_history_bounded b w op :
  is_restore op = false →
  history_bounded b → history_bounded (step call report (b, w) op).1.
Proof.
  intros Hop Hb.
  pose proof (step_fixed b w op) as [_ Hmax].
  destruct (step_eventHistory b w op Hop) as [He|[He|(n & d & now & _ & _ & He)]];
    unfold history_bounded in *; rewrite Hmax, He.
  - done.
  - simpl. lia.
  - by apply recordEvent_keep_last.
Qed.

Lemma run_history_bounded ops b w :
  forallb (λ op, negb (is_restore op)) ops = true →
  history_bounded b → history_bounded (run call report ops (b, w)).1.
Proof.
  intros Hops Hb. induction ops as [|op ops IH] using rev_ind; [done|].
  rewrite forallb_app in Hops. apply andb_true_iff in Hops as [Hops Hop].
  simpl in Hop. rewrite andb_true_r, negb_true_iff in Hop.
  rewrite run_snoc. destruct (run call report ops (b, w)) as [b' w'].
  apply step_history_bounded; [done|]. by apply IH.
Qed.

Lemma step_options b w op :
  is_restore op = false → options (step call report (b, w) op).1 = options b.
Proof.
  destruct op as [n h p|n h p|h o|n h|sub|n d now| | |snap]; simpl;
    try done; intros _;
    try (pose proof (emit_frame b n d now w) as Hf; simpl in Hf; tauto);
    op_cases.
Qed.

Lemma run_options ops b w :
  forallb (λ op, negb (is_restore op)) ops = true →
  options (run call report ops (b, w)).1 = options b.
Proof.
  intros Hops. induction ops as [|op ops IH] using rev_ind; [done|].
  rewrite forallb_app in Hops. apply andb_true_iff in Hops as [Hops Hop].
  simpl in Hop. rewrite andb_true_r, negb_true_iff in Hop.
  rewrite run_snoc. destruct (run call report ops (b, w)) as [b' w'].
  rewrite step_options by done. by apply IH.
Qed.

(** The history bound, where it holds.  On a bus constructed with a history
    size that is not negative, as long as [restoreFromSnapshot] is not used,
    the history never has more entries than [maxHistorySize]; and a series of
    emits with valid names leaves exactly the newest [maxHistorySize] entries
    of the old history followed by the new entries, oldest first. *)
Theorem history_bound_without_restore o ops w0 es :
  (∀ m, o_maxHistorySize o = Some m → 0 ≤ m) →
  forallb (λ op, negb (is_restore op)) ops = true →
  forallb (λ e, validateEventName e.1.1) es = true →
  let s := run call report ops (EventBus_new o, w0) in
  let s' := run call report ((λ e, OpEmit e.1.1 e.1.2 e.2) <$> es) s in
  history_bounded s.1 ∧
  maxHistorySize s.1 = opt_maxHistorySize (options s.1) ∧
  eventHistory s'.1 =
    keep_last (Z.to_nat (maxHistorySize s.1))
      (eventHistory s.1 ++ ((λ e, entry_of e.1.1 e.1.2 e.2) <$> es)).
Proof.
  intros Ho Hops Hes s s'.
  assert (history_bounded s.1) as Hb.
  { apply run_history_bounded; [done|]. unfold history_bounded. simpl.
    destruct (o_maxHistorySize o) as [m|] eqn:Hm; [|lia].
    specialize (Ho m eq_refl). case_bool_decide; lia. }
  split_and!; [done| |].
  - subst s. rewrite (proj2 (run_fixed ops _ w0)).
    by rewrite run_options.
  - subst s'. destruct s as [b w]. simpl in *. clear Hops.
    induction es as [|[[n d] now] es IH] using rev_ind.
    + simpl. rewrite app_nil_r. unfold keep_last.
      replace (_ - _)%nat with 0%nat; [done|].
      unfold history_bounded in Hb. lia.
    + rewrite forallb_app in Hes. apply andb_true_iff in Hes as [Hes Hv].
      simpl in Hv. rewrite andb_true_r in Hv.
      rewrite !fmap_app. cbn [fmap list_fmap]. rewrite run_snoc. simpl.
      specialize (IH Hes).
      destruct (run call report _ (b, w)) as [b' w'] eqn:Hrun. simpl in *.
      rewrite emit_eventHistory by done.
      assert (history_bounded b' ∧ maxHistorySize b' = maxHistorySize b)
        as [Hb' Hmax].
      { pose proof (run_fixed ((λ e, OpEmit e.1.1 e.1.2 e.2) <$> es) b w)
          as [_ Hm].
        pose proof (run_history_bounded
                      ((λ e, OpEmit e.1.1 e.1.2 e.2) <$> es) b w) as Hh.
        rewrite Hrun in Hm, Hh. simpl in *. split; [|done].
        apply Hh; [|done]. clear. by induction es. }
      rewrite (proj1 (recordEvent_keep_last b' n d now Hb')).
      rewrite Hmax, IH, keep_last_snoc. by rewrite app_assoc.
Qed.

(** * The claims *)

(** C1, as amended.  An [emit] with a valid name raises [NoSubscribers]
    exactly when [allowEmptyEvents] is off, the named bucket is empty and the
    wildcard list is empty: the check does not consult the filters.  An
    [emit] that has nothing to call -- no named record, and every wildcard
    record rejected by its filter -- returns normally without calling any
    handler when [allowEmptyEvents] is on, and also when it is off as long as
    some wildcard record is registered. *)
Theorem emit_NoSubscribers_iff b n d now w :
  validateEventName n = true →
  let r := emit call report b n d now w in
  (emit_result r = Raise (NoSubscribers n) ↔
     allowEmptyEvents (options b) = false ∧
     bucket b n = [] ∧ wildcardHandlers b = []) ∧
  (emit_result r = Raise (NoSubscribers n) → emit_trace r = []) ∧
  (allowEmptyEvents (options b) = true → matching b n d = [] →
     emit_result r = Ok None ∧ emit_trace r = []) ∧
  (wildcardHandlers b ≠ [] → matching b n d = [] →
     emit_result r = Ok None ∧ emit_trace r = []).
Proof.
  intros Hv r.
  assert (emit_result r = Raise (NoSubscribers n) ↔ rejects_empty b n) as Hiff.
  { subst r. split.
    - intros Hres. destruct (decide (rejects_empty b n)) as [|Hr]; [done|].
      destruct (emit_shape b n d now w Hv Hr) as ([e|] & _ & Hres').
      + destruct Hres' as [Hres' _]. congruence.
      + congruence.
    - intros Hr. by rewrite emit_rejected. }
  split_and!.
  - exact Hiff.
  - intros Hr%Hiff. subst r. by rewrite emit_rejected.
  - intros Ha Hm. apply emit_no_match; [done| |done].
    intros (Ha' & _). congruence.
  - intros Hw Hm. apply emit_no_match; [done| |done].
    intros (_ & _ & Hw'). congruence.
Qed.


(** C4, as amended.  Consider a state that operations other than
    [restoreFromSnapshot] reach from a new bus, and an [emit] in which some
    call threw [e].  The trace is a log of the calls that were made, and the
    calls of handlers are an initial part of the pass.  With [catchErrors]
    on, the next thing that happens is the call of [onError] with [e] and
    the event name.  If that call throws, [emit] raises what it threw and
    nothing more is called.  If every call of [onError] returns and no
    filter throws, every record the pass has to call is called, and [emit]
    returns.  With [catchErrors] off, [emit] raises [e], the call that threw
    is the last call of the pass, every call before it returned, and the
    calls made are the initial part of the pass up to that call. *)
Theorem emit_error_policy o ops w0 n d now i t arg e :
  forallb (λ op, negb (is_restore op)) ops = true →
  let s := run call report ops (EventBus_new o, w0) in
  let b := s.1 in
  let r := emit call report b n d now s.2 in
  let cb := onError (options b) in
  emit_trace r !! i = Some (Invoked t arg (Threw e)) →
  replays call report (emit_trace r) s.2 (emit_world r) ∧
  calls (emit_trace r) `prefix_of` matching b n d ∧
  (catchErrors (options b) = true →
     reports_follow cb n (emit_trace r) ∧
     (∃ thrown,
        emit_trace r !! S i = Some (Reported cb e n thrown) ∧
        ∀ e', thrown = Some e' →
              emit_result r = Raise (HandlerError e') ∧
              length (emit_trace r) = S (S i)) ∧
     (callback_returned (emit_trace r) → filters_return b n d →
      calls (emit_trace r) = matching b n d ∧
      ∃ v, emit_result r = Ok v)) ∧
  (catchErrors (options b) = false →
     emit_result r = Raise (HandlerError e) ∧
     length (emit_trace r) = S i ∧
     Forall is_returned (take i (emit_trace r)) ∧
     calls (emit_trace r) = take (S i) (matching b n d)).
Proof.
  intros Hops s b r cb Hi.
  assert (errorHandler b = cb) as Hcb.
  { subst cb b s.
    by rewrite (proj1 (run_fixed ops _ w0)), run_options by done. }
  assert (validateEventName n = true) as Hv.
  { destruct (validateEventName n) eqn:Hv; [done|].
    subst r. by rewrite emit_invalid in Hi. }
  assert (¬ rejects_empty b n) as Hr.
  { intros Hr. subst r. by rewrite emit_rejected in Hi. }
  destruct (emit_shape b n d now s.2 Hv Hr) as (oe & Hsh & Hres).
  fold r in Hsh, Hres. split_and!.
  - apply emit_replays.
  - by eapply pass_shape_calls_prefix.
  - intros Hc. pose proof (pass_shape_caught _ _ _ _ _ Hc Hsh) as Hrf.
    rewrite Hcb in Hrf. split_and!.
    + done.
    + destruct (reports_follow_lookup _ _ _ _ _ _ _ Hrf Hi) as [thrown Hth].
      exists thrown. split; [done|]. intros e' ->.
      destruct (pass_shape_callback_threw _ _ _ _ _ _ _ _ _ _ Hsh Hth)
        as [-> Hlen].
      by destruct Hres as [Hres _].
    + intros Hret Hfil.
      assert (oe = None) as ->.
      { eapply pass_shape_went_through; [done|exact Hsh|done|].
        intros r0 d0 e0 [Hin ->]%matching_wildcard. by apply Hfil. }
      split; [by eapply pass_shape_calls_all|eauto].
  - intros Hc. pose proof (pass_shape_uncaught _ _ _ _ _ Hc Hsh) as Hun.
    assert (¬ Forall is_returned (emit_trace r)) as Hnot.
    { intros Hall. rewrite Forall_lookup in Hall. by apply Hall in Hi. }
    destruct oe as [e'|]; [|done].
    destruct Hun as [(pre & t' & arg' & Htr & Hpre)|Hall]; [|done].
    destruct Hres as [Hres _].
    assert (i = length pre ∧ e' = e) as [-> ->].
    { rewrite Htr in Hi.
      destruct (decide (i < length pre)%nat) as [Hlt|Hge].
      - rewrite lookup_app_l in Hi by done.
        rewrite Forall_lookup in Hpre. by apply Hpre in Hi.
      - rewrite lookup_app_r in Hi by lia.
        destruct (i - length pre)%nat as [|k] eqn:Hk; simpl in Hi;
          [|done].
        simplify_eq. split; [lia|done]. }
    split_and!.
    + done.
    + rewrite Htr, length_app. simpl. lia.
    + by rewrite Htr, take_app_length.
    + apply pass_shape_calls_prefix in Hsh.
      apply prefix_take_length in Hsh.
      rewrite Hsh at 1. f_equal.
      rewrite Htr, calls_app, length_app, calls_returned_length by done.
      simpl. lia.
Qed.

(** C6.  A snapshot restored into an instance gives an instance that lists
    exactly the names that had at least one subscription in the original,
    has the original's history entry for entry, and holds no record at all:
    every bucket is empty and so is the wildcard list, so no [emit] on it
    calls a handler. *)
Theorem snapshot_round_trip (original target : Bus) n d now w :
  let restored := restoreFromSnapshot target (getSnapshot original) in
  (∀ name, name ∈ eventNames restored ↔
           (0 < length (bucket original name))%nat) ∧
  getHistory restored = getHistory original ∧
  (∀ name, bucket restored name = []) ∧
  wildcardHandlers restored = [] ∧
  emit_trace (emit call report restored n d now w) = [].
Proof.
  intros restored.
  assert (∀ name, handlers restored !! name =
                  if bool_decide (0 < length (bucket original name))%nat
                  then Some [] else None) as Hl.
  { intros name. subst restored.
    rewrite restoreFromSnapshot_handlers. simpl. rewrite lookup_fmap.
    unfold bucket. by destruct (handlers original !! name) as [hs|]. }
  assert (∀ name, bucket restored name = []) as Hb.
  { intros name. unfold bucket. rewrite Hl. by case_bool_decide. }
  split_and!; [|done|done|done|].
  - intros name. rewrite elem_of_eventNames, Hl.
    case_bool_decide as Hlen.
    + split; [done|by eauto].
    + split; [by intros [? ?]|done].
  - destruct (validateEventName n) eqn:Hv;
      [|by rewrite emit_invalid].
    destruct (decide (rejects_empty restored n)) as [Hr|Hr];
      [by rewrite emit_rejected|].
    apply emit_no_match; [done..|].
    apply matching_nil. split; [done|]. constructor.
Qed.

(** C7, as amended.  From a new bus, as long as [restoreFromSnapshot] is not
    used, every listed name has at least one record, and no further
    operation other than [restoreFromSnapshot] leaves an empty bucket behind;
    [restoreFromSnapshot] creates an empty bucket for every name that the
    snapshot records with a count above zero. *)
Theorem buckets_nonempty_without_restore o ops w0 :
  forallb (λ op, negb (is_restore op)) ops = true →
  let s := run call report ops (EventBus_new o, w0) in
  (∀ name, name ∈ eventNames s.1 → (0 < length (bucket s.1 name))%nat) ∧
  (∀ op name, is_restore op = false →
     handlers (step call report s op).1 !! name ≠ Some []) ∧
  (∀ snapshot name count,
     s_listenerCounts snapshot !! name = Some count → (0 < count)%nat →
     handlers (restoreFromSnapshot s.1 snapshot) !! name = Some []).
Proof.
  intros Hops s.
  assert (buckets_nonempty s.1) as Hne.
  { apply run_nonempty; [done|]. intros name hs. simpl.
    by rewrite lookup_empty. }
  split_and!.
  - intros name [hs Hl]%elem_of_eventNames. unfold bucket. rewrite Hl. simpl.
    apply Hne in Hl. destruct hs; [done|simpl; lia].
  - intros op name Hop Hl. destruct s as [b w].
    by apply (step_nonempty b w op Hop Hne name []).
  - intros snapshot name count Hc Hpos.
    rewrite restoreFromSnapshot_handlers, Hc. simpl.
    by rewrite bool_decide_true.
Qed.

(** C9, as amended.  In every state that operations on a new bus reach, the
    capacity of the history is the one the constructor chose: [1000] when
    [maxHistorySize] was absent or [0], else the number given.  An [emit]
    with a valid name leaves the history that [recordEvent] produced,
    whatever the call then did (returned, raised [NoSubscribers], or passed
    on an error).  With a capacity of at least one, the entry of this call
    is the newest entry of that history.  With a smaller capacity,
    [recordEvent] takes the oldest entry out as soon as it has appended this
    one, so that nothing is left of the call when the history was empty.
    An [emit] with an invalid name raises [InvalidArgument], calls nothing
    and leaves the bus, and with it the history, as it was. *)
Theorem emit_records_history_first o ops w0 n d now :
  let s := run call report ops (EventBus_new o, w0) in
  let r := emit call report s.1 n d now s.2 in
  maxHistorySize s.1 =
    match o_maxHistorySize o with
    | Some 0 | None => 1000
    | Some m => m
    end ∧
  (validateEventName n = true →
     eventHistory (emit_bus r) = eventHistory (recordEvent s.1 n d now) ∧
     (1 ≤ maxHistorySize s.1 →
      last (eventHistory (emit_bus r)) = Some (entry_of n d now)) ∧
     (maxHistorySize s.1 < 1 →
      eventHistory (emit_bus r) =
        tail (eventHistory s.1 ++ [entry_of n d now]))) ∧
  (validateEventName n = false →
     emit_result r = Raise InvalidArgument ∧ emit_bus r = s.1 ∧
     emit_trace r = []).
Proof.
  intros s r. split_and!.
  - subst s. rewrite (proj2 (run_fixed ops _ w0)). simpl.
    destruct (o_maxHistorySize o) as [[|m|m]|]; by try case_bool_decide.
  - intros Hv. subst r. rewrite emit_eventHistory by done. split_and!.
    + done.
    + intros Hcap. by apply recordEvent_last.
    + intros Hcap. unfold recordEvent, entry_of. simpl.
      rewrite bool_decide_true; [done|]. rewrite length_app. simpl. lia.
  - intros Hv. subst r. by rewrite emit_invalid.
Qed.

(** C10.  With at least one wildcard record, [hasListeners] answers [true]
    for every valid name, whatever the named bucket and the filters; when
    the name has no named record and every wildcard filter rejects the
    event, [listenerCount] is [0] and an [emit] calls nothing. *)
Theorem hasListeners_wildcard b n d now w :
  validateEventName n = true → wildcardHandlers b ≠ [] →
  hasListeners (Err:=Err) b n = Ok true ∧
  (matching b n d = [] →
     listenerCount (Err:=Err) b n = Ok 0%nat ∧
     emit_trace (emit call report b n d now w) = []).
Proof.
  intros Hv Hw. split.
  - unfold hasListeners. rewrite Hv. f_equal.
    rewrite (bool_decide_true (0 < length (wildcardHandlers b))%nat).
    + apply orb_true_r.
    + destruct (wildcardHandlers b); [done|simpl; lia].
  - intros Hm. split.
    + apply matching_nil in Hm as [Hb _].
      unfold listenerCount. rewrite Hv. unfold bucket in Hb.
      destruct (handlers b !! n); simpl in *; by subst.
    + apply emit_no_match; [done| |done]. intros (_ & _ & Hw'). congruence.
Qed.

End BusFacts.

(** * Concrete runs *)

(** C1, counterexample.  On a bus with [allowEmptyEvents] off whose only
    subscriber is a wildcard record with a filter that rejects everything,
    nothing matches the event ["x"], and yet the [emit] does not raise
    [NoSubscribers]: it returns [undefined]. *)
Lemma emit_rejecting_wildcard_returns :
  allowEmptyEvents (options strict_filtered_bus) = false ∧
  validateEventName "x" = true ∧
  matching strict_filtered_bus "x" 0%nat = [] ∧
  emit_result (emit demo_call demo_report strict_filtered_bus "x" 0%nat 0 [])
    = Ok None ∧
  emit_result (emit demo_call demo_report strict_filtered_bus "x" 0%nat 0 [])
    ≠ Raise (NoSubscribers "x").
Proof. by vm_compute. Qed.

(** The strict bus without any subscriber rejects the event; the strict bus
    with the rejecting wildcard record lets it through. *)
Lemma emit_NoSubscribers_iff_witness :
  emit_result
    (emit demo_call demo_report (EventBus_new strict_options) "x" 0%nat 0 [])
    = Raise (NoSubscribers "x") ∧
  emit_result (emit demo_call demo_report strict_filtered_bus "x" 0%nat 0 [])
    = Ok None.
Proof.
  split.
  - destruct (emit_NoSubscribers_iff demo_call demo_report
                (EventBus_new strict_options) "x" 0%nat 0 [] eq_refl)
      as (Hiff & _).
    apply Hiff. by vm_compute.
  - destruct (emit_NoSubscribers_iff demo_call demo_report
                strict_filtered_bus "x" 0%nat 0 [] eq_refl)
      as (_ & _ & _ & Hw).
    apply Hw; by vm_compute.
Defined.

(** C2, the failing run.  [on("e", h, Critical); once("e", h, Low)] with the
    same function [h = 7]: the first [emit] calls both records and then
    removes the record found by looking up the handler, which is the
    persistent one; the once record stays and is called again by the second
    [emit]. *)
Lemma once_record_called_by_two_emits :
  let b0 : @EventBus nat nat := EventBus_new default_options in
  let b1 := (on (Err:=nat) b0 "e" 7 Critical).2 in
  let b2 := (once_ (Err:=nat) b1 "e" 7 Low).2 in
  let r1 := emit demo_call demo_report b2 "e" 0%nat 0 [] in
  let r2 := emit demo_call demo_report (emit_bus r1) "e" 0%nat 1
              (emit_world r1) in
  let persistent := {| handler := 7; priority := Critical; once := false |} in
  let once_record := {| handler := 7; priority := Low; once := true |} in
  bucket b2 "e" = [persistent; once_record] ∧
  calls (emit_trace r1) =
    [(Named persistent, Plain 0%nat); (Named once_record, Plain 0%nat)] ∧
  bucket (emit_bus r1) "e" = [once_record] ∧
  calls (emit_trace r2) = [(Named once_record, Plain 0%nat)] ∧
  bucket (emit_bus r2) "e" = [].
Proof. by vm_compute. Qed.


(** C4, counterexample.  [catchErrors] is on and [onError] is a callback
    that throws.  The first of two handlers throws; its error is passed to
    the callback, the callback throws, and that error leaves [emit]: the
    second handler is not called. *)
Lemma throwing_onError_aborts_pass :
  let b := (run demo_call demo_report throwing_ops
              (EventBus_new (onError_options 66), [])).1 in
  let r := emit demo_call demo_report b "e" 0%nat 0 [] in
  let thrower := {| handler := 13; priority := Normal; once := false |} in
  let sibling := {| handler := 1; priority := Low; once := false |} in
  catchErrors (options b) = true ∧
  matching b "e" 0%nat =
    [(Named thrower, Plain 0%nat); (Named sibling, Plain 0%nat)] ∧
  emit_trace r =
    [Invoked (Named thrower) (Plain 0%nat) (Threw 13%nat);
     Reported (UserCallback 66) 13%nat "e" (Some 66%nat)] ∧
  calls (emit_trace r) = [(Named thrower, Plain 0%nat)] ∧
  emit_result r = Raise (HandlerError 66%nat).
Proof. by vm_compute. Qed.

(** After [restoreFromSnapshot] the options name the callback of the
    snapshot, and the error of a handler still goes to the callback the bus
    was constructed with: [this.errorHandler] is not assigned again. *)
Lemma restored_bus_reports_to_old_callback :
  let restored : @EventBus nat nat :=
    restoreFromSnapshot (EventBus_new (onError_options 7))
      (getSnapshot (Err:=nat) (EventBus_new (onError_options 8))) in
  let b := (run demo_call demo_report throwing_ops (restored, [])).1 in
  onError (options b) = UserCallback 8 ∧
  emit_trace (emit demo_call demo_report b "e" 0%nat 0 []) !! 1%nat =
    Some (Reported (UserCallback 7) 13%nat "e" None).
Proof. by vm_compute. Qed.

(** The same two subscriptions on a bus with a callback that returns and on
    a bus with [catchErrors] off: the first reports the error and goes on to
    the second handler, the second stops at the handler that threw. *)
Lemma emit_error_policy_witness :
  let caught :=
    emit demo_call demo_report
      (run demo_call demo_report throwing_ops
         (EventBus_new (onError_options 7), [])).1 "e" 0%nat 0 [] in
  let uncaught :=
    emit demo_call demo_report
      (run demo_call demo_report throwing_ops
         (EventBus_new failfast_options, [])).1 "e" 0%nat 0 [] in
  (replays demo_call demo_report (emit_trace caught) [] (emit_world caught) ∧
   reports_follow (UserCallback 7) "e" (emit_trace caught) ∧
   length (calls (emit_trace caught)) = 2%nat) ∧
  (emit_result uncaught = Raise (HandlerError 13%nat) ∧
   length (emit_trace uncaught) = 1%nat).
Proof.
  split.
  - destruct (emit_error_policy demo_call demo_report (onError_options 7)
                throwing_ops [] "e" 0%nat 0 0%nat
                (Named {| handler := 13; priority := Normal; once := false |})
                (Plain 0%nat) 13%nat eq_refl eq_refl)
      as (Hlog & _ & Hcaught & _).
    destruct (Hcaught eq_refl) as (Hrep & _ & Hall).
    split_and!; [exact Hlog|exact Hrep|].
    destruct Hall as [Hcalls _].
    + intros j cb e n thrown Hj.
      destruct j as [|[|[|j]]]; vm_compute in Hj; by simplify_eq.
    + intros r e Hin. vm_compute in Hin. by apply elem_of_nil in Hin.
    + exact (eq_trans (f_equal length Hcalls) eq_refl).
  - destruct (emit_error_policy demo_call demo_report failfast_options
                throwing_ops [] "e" 0%nat 0 0%nat
                (Named {| handler := 13; priority := Normal; once := false |})
                (Plain 0%nat) 13%nat eq_refl eq_refl) as (_ & _ & _ & Huncaught).
    destruct (Huncaught eq_refl) as (Hres & Hlen & _).
    split; [exact Hres|exact Hlen].
Defined.

(** C5, the failing run.  With [catchErrors] off, a once record for handler
    [1] (High) stands in front of a persistent record whose handler [13]
    throws.  The first [emit] calls both and raises; the history entry is
    there, but the once record is still in the bucket, and the second [emit]
    calls it again. *)
Lemma aborted_emit_keeps_once_record :
  let b0 : @EventBus nat nat := EventBus_new failfast_options in
  let b1 := (once_ (Err:=nat) b0 "e" 1 High).2 in
  let b2 := (on (Err:=nat) b1 "e" 13 Low).2 in
  let r1 := emit demo_call demo_report b2 "e" 0%nat 0 [] in
  let r2 := emit demo_call demo_report (emit_bus r1) "e" 0%nat 1
              (emit_world r1) in
  let once_record := {| handler := 1; priority := High; once := true |} in
  let thrower := {| handler := 13; priority := Low; once := false |} in
  emit_result r1 = Raise (HandlerError 13%nat) ∧
  calls (emit_trace r1) =
    [(Named once_record, Plain 0%nat); (Named thrower, Plain 0%nat)] ∧
  getHistory (emit_bus r1) =
    [{| event := "e"; data := 0%nat; timestamp := 0 |}] ∧
  bucket (emit_bus r1) "e" = [once_record; thrower] ∧
  calls (emit_trace r2) =
    [(Named once_record, Plain 0%nat); (Named thrower, Plain 0%nat)].
Proof. by vm_compute. Qed.

(** C7, counterexample.  A snapshot of a bus with one subscription to ["a"],
    restored into a new bus: ["a"] is listed, and its bucket is empty. *)
Lemma restore_lists_empty_bucket :
  let original :=
    (run demo_call demo_report [OpOn "a" 1 Normal]
       (EventBus_new default_options, [])).1 in
  let restored :=
    (run demo_call demo_report [OpRestoreFromSnapshot (getSnapshot original)]
       (EventBus_new default_options, [])).1 in
  eventNames restored = ["a"] ∧
  handlers restored !! "a" = Some [] ∧
  listenerCount (Err:=nat) restored "a" = Ok 0%nat.
Proof. by vm_compute. Qed.

(** After [pruning_ops] only ["b"] is listed, with one record. *)
Lemma buckets_nonempty_without_restore_witness :
  let s := run demo_call demo_report pruning_ops
             (EventBus_new default_options, []) in
  eventNames s.1 = ["b"] ∧ (0 < length (bucket s.1 "b"))%nat.
Proof.
  split; [by vm_compute|].
  destruct (buckets_nonempty_without_restore demo_call demo_report
              default_options pruning_ops [] eq_refl) as (Hlisted & _).
  apply Hlisted. vm_compute. constructor.
Defined.

(** C8, the failing runs.  [restoreFromSnapshot] installs the snapshot's
    history and options but leaves [this.maxHistorySize] as the constructor
    set it.  (1) A snapshot with three entries restored into a bus built with
    [maxHistorySize: 1]: the history has three entries while the bound in
    force is one.  (2) A snapshot of a bus built with [maxHistorySize: 1]
    restored into a default bus: its options now say one, the bound in force
    is still 1000, and three emits leave three entries. *)
Lemma restore_breaks_history_bound :
  let three := [OpEmit "e1" 0%nat 1; OpEmit "e2" 0%nat 2; OpEmit "e3" 0%nat 3] in
  let a := (run demo_call demo_report three
              (EventBus_new (history_options 3), [])).1 in
  let b : @EventBus nat nat :=
    restoreFromSnapshot (EventBus_new (history_options 1)) (getSnapshot a) in
  let c : @EventBus nat nat := EventBus_new (history_options 1) in
  let d := (run demo_call demo_report
              (OpRestoreFromSnapshot (getSnapshot c) :: three)
              (EventBus_new default_options, [])).1 in
  (maxHistorySize b = 1 ∧ length (getHistory b) = 3%nat) ∧
  (opt_maxHistorySize (options d) = 1 ∧ maxHistorySize d = 1000 ∧
   length (getHistory d) = 3%nat).
Proof. by vm_compute. Qed.

(** C9, counterexample.  On a bus made with
    [{ allowEmptyEvents: false, maxHistorySize: -1 }] an [emit] of the valid
    name ["x"] raises [NoSubscribers], and the history holds no entry
    afterwards: [recordEvent] appended the entry of the call and removed it
    again. *)
Lemma negative_capacity_drops_entry :
  validateEventName "x" = true ∧
  emit_result
    (emit demo_call demo_report (EventBus_new strict_negative_options)
       "x" 4%nat 17 []) = Raise (NoSubscribers "x") ∧
  eventHistory
    (emit_bus
       (emit demo_call demo_report (EventBus_new strict_negative_options)
          "x" 4%nat 17 [])) = [] ∧
  entry_of "x" 4%nat 17 ∉
    eventHistory
      (emit_bus
         (emit demo_call demo_report (EventBus_new strict_negative_options)
            "x" 4%nat 17 [])).
Proof. split_and!; [by vm_compute..|]. vm_compute. by intros ?%elem_of_nil. Qed.

(** An [emit] on a new strict bus raises [NoSubscribers] and has recorded its
    entry. *)
Lemma emit_records_history_first_witness :
  emit_result
    (emit demo_call demo_report (EventBus_new strict_options) "x" 4%nat 17 [])
    = Raise (NoSubscribers "x") ∧
  last (eventHistory
          (emit_bus
             (emit demo_call demo_report (EventBus_new strict_options)
                "x" 4%nat 17 []))) = Some (entry_of "x" 4%nat 17).
Proof.
  split; [by vm_compute|].
  destruct (emit_records_history_first demo_call demo_report
              strict_options [] [] "x" 4%nat 17)
    as (Hcap & Hvalid & _).
  destruct (Hvalid eq_refl) as (_ & Hlast & _).
  apply Hlast. rewrite Hcap. simpl. lia.
Defined.

(** On [strict_filtered_bus], [hasListeners] is true for ["x"] although no
    record is listed for it and an [emit] of it calls nothing. *)
Lemma hasListeners_wildcard_witness :
  hasListeners (Err:=nat) strict_filtered_bus "x" = Ok true ∧
  listenerCount (Err:=nat) strict_filtered_bus "x" = Ok 0%nat ∧
  emit_trace (emit demo_call demo_report strict_filtered_bus "x" 0%nat 0 [])
    = [].
Proof.
  assert (wildcardHandlers strict_filtered_bus ≠ []) as Hw
    by (vm_compute; discriminate).
  destruct (hasListeners_wildcard demo_call demo_report strict_filtered_bus
              "x" 0%nat 0 [] eq_refl Hw) as [Hhas Hnone].
  destruct (Hnone eq_refl) as [Hcount Htrace].
  split_and!; [exact Hhas|exact Hcount|exact Htrace].
Defined.

(** The history test of the repository: four emits with
    [maxHistorySize: 3]. *)
Lemma history_bound_without_restore_witness :
  let s := run demo_call demo_report
             [OpEmit "event1" 1%nat 10; OpEmit "event2" 2%nat 20;
              OpEmit "event3" 3%nat 30; OpEmit "event4" 4%nat 40]
             (EventBus_new (history_options 3), []) in
  eventHistory s.1 =
    [entry_of "event2" 2%nat 20; entry_of "event3" 3%nat 30;
     entry_of "event4" 4%nat 40].
Proof.
  assert (∀ m, o_maxHistorySize (history_options 3) = Some m → 0 ≤ m) as Ho
    by (intros m [= <-]; lia).
  destruct (history_bound_without_restore demo_call demo_report
              (history_options 3) [] []
              [("event1", 1%nat, 10); ("event2", 2%nat, 20);
               ("event3", 3%nat, 30); ("event4", 4%nat, 40)]
              Ho eq_refl eq_refl) as (_ & _ & Hhist).
  exact Hhist.
Defined.

(** One [emit] on [mixed_bus] leaves the persistent record only. *)
Lemma emit_prunes_once_witness :
  bucket (emit_bus (emit demo_call demo_report mixed_bus "e" 0%nat 0 [])) "e"
    = [{| handler := 2; priority := Low; once := false |}].
Proof.
  assert (NoDup (handler <$> bucket mixed_bus "e")) as Hnd.
  { apply (bool_decide_unpack (NoDup (handler <$> bucket mixed_bus "e"))).
    by vm_compute. }
  assert (∃ v, emit_result
                 (emit demo_call demo_report mixed_bus "e" 0%nat 0 []) = Ok v)
    as Hok by (eexists; by vm_compute).
  exact (emit_prunes_once demo_call demo_report mixed_bus "e" 0%nat 0 []
           Hnd Hok).
Defined.

(** [off("e", 1)] on [mixed_bus] leaves the record of handler [2]. *)
Lemma off_handler_removes_first_witness :
  bucket (off (Err:=nat) mixed_bus "e" (Some 1%nat)).2 "e" =
    [{| handler := 2; priority := Low; once := false |}].
Proof.
  destruct (off_handler_removes_first (Err:=nat) mixed_bus "e" 1%nat eq_refl)
    as (Hb & _).
  exact Hb.
Defined.

(** After [off("e")] on [mixed_bus] an [emit] of ["e"] has nothing to
    call. *)
Lemma off_all_drops_bucket_witness :
  matching (off (Err:=nat) mixed_bus "e" None).2 "e" 0%nat = [].
Proof.
  destruct (off_all_drops_bucket (Err:=nat) mixed_bus "e" 0%nat eq_refl)
    as (_ & _ & _ & Hm).
  exact Hm.
Defined.

(** * The tests of the repository, replayed on the model

    [tests/EventBus.test.ts], in the concrete environment; what a test
    observes through its handlers is read off the trace or the world. *)

(** The handlers called by an [emit], in order. *)
Definition called (r : @EmitResult nat nat nat (list EventHandler))
  : list EventHandler :=
  (λ c, target_handler c.1) <$> calls (emit_trace r).

(** "once subscriptions fire only once" *)
Example test_once_fires_once :
  let s := run demo_call demo_report
             [OpOnce "test" 1 Normal; OpEmit "test" 0%nat 0;
              OpEmit "test" 0%nat 1]
             (EventBus_new default_options, []) in
  s.2 = [1%nat].
Proof. by vm_compute. Qed.

(** "wildcard subscriptions support priorities": the named handler runs
    before the wildcard handler whatever their priorities. *)
Example test_named_before_wildcard :
  let s := run demo_call demo_report
             [OpOnAny 1 (Some (inl Low)); OpOn "test" 2 High]
             (EventBus_new default_options, []) in
  called (emit demo_call demo_report s.1 "test" 0%nat 0 s.2) = [2%nat; 1%nat].
Proof. by vm_compute. Qed.

(** "unsubscribe a specific handler" and "unsubscribe all handlers" *)
Example test_off :
  let s := run demo_call demo_report
             [OpOn "test" 1 Normal; OpOn "test" 2 Normal;
              OpOff "test" (Some 1%nat); OpEmit "test" 0%nat 0;
              OpOff "test" None; OpEmit "test" 0%nat 1]
             (EventBus_new default_options, []) in
  s.2 = [2%nat].
Proof. by vm_compute. Qed.

(** "event filters": one wildcard subscriber filtered by event name, one by
    data.  The events are [test1] with [1], [test2] with [2] and [other] with
    [3]; the name filter passes names that start with [test], the data filter
    passes data above [1]. *)
Example test_filters :
  let by_name : @EventFilter nat nat :=
    {| f_event := Some (λ n, Says (String.prefix "test" n));
       f_data := None |} in
  let by_data : @EventFilter nat nat :=
    {| f_event := None;
       f_data := Some (λ _ d, Says (bool_decide (1 < d)%nat)) |} in
  let s := run demo_call demo_report
             [OpOnAny 1 (Some (inr by_name)); OpOnAny 2 (Some (inr by_data));
              OpEmit "test1" 1%nat 0; OpEmit "test2" 2%nat 1;
              OpEmit "other" 3%nat 2]
             (EventBus_new default_options, []) in
  s.2 = [1%nat; 1%nat; 2%nat; 2%nat].
Proof. by vm_compute. Qed.

(** "errors are caught and handled" and "errors are thrown without error
    handling" *)
Example test_error_handling :
  let caught :=
    emit demo_call demo_report
      (on (Err:=nat) (EventBus_new default_options) "test" 13 Normal).2
      "test" 0%nat 0 [] in
  let thrown :=
    emit demo_call demo_report
      (on (Err:=nat) (EventBus_new failfast_options) "test" 13 Normal).2
      "test" 0%nat 0 [] in
  emit_result caught = Ok None ∧
  emit_trace caught !! 1%nat =
    Some (Reported DefaultErrorHandler 13%nat "test" None) ∧
  emit_result thrown = Raise (HandlerError 13%nat).
Proof. by vm_compute. Qed.

(** "get and restore a snapshot" *)
Example test_snapshot :
  let s := run demo_call demo_report
             [OpOn "test1" 1 Normal; OpOn "test2" 2 Normal;
              OpEmit "test1" 1%nat 0]
             (EventBus_new default_options, []) in
  let restored : @EventBus nat nat :=
    restoreFromSnapshot (EventBus_new default_options) (getSnapshot s.1) in
  eventNames restored ≡ₚ ["test1"; "test2"] ∧
  getHistory restored = [entry_of "test1" 1%nat 0].
Proof.
  split; [|by vm_compute].
  vm_compute. first [reflexivity | apply Permutation_swap].
Qed.

(** "listener counts" and "hasListeners" *)
Example test_queries :
  let s := run demo_call demo_report
             [OpOn "test1" 1 Normal; OpOn "test1" 2 Normal;
              OpOn "test2" 3 Normal]
             (EventBus_new default_options, []) in
  listenerCount (Err:=nat) s.1 "test1" = Ok 2%nat ∧
  listenerCount (Err:=nat) s.1 "test2" = Ok 1%nat ∧
  hasListeners (Err:=nat) s.1 "test1" = Ok true ∧
  hasListeners (Err:=nat) s.1 "nonexistent" = Ok false.
Proof. by vm_compute. Qed.

(** * The rest of the bus

    The remaining methods of the [EventBus] class, and what the methods
    modelled above do at their edges. *)

(** ** Event names *)

Ltac split_ifs :=
  repeat match goal with
         | |- context [if ?b then _ else _] => destruct b; try done
         end.

Lemma skipSpace_length s s' :
  skipSpace s = Some s' → (String.length s' < String.length s)%nat.
Proof.
  destruct s as [|c1 [|c2 [|c3 s3]]]; cbn [skipSpace]; [done|..];
    split_ifs; intros [= <-]; simpl; lia.
Qed.

Lemma trimStart_skip s :
  trimStart s = match skipSpace s with Some s' => trimStart s' | None => s end.
Proof.
  destruct s as [|c1 [|c2 [|c3 s3]]]; cbn [trimStart skipSpace]; [done|..];
    by split_ifs.
Qed.

Lemma blank_skip s :
  blank s = match s with
            | EmptyString => true
            | _ => match skipSpace s with
                   | Some s' => blank s'
                   | None => false
                   end
            end.
Proof.
  destruct s as [|c1 [|c2 [|c3 s3]]]; cbn [blank skipSpace]; [done|..];
    by split_ifs.
Qed.

(** Induction along the white-space code points at the front. *)
Lemma skipSpace_ind (P : string → Prop) :
  (∀ s, (∀ s', skipSpace s = Some s' → P s') → P s) → ∀ s, P s.
Proof.
  intros Hstep s.
  remember (String.length s) as k eqn:Hk.
  revert s Hk. induction k as [k IH] using lt_wf_ind. intros s ->.
  apply Hstep. intros s' Hs'. apply (IH (String.length s')); [|done].
  by apply skipSpace_length.
Qed.

Lemma trimStart_blank s : blank (trimStart s) = blank s.
Proof.
  induction s as [s IH] using skipSpace_ind.
  rewrite trimStart_skip. rewrite (blank_skip s).
  destruct (skipSpace s) as [s'|] eqn:Hs.
  - rewrite IH by done. destruct s; [done|]. done.
  - rewrite (blank_skip s), Hs. done.
Qed.

Lemma trimStart_empty s : trimStart s = EmptyString ↔ blank s = true.
Proof.
  induction s as [s IH] using skipSpace_ind.
  rewrite trimStart_skip, (blank_skip s).
  destruct (skipSpace s) as [s'|] eqn:Hs.
  - rewrite IH by done. by destruct s.
  - destruct s; [done|]. split; discriminate.
Qed.

Lemma trimEnd_empty s : trimEnd s = EmptyString ↔ blank s = true.
Proof.
  destruct s as [|c s]; [done|].
  change (trimEnd (String c s)) with
    (if blank (String c s) then EmptyString else String c (trimEnd s)).
  destruct (blank (String c s)); [done|]. split; discriminate.
Qed.

Lemma trim_empty s : trim s = EmptyString ↔ blank s = true.
Proof. unfold trim. by rewrite trimEnd_empty, trimStart_blank. Qed.

Lemma code_inj c k : code c = k → c = Ascii.ascii_of_N k.
Proof. intros <-. symmetry. apply Ascii.ascii_N_embedding. Qed.

Ltac by_computation :=
  match goal with
  | |- ?P => apply (bool_decide_unpack P); by vm_compute
  end.

Ltac split_bools :=
  repeat match goal with
         | H : (_ || _)%bool = true |- _ => apply orb_prop in H as [H|H]
         | H : (_ && _)%bool = true |- _ => apply andb_prop in H as [? ?]
         | H : (_ =? _)%N = true |- _ => apply N.eqb_eq, code_inj in H; subst
         | H : (_ <=? _)%N = true |- _ => apply N.leb_le in H
         end.

Lemma code_range c :
  (0x80 ≤ code c)%N → (code c ≤ 0x8A)%N →
  c ∈ Ascii.ascii_of_N <$>
        [0x80; 0x81; 0x82; 0x83; 0x84; 0x85; 0x86; 0x87; 0x88; 0x89; 0x8A]%N.
Proof.
  intros Hlo Hhi. apply list_elem_of_fmap. exists (code c).
  split; [symmetry; apply Ascii.ascii_N_embedding|].
  assert (code c = 0x80 ∨ code c = 0x81 ∨ code c = 0x82 ∨ code c = 0x83 ∨
          code c = 0x84 ∨ code c = 0x85 ∨ code c = 0x86 ∨ code c = 0x87 ∨
          code c = 0x88 ∨ code c = 0x89 ∨ code c = 0x8A)%N as Hc by lia.
  destruct_or!; rewrite Hc; by_computation.
Qed.

Lemma whiteSpace_skip c s' :
  c ∈ whiteSpace → skipSpace (String.app c s') = Some s'.
Proof.
  revert c. apply Forall_forall. revert s'.
  assert (Forall (λ c, ∀ s', skipSpace (String.app c s') = Some s') whiteSpace)
    as H by (by repeat constructor).
  intros s'. eapply Forall_impl; [exact H|]. auto.
Qed.

Lemma skipSpace_whiteSpace s s' :
  skipSpace s = Some s' → ∃ c, c ∈ whiteSpace ∧ s = String.app c s'.
Proof.
  destruct s as [|c1 s1]; [done|]. cbn [skipSpace].
  destruct (Ascii.is_space c1) eqn:H1.
  { intros [= <-]. exists (String c1 EmptyString). split; [|done].
    destruct c1 as [[] [] [] [] [] [] [] []]; try done; by_computation. }
  destruct s1 as [|c2 s2]; [done|].
  destruct (space2 c1 c2) eqn:H2.
  { intros [= <-]. exists (String c1 (String c2 EmptyString)). split; [|done].
    unfold space2 in H2. split_bools. by_computation. }
  destruct s2 as [|c3 s3]; [done|].
  destruct (space3 c1 c2 c3) eqn:H3; [|done].
  intros [= <-]. exists (String c1 (String c2 (String c3 EmptyString))).
  split; [|done]. clear H1 H2. unfold space3 in H3. split_bools;
    try by_computation.
  match goal with
  | Hlo : (_ ≤ code c3)%N, Hhi : (code c3 ≤ _)%N |- _ =>
      pose proof (code_range c3 Hlo Hhi) as Hin
  end.
  repeat (apply elem_of_cons in Hin as [->|Hin]; [by_computation|]).
  by apply elem_of_nil in Hin.
Qed.

(** The names that consist of white space only are the sequences of
    characters that [trim] removes. *)
Lemma blank_whiteSpaceOnly s : blank s = true ↔ whiteSpaceOnly s.
Proof.
  split.
  - induction s as [s IH] using skipSpace_ind. rewrite blank_skip.
    destruct s as [|c s]; [by exists []|].
    destruct (skipSpace (String c s)) as [s'|] eqn:Hs; [|done].
    intros (cs & Hcs & ->)%IH; [|done].
    apply skipSpace_whiteSpace in Hs as (c' & Hc' & ->).
    exists (c' :: cs). split; [by constructor|done].
  - intros (cs & Hcs & ->). induction Hcs as [|c cs Hc _ IH]; [done|].
    simpl. rewrite blank_skip, whiteSpace_skip by done.
    by destruct (String.app c _).
Qed.

Lemma validateEventName_blank n : validateEventName n = negb (blank n).
Proof.
  unfold validateEventName.
  destruct (blank n) eqn:Hb; simpl.
  - apply trim_empty in Hb. rewrite (bool_decide_true _ Hb). simpl.
    apply andb_false_r.
  - assert (trim n ≠ EmptyString) as Ht.
    { intros Ht%trim_empty. congruence. }
    assert (n ≠ EmptyString) as Hn by (intros ->; done).
    by rewrite !bool_decide_false.
Qed.

Lemma findIndex_first {A} (P : A → bool) (pre : list A) x post :
  Forall (λ y, P y = false) pre → P x = true →
  findIndex P (pre ++ x :: post) = Some (length pre).
Proof.
  intros Hpre Hx. induction Hpre as [|y pre Hy _ IH]; simpl.
  - by rewrite Hx.
  - by rewrite Hy, IH.
Qed.

Lemma splice1_middle {A} (pre : list A) x post :
  splice1 (length pre) (pre ++ x :: post) = pre ++ post.
Proof.
  unfold splice1. rewrite take_app_length. f_equal.
  rewrite drop_app_ge by lia.
  by replace (S (length pre) - length pre)%nat with 1%nat by lia.
Qed.

(** A sorted array falls into the elements up to a key and the elements
    above it. *)
Lemma sorted_filter_split {A} (key : A → Z) (k : Z) (l : list A) :
  StronglySorted (key_le key) l →
  filter (λ y, key y ≤ k) l ++ filter (λ y, k < key y) l = l.
Proof.
  induction 1 as [|a l _ IH Hall]; [done|].
  rewrite !filter_cons.
  destruct (decide (key a ≤ k)) as [Hle|Hgt].
  - rewrite decide_False by lia. simpl. by rewrite IH.
  - rewrite decide_True by lia.
    rewrite filter_none; [|eapply Forall_impl; [exact Hall|];
                           unfold key_le; intros; simpl in *; lia].
    rewrite filter_all; [done|].
    eapply Forall_impl; [exact Hall|]. unfold key_le; intros; simpl in *; lia.
Qed.

Lemma Forall_sublist_of {A} (P : A → Prop) (l k : list A) :
  k `sublist_of` l → Forall P l → Forall P k.
Proof.
  intros Hs Hl. apply Forall_forall. intros x Hx.
  eapply Forall_forall in Hl; [done|]. by eapply elem_of_sublist.
Qed.

(** The [reduce] of [getState], as a sum. *)
Lemma foldl_length_sum {A} (a : nat) (l : list (list A)) :
  foldl (λ sum hs, sum + length hs)%nat a l = (a + sum_list (length <$> l))%nat.
Proof.
  revert a. induction l as [|hs l IH]; intros a; csimpl; [lia|].
  rewrite IH. lia.
Qed.

Lemma sum_list_nonempty {A} (l : list (list A)) :
  Forall (λ hs, hs ≠ []) l → (length l ≤ sum_list (length <$> l))%nat.
Proof.
  induction 1 as [|hs l Hhs _ IH]; csimpl; [done|].
  destruct hs; [done|]. simpl. lia.
Qed.

Lemma sum_list_elem {A} (l : list (list A)) hs :
  hs ∈ l → (length hs ≤ sum_list (length <$> l))%nat.
Proof.
  induction 1 as [|? ? ? _ IH]; csimpl; lia.
Qed.

Section BusEdges.

Context {Data Err Promise World : Type}.
Variable call : EventHandler → @Payload Data → World → @Outcome Err Promise * World.
Variable report : ErrorCallback → Err → string → World → option Err * World.

Abbreviation Bus := (@EventBus Data Err).
Implicit Types (b : Bus) (w : World).

(** The subscription operations, taken apart into their cases. *)
(** A name is rejected exactly when it is a sequence of characters that
    [trim] removes (the empty name included); every method that takes a name
    then raises [InvalidArgument] and leaves the bus, the world and the
    history as they were. *)
Theorem blank_names_rejected b n isOnce h p oh d now w :
  (validateEventName n = false ↔ whiteSpaceOnly n) ∧
  (validateEventName n = false →
   subscribe (Err:=Err) isOnce b n h p = (Raise InvalidArgument, b) ∧
   off (Err:=Err) b n oh = (Raise InvalidArgument, b) ∧
   emit call report b n d now w =
     {| emit_result := Raise InvalidArgument; emit_bus := b;
        emit_world := w; emit_trace := [] |} ∧
   listenerCount (Err:=Err) b n = Raise InvalidArgument ∧
   hasListeners (Err:=Err) b n = Raise InvalidArgument).
Proof.
  split.
  - rewrite validateEventName_blank, negb_false_iff.
    apply blank_whiteSpaceOnly.
  - intros Hv. unfold subscribe, off, listenerCount, hasListeners.
    rewrite emit_invalid by done. by rewrite Hv.
Qed.

(** ** Subscribing *)

(** A subscription under a valid name adds exactly one record to the bucket
    of that name: [listenerCount] goes up by one, [hasListeners] is true, the
    bucket holds the old records and the new one; the other buckets, the
    wildcard list and the history are untouched. *)
Theorem subscribe_adds_one_listener b n isOnce h p :
  validateEventName n = true →
  let b' := (subscribe (Err:=Err) isOnce b n h p).2 in
  listenerCount (Err:=Err) b' n = Ok (S (length (bucket b n))) ∧
  hasListeners (Err:=Err) b' n = Ok true ∧
  bucket b' n ≡ₚ
    bucket b n ++ [{| handler := h; priority := p; once := isOnce |}] ∧
  (∀ name, name ≠ n → handlers b' !! name = handlers b !! name) ∧
  wildcardHandlers b' = wildcardHandlers b ∧
  eventHistory b' = eventHistory b.
Proof.
  intros Hv b'.
  assert (handlers b' !! n =
          Some (sortHandlersByPriority
                  (bucket b n ++
                   [{| handler := h; priority := p; once := isOnce |}])))
    as Hl.
  { subst b'. by rewrite subscribe_handlers, decide_True. }
  assert (length (sortHandlersByPriority
                    (bucket b n ++
                     [{| handler := h; priority := p; once := isOnce |}])) =
          S (length (bucket b n))) as Hlen.
  { unfold sortHandlersByPriority.
    rewrite stable_sort_by_length, length_app. simpl. lia. }
  split_and!.
  - unfold listenerCount. by rewrite Hv, Hl, Hlen.
  - unfold hasListeners, bucket. rewrite Hv, Hl. simpl. rewrite Hlen.
    by rewrite (bool_decide_true (0 < S _)%nat) by lia.
  - unfold bucket at 1. rewrite Hl. simpl.
    apply stable_sort_by_Permutation.
  - intros name Hne. subst b'.
    by rewrite subscribe_handlers, decide_False.
  - subst b'. unfold subscribe. by rewrite Hv.
  - subst b'. unfold subscribe. by rewrite Hv.
Qed.

(** [off(name, h)] on a bucket that is a sorted bucket [old], in which [h]
    holds no record, with a record of [h] pushed and sorted in: the pushed
    record goes, [old] stays. *)
Lemma off_pushed_record b n h p isOnce old :
  validateEventName n = true → bucket_sorted old → h ∉ handler <$> old →
  handlers b !! n =
    Some (sortHandlersByPriority
            (old ++ [{| handler := h; priority := p; once := isOnce |}])) →
  let r := off (Err:=Err) b n (Some h) in
  r.1 = Ok () ∧ bucket r.2 n = old ∧
  (∀ name, name ≠ n → handlers r.2 !! name = handlers b !! name) ∧
  wildcardHandlers r.2 = wildcardHandlers b ∧
  eventHistory r.2 = eventHistory b ∧ options r.2 = options b.
Proof.
  intros Hv Hs Hh Hl r.
  set (new := {| handler := h; priority := p; once := isOnce |}) in *.
  set (key := λ x : SubscriptionRecord, priority_value (priority x)).
  set (pre := filter (λ x, key x ≤ key new) old).
  set (post := filter (λ x, key new < key x) old).
  assert (sortHandlersByPriority (old ++ [new]) = pre ++ new :: post) as Hsort
    by by apply (stable_sort_by_push key).
  assert (findIndex (λ x, bool_decide (handler x = h)) (pre ++ new :: post) =
          Some (length pre)) as Hfind.
  { apply findIndex_first; [|by apply bool_decide_eq_true].
    apply Forall_forall. intros x [_ Hx]%list_elem_of_filter.
    apply bool_decide_eq_false. intros Hxh. apply Hh.
    apply list_elem_of_fmap. by exists x. }
  assert (pre ++ post = old) as Hold by by apply (sorted_filter_split key).
  subst r. unfold off. rewrite Hv, Hl, Hsort, Hfind. simpl.
  rewrite splice1_middle, Hold.
  split_and!; try done.
  - case_bool_decide as Hlen; unfold bucket; simpl.
    + rewrite lookup_delete_eq. simpl. symmetry.
      by apply length_zero_iff_nil.
    + by rewrite lookup_insert_eq.
  - intros name Hne. case_bool_decide; simpl.
    + by rewrite lookup_delete_ne.
    + by rewrite lookup_insert_ne.
  - by case_bool_decide.
  - by case_bool_decide.
  - by case_bool_decide.
Qed.

(** Subscribing and unsubscribing through the returned handle.  In a state
    that operations on a new bus reach, when the handler holds no record in
    the bucket of a valid name, [on] (or [once]) followed by [unsubscribe()]
    on its handle gives every bucket back as it was. *)
Theorem subscribe_unsubscribe_round_trip o ops w0 n isOnce h p :
  validateEventName n = true →
  let b := (run call report ops (EventBus_new o, w0)).1 in
  h ∉ handler <$> bucket b n →
  let r := subscribe (Err:=Err) isOnce b n h p in
  r.1 = Ok (NamedSubscription n h) ∧
  ∀ name, bucket (unsubscribe (Err:=Err) (NamedSubscription n h) r.2).2 name =
          bucket b name.
Proof.
  intros Hv b Hh r.
  assert (bucket_sorted (bucket b n)) as Hs.
  { apply bucket_sorted_of_bus. subst b. apply run_sorted, new_sorted. }
  split; [subst r; unfold subscribe; by rewrite Hv|].
  assert (handlers r.2 !! n =
          Some (sortHandlersByPriority
                  (bucket b n ++
                   [{| handler := h; priority := p; once := isOnce |}])))
    as Hl.
  { subst r. by rewrite subscribe_handlers, decide_True. }
  destruct (off_pushed_record r.2 n h p isOnce (bucket b n) Hv Hs Hh Hl)
    as (_ & Hn & Hother & _).
  intros name. simpl. destruct (decide (name = n)) as [->|Hne]; [done|].
  unfold bucket. rewrite Hother by done.
  subst r. by rewrite subscribe_handlers, decide_False.
Qed.

(** The same for a wildcard subscription: [onAny] adds one record, and when
    the handler held no wildcard record before, [unsubscribe()] on the handle
    gives the bus back as it was; the named buckets are never touched. *)
Theorem onAny_unsubscribe_round_trip o ops w0 h opts :
  let b := (run call report ops (EventBus_new o, w0)).1 in
  h ∉ w_handler <$> wildcardHandlers b →
  let r := onAny (Err:=Err) b h opts in
  r.1 = Ok (WildcardSubscription h) ∧
  wildcardListenerCount r.2 = S (wildcardListenerCount b) ∧
  handlers r.2 = handlers b ∧
  unsubscribe (Err:=Err) (WildcardSubscription h) r.2 = (Ok (), b).
Proof.
  intros b Hh r.
  assert (wildcards_sorted (wildcardHandlers b)) as Hs.
  { subst b. apply run_sorted, new_sorted. }
  set (new := {| w_handler := h;
                 w_priority := match opts with Some (inl q) => q | _ => Normal end;
                 w_once := false;
                 w_filter := match opts with Some (inr f) => Some f | _ => None end |}).
  set (key := λ x : @WildcardRecord Data Err, priority_value (w_priority x)).
  set (pre := filter (λ x, key x ≤ key new) (wildcardHandlers b)).
  set (post := filter (λ x, key new < key x) (wildcardHandlers b)).
  assert (wildcardHandlers r.2 = pre ++ new :: post) as Hl.
  { subst r. simpl. by apply (stable_sort_by_push key). }
  assert (findIndex (λ x, bool_decide (w_handler x = h)) (pre ++ new :: post) =
          Some (length pre)) as Hfind.
  { apply findIndex_first; [|by apply bool_decide_eq_true].
    apply Forall_forall. intros x [_ Hx]%list_elem_of_filter.
    apply bool_decide_eq_false. intros Hxh. apply Hh.
    apply list_elem_of_fmap. by exists x. }
  assert (pre ++ post = wildcardHandlers b) as Hold
    by by apply (sorted_filter_split key).
  split_and!; [done| |done|].
  - unfold wildcardListenerCount.
    rewrite Hl, <-Hold, !length_app. simpl. lia.
  - unfold unsubscribe. rewrite Hl, Hfind, splice1_middle, Hold.
    subst r. by destruct b.
Qed.

(** ** Wildcard records are never once records *)

Lemma step_wildcards_never_once b w op :
  Forall (λ r, w_once r = false) (wildcardHandlers b) →
  Forall (λ r, w_once r = false)
    (wildcardHandlers (step call report (b, w) op).1).
Proof.
  intros Hb.
  destruct op as [n h p|n h p|h o|n h|sub|n d now| | |snap]; simpl.
  - unfold on, subscribe. by case_match.
  - unfold once_, subscribe. by case_match.
  - unfold sortWildcardsByPriority.
    eapply Permutation_Forall;
      [symmetry; apply stable_sort_by_Permutation|].
    apply Forall_app. split; [done|]. by constructor.
  - unfold off. by repeat case_match.
  - destruct sub as [n h|h]; simpl.
    + unfold off. by repeat case_match.
    + case_match; [|done]. simpl.
      eapply Forall_sublist_of; [apply splice1_sublist|done].
  - eapply Forall_sublist_of; [apply emit_wildcards_sublist|done].
  - constructor.
  - done.
  - constructor.
Qed.

Lemma run_wildcards_never_once ops b w :
  Forall (λ r, w_once r = false) (wildcardHandlers b) →
  Forall (λ r, w_once r = false)
    (wildcardHandlers (run call report ops (b, w)).1).
Proof.
  intros Hb. induction ops as [|op ops IH] using rev_ind; [done|].
  rewrite run_snoc. destruct (run call report ops (b, w)) as [b1 w1].
  by apply step_wildcards_never_once.
Qed.

Lemma runHandlers_wildcardIndices b n d live cl st oe st' :
  runHandlers call report b n d live cl st = (oe, st') →
  p_onceWildcardIndices st' = p_onceWildcardIndices st.
Proof.
  revert st. induction cl as [|r cl IH]; intros st; simpl.
  - by intros [= <- <-].
  - destruct (invoke _ _ _ _ _ _ _) as [[e|] st1] eqn:Hinv;
      apply invoke_indices in Hinv as [_ Hi].
    + intros [= <- <-]. rewrite Hi. unfold note_onceHandler.
      destruct (once r); [|done]. by destruct (findIndex _ _).
    + intros Hrun%IH. rewrite Hrun, Hi. unfold note_onceHandler.
      destruct (once r); [|done]. by destruct (findIndex _ _).
Qed.

Lemma runWildcards_never_once b n d live cl st oe st' :
  Forall (λ r, w_once r = false) cl →
  runWildcards call report b n d live cl st = (oe, st') →
  p_onceWildcardIndices st' = p_onceWildcardIndices st.
Proof.
  intros Hcl. revert st.
  induction Hcl as [|r cl Hr _ IH]; intros st; simpl.
  - by intros [= <- <-].
  - destruct (applyFilter (w_filter r) n d) as [[|]|e0];
      [|apply IH|by intros [= <- <-]].
    destruct (invoke _ _ _ _ _ _ _) as [[e|] st1] eqn:Hinv;
      apply invoke_indices in Hinv as [_ Hi].
    + intros [= <- <-]. rewrite Hi. unfold note_onceWildcard.
      by rewrite Hr.
    + intros Hrun%IH. rewrite Hrun, Hi. unfold note_onceWildcard.
      by rewrite Hr.
Qed.

(** No public operation registers a wildcard record with [once] set
    ([onAny] is the only one that adds a wildcard record, and it sets
    [once: false]), so in every state that operations on a new bus reach no
    wildcard record is a once record, and [emit] leaves the wildcard list as
    it is: its once-pruning of wildcard records never removes anything. *)
Theorem emit_keeps_wildcards o ops w0 n d now :
  let s := run call report ops (EventBus_new o, w0) in
  Forall (λ r, w_once r = false) (wildcardHandlers s.1) ∧
  wildcardHandlers (emit_bus (emit call report s.1 n d now s.2)) =
    wildcardHandlers s.1.
Proof.
  intros s.
  assert (Forall (λ r, w_once r = false) (wildcardHandlers s.1)) as Hs.
  { subst s. apply run_wildcards_never_once. constructor. }
  split; [done|]. generalize dependent s. intros [b w] Hb. simpl in *.
  unfold emit. destruct (validateEventName n); [|done].
  destruct (_ && _); [done|].
  destruct (runHandlers _ _ _ _ _ _ _ _) as [[e|] st] eqn:H1; [done|].
  destruct (runWildcards _ _ _ _ _ _ _ _) as [[e|] st'] eqn:H2; [done|].
  simpl. apply runHandlers_wildcardIndices in H1.
  apply runWildcards_never_once in H2; [|done].
  rewrite H2, H1. done.
Qed.

(** ** What [emit] leaves alone *)

(** [emit] never adds a record and never touches the bucket of another
    name: the buckets of the other names are as before, the bucket of its own
    name and the wildcard list keep their records in order up to removals;
    and an [emit] that throws (for any reason) removes nothing at all. *)
Theorem emit_touches_own_bucket_only b n d now w :
  let r := emit call report b n d now w in
  (∀ name, name ≠ n → handlers (emit_bus r) !! name = handlers b !! name) ∧
  bucket (emit_bus r) n `sublist_of` bucket b n ∧
  wildcardHandlers (emit_bus r) `sublist_of` wildcardHandlers b ∧
  (∀ e, emit_result r = Raise e →
        handlers (emit_bus r) = handlers b ∧
        wildcardHandlers (emit_bus r) = wildcardHandlers b).
Proof.
  intros r. split_and!.
  - intros name Hne. subst r. unfold emit.
    destruct (validateEventName n); [|done].
    destruct (_ && _); [done|].
    destruct (runHandlers _ _ _ _ _ _ _ _) as [[e|] st]; [done|].
    destruct (runWildcards _ _ _ _ _ _ _ _) as [[e|] st']; [done|].
    simpl. destruct (handlers b !! n) eqn:Hn; case_match; simpl;
      rewrite ?lookup_delete_ne, ?lookup_insert_ne by done; done.
  - unfold bucket at 1.
    destruct (handlers (emit_bus r) !! n) as [hs'|] eqn:Hl; simpl;
      [|apply sublist_nil_l].
    apply emit_handlers_lookup in Hl as (hs & Hhs & Hsub & _).
    unfold bucket. by rewrite Hhs.
  - apply emit_wildcards_sublist.
  - intros e. subst r. unfold emit.
    destruct (validateEventName n); [|done].
    destruct (_ && _); [done|].
    destruct (runHandlers _ _ _ _ _ _ _ _) as [[e1|] st]; [done|].
    destruct (runWildcards _ _ _ _ _ _ _ _) as [[e1|] st']; done.
Qed.

(** ** [clear] *)

(** After [clear] the bus has no event name and no listener of either kind,
    so an [emit] calls nothing (and throws exactly when empty events are not
    allowed); the history and the options are kept. *)
Theorem clear_removes_all b n d now w :
  validateEventName n = true →
  let b' := clear b in
  eventNames b' = [] ∧
  listenerCount (Err:=Err) b' n = Ok 0%nat ∧
  wildcardListenerCount b' = 0%nat ∧
  hasListeners (Err:=Err) b' n = Ok false ∧
  hasAnyListeners b' = false ∧
  eventHistory b' = eventHistory b ∧
  options b' = options b ∧
  let r := emit call report b' n d now w in
  emit_trace r = [] ∧ emit_world r = w ∧
  emit_result r =
    if allowEmptyEvents (options b) then Ok None else Raise (NoSubscribers n).
Proof.
  intros Hv b'. split_and!; try done.
  - unfold listenerCount. by rewrite Hv.
  - unfold hasListeners. by rewrite Hv.
  - intros r. subst r. unfold emit. rewrite Hv. simpl. unfold bucket. simpl.
    rewrite lookup_empty. simpl.
    destruct (allowEmptyEvents (options b)); simpl; [|done].
    by rewrite andb_false_r.
Qed.

(** The registries and the history are all the state there is, as long as
    [restoreFromSnapshot] is not used: [clear] followed by [clearHistory]
    gives the bus as the constructor made it. *)
Theorem clear_and_clearHistory_reset o ops w0 :
  forallb (λ op, negb (is_restore op)) ops = true →
  clearHistory (clear (run call report ops (EventBus_new o, w0)).1) =
    EventBus_new o.
Proof.
  intros Hops.
  pose proof (run_options call report ops (EventBus_new o) w0 Hops) as Ho.
  pose proof (run_fixed call report ops (EventBus_new o) w0) as [He Hm].
  destruct (run call report ops (EventBus_new o, w0)).1. simpl in *.
  unfold clearHistory, clear, set_eventHistory, set_wildcardHandlers,
    set_handlers. simpl. by rewrite Ho, He, Hm.
Qed.

(** ** [getState] and [hasAnyListeners] *)

(** In a state reached without [restoreFromSnapshot]: [eventCount] is the
    number of names [eventNames] lists and does not exceed
    [totalListeners]; the count of any single name does not exceed
    [totalListeners] either; and [hasAnyListeners] holds exactly when there
    is a listener of either kind. *)
Theorem getState_counts o ops w0 n :
  forallb (λ op, negb (is_restore op)) ops = true →
  let b := (run call report ops (EventBus_new o, w0)).1 in
  let st := getState b in
  eventCount st = length (eventNames b) ∧
  (eventCount st ≤ totalListeners st)%nat ∧
  (length (bucket b n) ≤ totalListeners st)%nat ∧
  historySize st = length (getHistory b) ∧
  (hasAnyListeners b = true ↔
   (0 < totalListeners st + getWildcardListenerCount b)%nat).
Proof.
  intros Hops b st.
  assert (buckets_nonempty b) as Hne.
  { subst b. apply run_nonempty; [done|]. intros name hs. simpl.
    by rewrite lookup_empty. }
  assert (totalListeners st =
          sum_list (length <$> (map_to_list (handlers b)).*2)) as Ht.
  { subst st. simpl. by rewrite foldl_length_sum. }
  assert (eventCount st = length (map_to_list (handlers b)).*2) as Hc.
  { subst st. simpl. by rewrite length_fmap, length_map_to_list. }
  assert (eventCount st ≤ totalListeners st)%nat as Hle.
  { rewrite Hc, Ht. apply sum_list_nonempty.
    apply Forall_forall. intros hs [[name hs'] [-> Hin]]%list_elem_of_fmap.
    apply elem_of_map_to_list in Hin. simpl. by eapply Hne. }
  assert (eventCount st = size (handlers b)) as Hsz by done.
  assert (historySize st = length (getHistory b)) as Hh by done.
  clearbody st. split_and!.
  - unfold eventNames. by rewrite Hsz, length_fmap, length_map_to_list.
  - done.
  - rewrite Ht. unfold bucket.
    destruct (handlers b !! n) as [hs|] eqn:Hl; simpl; [|lia].
    apply sum_list_elem. apply list_elem_of_fmap.
    exists (n, hs). split; [done|]. by apply elem_of_map_to_list.
  - done.
  - unfold hasAnyListeners, getWildcardListenerCount, wildcardListenerCount.
    rewrite <-Hsz.
    rewrite orb_true_iff, !bool_decide_eq_true. split; [lia|].
    intros Hpos.
    destruct (decide (0 < length (wildcardHandlers b))%nat); [by right|].
    left. destruct (decide (eventCount st = 0%nat)) as [Hz|]; [|lia].
    rewrite Hc in Hz. apply length_zero_iff_nil in Hz.
    rewrite Ht, Hz in Hpos. simpl in Hpos. lia.
Qed.

(** ** Snapshots of a restored bus *)

(** A snapshot records the numbers of listeners, and a restored bus has
    none: a snapshot taken from a restored bus restores to a bus without any
    event name.  The history and the options pass through both
    generations. *)
Theorem second_restore_loses_names b1 b2 snapshot :
  let r1 := restoreFromSnapshot b1 snapshot in
  let r2 := restoreFromSnapshot b2 (getSnapshot r1) in
  handlers r2 = ∅ ∧ eventNames r2 = [] ∧
  wildcardHandlers r2 = [] ∧
  getHistory r2 = s_history snapshot ∧
  options r2 = s_options snapshot.
Proof.
  intros r1 r2.
  assert (handlers r2 = ∅) as He.
  { apply map_eq. intros name. subst r2 r1.
    rewrite restoreFromSnapshot_handlers, lookup_empty.
    cbn [getSnapshot s_listenerCounts].
    rewrite lookup_fmap, restoreFromSnapshot_handlers.
    destruct (s_listenerCounts snapshot !! name) as [count|]; simpl; [|done].
    by case_bool_decide. }
  split_and!; try done.
  unfold eventNames. by rewrite He, map_to_list_empty.
Qed.

End BusEdges.

(** ** Concrete runs *)

(** A name of a no-break space (U+00A0) and a space is rejected by [emit],
    which leaves [mixed_bus] and the world alone. *)
Lemma blank_names_rejected_witness :
  validateEventName (utf8 [0xC2; 0xA0; 0x20]%N) = false ∧
  emit demo_call demo_report mixed_bus (utf8 [0xC2; 0xA0; 0x20]%N) 0%nat 0 [] =
    {| emit_result := Raise InvalidArgument; emit_bus := mixed_bus;
       emit_world := []; emit_trace := [] |}.
Proof.
  destruct (blank_names_rejected demo_call demo_report mixed_bus
              (utf8 [0xC2; 0xA0; 0x20]%N) false 1%nat Normal None 0%nat 0 [])
    as [_ Hrej].
  destruct (Hrej eq_refl) as (_ & _ & He & _).
  split; [reflexivity|exact He].
Defined.

(** A third subscription to ["e"] on [mixed_bus]. *)
Lemma subscribe_adds_one_listener_witness :
  listenerCount (Err:=nat) (on (Err:=nat) mixed_bus "e" 3 Critical).2 "e" =
    Ok 3%nat.
Proof.
  destruct (subscribe_adds_one_listener (Err:=nat) mixed_bus "e" false 3%nat
              Critical eq_refl) as (Hc & _).
  exact Hc.
Defined.

(** After [pruning_ops] the bucket of ["b"] holds handler [3]; subscribing
    handler [5] in front of it and unsubscribing gives the bucket back. *)
Lemma subscribe_unsubscribe_round_trip_witness :
  bucket
    (unsubscribe (Err:=nat) (NamedSubscription "b" 5)
       (on (Err:=nat)
          (run demo_call demo_report pruning_ops
             (EventBus_new default_options, [])).1 "b" 5 High).2).2 "b" =
  [{| handler := 3; priority := Low; once := false |}].
Proof.
  assert (5%nat ∉ handler <$>
            bucket (run demo_call demo_report pruning_ops
                      (EventBus_new default_options, [])).1 "b") as Hh.
  { apply (bool_decide_unpack
             (5%nat ∉ handler <$>
                bucket (run demo_call demo_report pruning_ops
                          (EventBus_new default_options, [])).1 "b")).
    by vm_compute. }
  destruct (subscribe_unsubscribe_round_trip demo_call demo_report
              default_options pruning_ops [] "b" false 5%nat High eq_refl Hh)
    as [_ Hb].
  exact (Hb "b").
Defined.

(** A second wildcard subscription on [strict_filtered_bus], taken back. *)
Lemma onAny_unsubscribe_round_trip_witness :
  unsubscribe (Err:=nat) (WildcardSubscription 2)
    (onAny (Err:=nat) strict_filtered_bus 2 None).2 =
  (Ok (), strict_filtered_bus).
Proof.
  assert (2%nat ∉ w_handler <$>
            wildcardHandlers
              (run demo_call demo_report [OpOnAny 1 (Some (inr reject_all))]
                 (EventBus_new strict_options, [])).1) as Hh.
  { apply (bool_decide_unpack
             (2%nat ∉ w_handler <$>
                wildcardHandlers
                  (run demo_call demo_report
                     [OpOnAny 1 (Some (inr reject_all))]
                     (EventBus_new strict_options, [])).1)).
    by vm_compute. }
  destruct (onAny_unsubscribe_round_trip demo_call demo_report strict_options
              [OpOnAny 1 (Some (inr reject_all))] [] 2%nat None Hh)
    as (_ & _ & _ & Hun).
  exact Hun.
Defined.

(** An [emit] of ["e"] on [mixed_bus] after [clear] calls nothing. *)
Lemma clear_removes_all_witness :
  emit_trace (emit demo_call demo_report (clear mixed_bus) "e" 0%nat 0 []) = [].
Proof.
  destruct (clear_removes_all demo_call demo_report mixed_bus "e" 0%nat 0 []
              eq_refl) as (_ & _ & _ & _ & _ & _ & _ & Ht & _).
  exact Ht.
Defined.

(** [clear] and [clearHistory] after [pruning_ops]. *)
Lemma clear_and_clearHistory_reset_witness :
  clearHistory
    (clear (run demo_call demo_report pruning_ops
              (EventBus_new default_options, [])).1) =
  EventBus_new default_options.
Proof.
  exact (clear_and_clearHistory_reset demo_call demo_report default_options
           pruning_ops [] eq_refl).
Defined.

(** The counts of [getState] after [pruning_ops]: one name, one listener. *)
Lemma getState_counts_witness :
  (eventCount
     (getState (run demo_call demo_report pruning_ops
                  (EventBus_new default_options, [])).1) ≤
   totalListeners
     (getState (run demo_call demo_report pruning_ops
                  (EventBus_new default_options, [])).1))%nat.
Proof.
  destruct (getState_counts demo_call demo_report default_options pruning_ops
              [] "b" eq_refl) as (_ & Hle & _).
  exact Hle.
Defined.

(** * The manager

    Facts about [forEach], [Set] and [Map] as the manager uses them, then
    about the manager itself. *)

Section CollectionFacts.

Context {A : Type}.

Lemma forEach_invariant {S E} (P : S → Prop) (f : A → S → option E * S)
    (l : list A) (s : S) :
  (∀ x s, x ∈ l → P s → P (f x s).2) → P s → P (Manager.forEach f l s).2.
Proof.
  revert s. induction l as [|x l IH]; intros s Hf Hs; simpl; [done|].
  pose proof (Hf x s (list_elem_of_here _ _) Hs) as Hx.
  destruct (f x s) as [[e|] s']; simpl in *; [done|].
  apply IH; [|done]. intros y s1 Hy. apply Hf. by right.
Qed.

Lemma forEach_succeeds {S E} (P : S → Prop) (f : A → S → option E * S)
    (l : list A) (s : S) :
  (∀ x s, x ∈ l → P s → (f x s).1 = None ∧ P (f x s).2) → P s →
  (Manager.forEach f l s).1 = None ∧ P (Manager.forEach f l s).2.
Proof.
  revert s. induction l as [|x l IH]; intros s Hf Hs; simpl; [done|].
  pose proof (Hf x s (list_elem_of_here _ _) Hs) as [Hx1 Hx2].
  destruct (f x s) as [[e|] s']; simpl in *; [done|].
  apply IH; [|done]. intros y s1 Hy. apply Hf. by right.
Qed.

Lemma forEach_snoc {S E} (f : A → S → option E * S) (l : list A) x (s : S) :
  (Manager.forEach f l s).1 = None →
  Manager.forEach f (l ++ [x]) s = f x (Manager.forEach f l s).2.
Proof.
  revert s. induction l as [|y l IH]; intros s; simpl.
  - intros _. by destruct (f x s) as [[e|] s'].
  - destruct (f y s) as [[e|] s']; simpl; [done|]. apply IH.
Qed.

Lemma Map_get_Some (k : string) (v : A) m :
  Manager.Map_get k m = Some v → (k, v) ∈ m.
Proof.
  induction m as [|[k' v'] m IH]; simpl; [done|].
  case_bool_decide as Hk.
  - intros [= ->]. subst. left.
  - intros Hg. right. by apply IH.
Qed.

Lemma Map_get_is_Some (k : string) (m : list (string * A)) :
  is_Some (Manager.Map_get k m) ↔ k ∈ m.*1.
Proof.
  induction m as [|[k' v'] m IH]; csimpl.
  - split; [by intros [? ?]|by intros ?%elem_of_nil].
  - case_bool_decide as Hk.
    + subst. split; [left|eauto].
    + rewrite IH. split; [by right|].
      intros [?|?]%elem_of_cons; [congruence|done].
Qed.

Lemma Map_get_None (k : string) (m : list (string * A)) :
  Manager.Map_get k m = None ↔ k ∉ m.*1.
Proof.
  rewrite <-Map_get_is_Some, eq_None_not_Some. done.
Qed.

Lemma Map_has_true (k : string) (m : list (string * A)) :
  Manager.Map_has k m = true ↔ k ∈ m.*1.
Proof.
  unfold Manager.Map_has. by rewrite bool_decide_eq_true, Map_get_is_Some.
Qed.

Lemma Map_has_false (k : string) (m : list (string * A)) :
  Manager.Map_has k m = false ↔ k ∉ m.*1.
Proof.
  unfold Manager.Map_has.
  by rewrite bool_decide_eq_false, Map_get_is_Some.
Qed.

Lemma Map_get_set (k k' : string) (v : A) m :
  Manager.Map_get k' (Manager.Map_set k v m) =
    if decide (k = k') then Some v else Manager.Map_get k' m.
Proof.
  induction m as [|[k1 v1] m IH]; simpl.
  - case_bool_decide; by case_decide.
  - case_bool_decide as Hk1; simpl.
    + subst k1. case_bool_decide; by case_decide.
    + rewrite IH. case_bool_decide; [|done]. subst k1. by case_decide.
Qed.

Lemma Map_set_keys_present (k : string) (v : A) m :
  k ∈ m.*1 → (Manager.Map_set k v m).*1 = m.*1.
Proof.
  induction m as [|[k1 v1] m IH]; csimpl; [by intros ?%elem_of_nil|].
  case_bool_decide as Hk1; csimpl; [by subst|].
  intros [?|Hin]%elem_of_cons; [congruence|]. by rewrite IH.
Qed.

Lemma Map_set_keys_absent (k : string) (v : A) m :
  k ∉ m.*1 → (Manager.Map_set k v m).*1 = m.*1 ++ [k].
Proof.
  induction m as [|[k1 v1] m IH]; csimpl; [done|].
  intros Hnin. apply not_elem_of_cons in Hnin as [Hne Hnin].
  rewrite bool_decide_false by done. csimpl. by rewrite IH.
Qed.

Lemma Map_set_elem (k : string) (v : A) m e :
  e ∈ Manager.Map_set k v m → e = (k, v) ∨ e ∈ m.
Proof.
  induction m as [|[k1 v1] m IH]; simpl.
  - intros ->%list_elem_of_singleton. by left.
  - case_bool_decide.
    + intros [->|?]%elem_of_cons; [by left|]. right. by right.
    + intros [->|?]%elem_of_cons; [right; left|].
      destruct IH as [?|?]; [done|by left|]. right. by right.
Qed.

Lemma Map_set_same (k : string) (v : A) m :
  Manager.Map_get k m = Some v → Manager.Map_set k v m = m.
Proof.
  induction m as [|[k1 v1] m IH]; simpl; [done|].
  case_bool_decide.
  - intros [= ->]. by subst.
  - intros ?. by rewrite IH.
Qed.

Lemma Map_delete_keys (k : string) (m : list (string * A)) :
  (Manager.Map_delete k m).*1 = filter (λ k', k' ≠ k) m.*1.
Proof.
  unfold Manager.Map_delete.
  induction m as [|[k1 v1] m IH]; csimpl; [done|].
  rewrite !filter_cons. simpl. case_decide; csimpl; by rewrite IH.
Qed.

Lemma Map_get_delete (k k' : string) (m : list (string * A)) :
  Manager.Map_get k' (Manager.Map_delete k m) =
    if decide (k = k') then None else Manager.Map_get k' m.
Proof.
  unfold Manager.Map_delete.
  induction m as [|[k1 v1] m IH]; simpl; [by case_decide|].
  rewrite filter_cons. simpl.
  destruct (decide (k1 ≠ k)) as [Hk1|Hk1]; simpl.
  - rewrite IH. case_bool_decide; [|done]. subst. by case_decide.
  - apply dec_stable in Hk1. subst k1. rewrite IH.
    case_decide; [done|]. by rewrite bool_decide_false.
Qed.

End CollectionFacts.

Section SetFacts.

Context {A : Type} `{!EqDecision A}.

Lemma Set_add_elem (x y : A) s :
  y ∈ Manager.Set_add x s ↔ y = x ∨ y ∈ s.
Proof.
  unfold Manager.Set_add. case_bool_decide.
  - split; [by right|]. by intros [->|?].
  - rewrite elem_of_app, list_elem_of_singleton. tauto.
Qed.

Lemma Set_add_NoDup (x : A) s : NoDup s → NoDup (Manager.Set_add x s).
Proof.
  unfold Manager.Set_add. case_bool_decide; [done|].
  intros Hs. apply NoDup_app. split_and!; [done| |apply NoDup_singleton].
  intros y Hy ->%list_elem_of_singleton. done.
Qed.

Lemma Set_add_present (x : A) s : x ∈ s → Manager.Set_add x s = s.
Proof. unfold Manager.Set_add. intros. by rewrite bool_decide_true. Qed.

Lemma Set_addAll_elem (xs : list A) s y :
  y ∈ Manager.Set_addAll xs s ↔ y ∈ xs ∨ y ∈ s.
Proof.
  unfold Manager.Set_addAll. revert s.
  induction xs as [|x xs IH]; intros s; simpl.
  - split; [by right|]. by intros [?%elem_of_nil|?].
  - rewrite IH, Set_add_elem, elem_of_cons. tauto.
Qed.

Lemma Set_addAll_NoDup (xs : list A) s :
  NoDup s → NoDup (Manager.Set_addAll xs s).
Proof.
  unfold Manager.Set_addAll. revert s.
  induction xs as [|x xs IH]; intros s Hs; simpl; [done|].
  by apply IH, Set_add_NoDup.
Qed.

Lemma Set_addAll_present (xs : list A) s :
  Forall (λ x, x ∈ s) xs → Manager.Set_addAll xs s = s.
Proof.
  unfold Manager.Set_addAll.
  induction 1 as [|x xs Hx _ IH]; simpl; [done|].
  by rewrite Set_add_present.
Qed.

Lemma Set_addAll_length (xs : list A) s :
  (length s ≤ length (Manager.Set_addAll xs s))%nat.
Proof.
  unfold Manager.Set_addAll. revert s.
  induction xs as [|x xs IH]; intros s; simpl; [done|].
  etrans; [|apply IH]. unfold Manager.Set_add.
  case_bool_decide; [done|]. rewrite length_app. simpl. lia.
Qed.

Lemma Set_new_elem (xs : list A) y : y ∈ Manager.Set_new xs ↔ y ∈ xs.
Proof.
  unfold Manager.Set_new. rewrite Set_addAll_elem.
  split; [|by left]. by intros [?|?%elem_of_nil].
Qed.

Lemma Set_new_NoDup (xs : list A) : NoDup (Manager.Set_new xs).
Proof. apply Set_addAll_NoDup. constructor. Qed.

Lemma Set_delete_elem (x y : A) s :
  y ∈ Manager.Set_delete x s ↔ y ≠ x ∧ y ∈ s.
Proof. unfold Manager.Set_delete. by rewrite list_elem_of_filter. Qed.

Lemma Set_delete_NoDup (x : A) s : NoDup s → NoDup (Manager.Set_delete x s).
Proof. apply NoDup_filter. Qed.

Lemma Set_delete_absent (x : A) s : x ∉ s → Manager.Set_delete x s = s.
Proof.
  intros Hx. unfold Manager.Set_delete. apply filter_all.
  apply Forall_forall. intros y Hy ->. done.
Qed.

Lemma Set_deleteAll_NoDup (xs : list A) s :
  NoDup s → NoDup (Manager.Set_deleteAll xs s).
Proof.
  unfold Manager.Set_deleteAll. revert s.
  induction xs as [|x xs IH]; intros s Hs; simpl; [done|].
  by apply IH, Set_delete_NoDup.
Qed.

Lemma Set_deleteAll_absent (xs : list A) s :
  Forall (λ x, x ∉ s) xs → Manager.Set_deleteAll xs s = s.
Proof.
  unfold Manager.Set_deleteAll.
  induction 1 as [|x xs Hx _ IH]; simpl; [done|].
  by rewrite Set_delete_absent.
Qed.

(** Adding to a set a name that is not in it, and deleting it again. *)
Lemma Set_delete_add (x : A) s :
  x ∉ s → Manager.Set_delete x (Manager.Set_add x s) = s.
Proof.
  intros Hx. unfold Manager.Set_add, Manager.Set_delete.
  rewrite bool_decide_false by done. rewrite filter_app.
  rewrite filter_all; [|apply Forall_forall; by intros y Hy ->].
  rewrite filter_cons_False by (by intros ?). simpl. apply app_nil_r.
Qed.

Lemma Set_addAll_prefix (xs : list A) s :
  s `prefix_of` Manager.Set_addAll xs s.
Proof.
  unfold Manager.Set_addAll. revert s.
  induction xs as [|x xs IH]; intros s; simpl; [done|].
  etrans; [|apply IH]. unfold Manager.Set_add.
  case_bool_decide; [done|]. by apply prefix_app_r.
Qed.

Lemma Set_deleteAll_elem (xs : list A) s y :
  y ∈ Manager.Set_deleteAll xs s ↔ y ∈ s ∧ y ∉ xs.
Proof.
  unfold Manager.Set_deleteAll. revert s.
  induction xs as [|x xs IH]; intros s; simpl.
  - split; [|by intros [? _]]. intros ?. split; [done|]. apply not_elem_of_nil.
  - rewrite IH, Set_delete_elem, not_elem_of_cons. tauto.
Qed.

Lemma Set_deleteAll_sublist (xs : list A) s :
  Manager.Set_deleteAll xs s `sublist_of` s.
Proof.
  unfold Manager.Set_deleteAll. revert s.
  induction xs as [|x xs IH]; intros s; simpl; [done|].
  etrans; [apply IH|]. apply sublist_filter.
Qed.

End SetFacts.

Section ManagerFacts.

Context {V Err Promise World : Type} `{!Manager.StrictEquality V}.

Variable call : EventHandler → @Payload (Manager.ManagerData V) → World →
                @Outcome Err Promise * World.
Variable report : ErrorCallback → Err → string → World → option Err * World.
Variable notify : Manager.StateListener → option V → option V → World →
                  option Err * World.

Implicit Types (m : @Manager.EventManager V Err) (w : World).

(** ** What the operations leave alone *)

Lemma manager_recordEvent_bounded m n d now :
  Manager.history_bounded m →
  Manager.history_bounded (Manager.recordEvent m n d now).
Proof.
  unfold Manager.history_bounded, Manager.recordEvent. simpl.
  destruct (Manager.maxHistoryLength (Manager.options m)) as [cap|]; [|done].
  intros Hb. case_bool_decide as Hlen.
  - destruct (Manager.eventHistory m) as [|x h]; simpl in *; [lia|].
    rewrite length_app in *. simpl in *. lia.
  - lia.
Qed.

Lemma manager_recordEvent_last m n d now :
  Manager.keeps_record (Manager.options m) = true →
  last (Manager.eventHistory (Manager.recordEvent m n d now)) =
    Some (Manager.record_of n d now).
Proof.
  unfold Manager.keeps_record, Manager.recordEvent. simpl.
  destruct (Manager.maxHistoryLength (Manager.options m)) as [cap|];
    [|intros _; apply last_snoc].
  intros Hcap%bool_decide_eq_true.
  case_bool_decide as Hlen; [|apply last_snoc].
  destruct (Manager.eventHistory m) as [|x h]; simpl in *.
  - lia.
  - apply last_snoc.
Qed.

(** [emit] changes the history and the bus only. *)
Lemma manager_emit_keeps m n d now now' w :
  let m' := (Manager.emit call report m n d now now' w).1.2 in
  Manager.options m' = Manager.options m ∧
  Manager.stateValues m' = Manager.stateValues m ∧
  Manager.stateListeners m' = Manager.stateListeners m ∧
  Manager.eventGroups m' = Manager.eventGroups m ∧
  Manager.groupSubscriptions m' = Manager.groupSubscriptions m ∧
  Manager.arrays m' = Manager.arrays m ∧
  Manager.sets m' = Manager.sets m ∧
  Manager.next m' = Manager.next m ∧
  (Manager.history_bounded m → Manager.history_bounded m').
Proof.
  unfold Manager.emit. simpl.
  destruct (Manager.recordHistory (Manager.options m)); simpl;
    split_and!; try done.
  apply manager_recordEvent_bounded.
Qed.

Lemma manager_emit_void m n d now now' w :
  Manager.emit_void call report m n d now now' w =
    (Manager.void (Manager.emit call report m n d now now' w).1.1,
     (Manager.emit call report m n d now now' w).1.2,
     (Manager.emit call report m n d now now' w).2).
Proof. done. Qed.

Lemma unsubscribeGroup_keeps g m :
  let m' := (Manager.unsubscribeGroup (Err:=Err) g m).2 in
  Manager.options m' = Manager.options m ∧
  Manager.stateValues m' = Manager.stateValues m ∧
  Manager.stateListeners m' = Manager.stateListeners m ∧
  Manager.eventHistory m' = Manager.eventHistory m ∧
  Manager.eventGroups m' = Manager.eventGroups m ∧
  Manager.groupSubscriptions m' = Manager.groupSubscriptions m ∧
  Manager.sets m' = Manager.sets m ∧
  Manager.next m' = Manager.next m.
Proof.
  unfold Manager.unsubscribeGroup.
  destruct (Manager.forEach _ _ _) as [[e|] b]; simpl; [done|].
  by case_match.
Qed.

Lemma forEach_unsubscribeGroup_keeps (l : list Manager.GroupSubscription) m :
  let m' := (Manager.forEach (Manager.unsubscribeGroup (Err:=Err)) l m).2 in
  Manager.options m' = Manager.options m ∧
  Manager.stateValues m' = Manager.stateValues m ∧
  Manager.stateListeners m' = Manager.stateListeners m ∧
  Manager.eventHistory m' = Manager.eventHistory m ∧
  Manager.eventGroups m' = Manager.eventGroups m ∧
  Manager.groupSubscriptions m' = Manager.groupSubscriptions m ∧
  Manager.sets m' = Manager.sets m ∧
  Manager.next m' = Manager.next m.
Proof.
  apply (forEach_invariant
           (λ m', Manager.options m' = Manager.options m ∧
                  Manager.stateValues m' = Manager.stateValues m ∧
                  Manager.stateListeners m' = Manager.stateListeners m ∧
                  Manager.eventHistory m' = Manager.eventHistory m ∧
                  Manager.eventGroups m' = Manager.eventGroups m ∧
                  Manager.groupSubscriptions m' =
                    Manager.groupSubscriptions m ∧
                  Manager.sets m' = Manager.sets m ∧
                  Manager.next m' = Manager.next m)); [|done].
  intros g m1 _ H1. pose proof (unsubscribeGroup_keeps g m1) as H2.
  simpl in H2. intuition congruence.
Qed.

Lemma offGroup_keeps m groupName :
  let m' := (Manager.offGroup (Err:=Err) m groupName).2 in
  Manager.options m' = Manager.options m ∧
  Manager.stateValues m' = Manager.stateValues m ∧
  Manager.stateListeners m' = Manager.stateListeners m ∧
  Manager.eventHistory m' = Manager.eventHistory m ∧
  Manager.eventGroups m' = Manager.eventGroups m ∧
  (Manager.groupSubscriptions m').*1 = (Manager.groupSubscriptions m).*1 ∧
  Manager.sets m' = Manager.sets m.
Proof.
  unfold Manager.offGroup.
  destruct (Manager.Map_get _ _) as [ref|] eqn:Hg; [|done].
  pose proof (forEach_unsubscribeGroup_keeps (Manager.array m ref) m) as H1.
  simpl in H1. destruct (Manager.forEach _ _ _) as [[e|] m1]; simpl in *.
  - destruct H1 as (? & ? & ? & ? & ? & -> & ? & ?). done.
  - destruct H1 as (? & ? & ? & ? & ? & -> & ? & ?). split_and!; try done.
    apply Map_set_keys_present, Map_get_is_Some. eauto.
Qed.

Lemma forEach_offGroup_keeps (l : list (string * list string)) m :
  let m' := (Manager.forEach
               (λ (g : string * list string) m,
                  Manager.offGroup (Err:=Err) m g.1) l m).2 in
  Manager.options m' = Manager.options m ∧
  Manager.stateValues m' = Manager.stateValues m ∧
  Manager.stateListeners m' = Manager.stateListeners m ∧
  Manager.eventHistory m' = Manager.eventHistory m ∧
  Manager.eventGroups m' = Manager.eventGroups m ∧
  (Manager.groupSubscriptions m').*1 = (Manager.groupSubscriptions m).*1 ∧
  Manager.sets m' = Manager.sets m.
Proof.
  apply (forEach_invariant
           (λ m', Manager.options m' = Manager.options m ∧
                  Manager.stateValues m' = Manager.stateValues m ∧
                  Manager.stateListeners m' = Manager.stateListeners m ∧
                  Manager.eventHistory m' = Manager.eventHistory m ∧
                  Manager.eventGroups m' = Manager.eventGroups m ∧
                  (Manager.groupSubscriptions m').*1 =
                    (Manager.groupSubscriptions m).*1 ∧
                  Manager.sets m' = Manager.sets m)); [|done].
  intros g m1 _ H1. pose proof (offGroup_keeps m1 g.1) as H2.
  simpl in H2. intuition congruence.
Qed.

Lemma subscribeGroup_keeps isOnce m groupName h p :
  let m' := (Manager.subscribeGroup (Err:=Err) isOnce m groupName h p).2 in
  Manager.options m' = Manager.options m ∧
  Manager.stateValues m' = Manager.stateValues m ∧
  Manager.stateListeners m' = Manager.stateListeners m ∧
  Manager.eventHistory m' = Manager.eventHistory m ∧
  Manager.eventGroups m' = Manager.eventGroups m ∧
  Manager.groupSubscriptions m' = Manager.groupSubscriptions m ∧
  Manager.sets m' = Manager.sets m.
Proof.
  unfold Manager.subscribeGroup.
  destruct (Manager.Map_get _ (Manager.eventGroups m)); [|done].
  destruct (Manager.forEach _ _ _) as [[e|] s]; simpl; [done|].
  by destruct (Manager.Map_get _ _).
Qed.

(** No operation changes the options, and every operation keeps the history
    within its bound. *)
Lemma manager_step_history m w op :
  let m' := (Manager.step call report notify (m, w) op).1 in
  Manager.options m' = Manager.options m ∧
  (Manager.history_bounded m → Manager.history_bounded m').
Proof.
  assert (∀ m1 n d t t' w1,
    Manager.options m1 = Manager.options m →
    (Manager.history_bounded m → Manager.history_bounded m1) →
    let m' := (Manager.emit_void call report m1 n d t t' w1).1.2 in
    Manager.options m' = Manager.options m ∧
    (Manager.history_bounded m → Manager.history_bounded m')) as Hemit.
  { intros m1 n d t t' w1 Ho Hb. rewrite manager_emit_void. simpl.
    pose proof (manager_emit_keeps m1 n d t t' w1) as H1. simpl in H1.
    destruct H1 as (-> & _ & _ & _ & _ & _ & _ & _ & H1). auto. }
  destruct op; simpl.
  - unfold Manager.createGroup.
    destruct (Manager.Map_has _ _); [done|]. by apply Hemit.
  - unfold Manager.addToGroup.
    destruct (Manager.Map_get _ _); [|done].
    case_bool_decide; [|done]. by apply Hemit.
  - unfold Manager.removeFromGroup.
    destruct (Manager.Map_get _ _); [|done].
    case_bool_decide; [|done]. by apply Hemit.
  - unfold Manager.deleteGroup.
    destruct (negb _); [done|].
    pose proof (offGroup_keeps m groupName) as H0. simpl in H0.
    destruct H0 as (Ho & _ & _ & Hh & _).
    destruct (Manager.offGroup m groupName) as [[e|] m1];
      simpl in Ho, Hh; cbv iota beta.
    + simpl. unfold Manager.history_bounded. by rewrite Ho, Hh.
    + apply Hemit; [done|]. unfold Manager.history_bounded. simpl.
      by rewrite Ho, Hh.
  - pose proof (subscribeGroup_keeps false m groupName h p) as H0.
    simpl in H0. unfold Manager.onGroup, Manager.history_bounded.
    destruct H0 as (-> & _ & _ & -> & _). done.
  - pose proof (subscribeGroup_keeps true m groupName h p) as H0.
    simpl in H0. unfold Manager.onceGroup, Manager.history_bounded.
    destruct H0 as (-> & _ & _ & -> & _). done.
  - pose proof (unsubscribeGroup_keeps g m) as H0.
    simpl in H0. unfold Manager.history_bounded.
    destruct H0 as (-> & _ & _ & -> & _). done.
  - pose proof (offGroup_keeps m groupName) as H0.
    simpl in H0. unfold Manager.history_bounded.
    destruct H0 as (-> & _ & _ & -> & _). done.
  - pose proof (manager_emit_keeps m eventName d now now' w) as H1.
    simpl in H1. destruct H1 as (-> & _ & _ & _ & _ & _ & _ & _ & H1). done.
  - split; [done|]. unfold Manager.history_bounded. simpl.
    intros _. destruct (Manager.maxHistoryLength _); [lia|done].
  - unfold Manager.setState.
    destruct (negb _); [done|]. destruct (Manager.strictEquals _ _); [done|].
    destruct (Manager.forEach _ _ _) as [[e|] w1]; [done|].
    by apply Hemit.
  - unfold Manager.onStateChange.
    destruct (negb _); [done|]. by destruct (Manager.stateListeners m !! key).
  - done.
  - unfold Manager.reset.
    pose proof (forEach_offGroup_keeps (Manager.eventGroups m) m) as H0.
    simpl in H0. destruct H0 as (Ho & _ & _ & Hh & _).
    destruct (Manager.forEach _ _ _) as [[e|] m1];
      simpl in Ho, Hh; cbv iota beta.
    + simpl. unfold Manager.history_bounded. by rewrite Ho, Hh.
    + apply Hemit; simpl.
      * by destruct (Manager.enableStateManagement (Manager.options m1)).
      * intros _. unfold Manager.history_bounded.
        destruct (Manager.enableStateManagement (Manager.options m1));
          simpl; destruct (Manager.maxHistoryLength _); done || lia.
  - done.
Qed.

Lemma manager_run_snoc ops op (s : @Manager.EventManager V Err * World) :
  Manager.run call report notify (ops ++ [op]) s =
  Manager.step call report notify (Manager.run call report notify ops s) op.
Proof. unfold Manager.run. by rewrite foldl_app. Qed.

(** ** Well-formed states *)

Lemma handle_ok_mono m m' g :
  (Manager.next m ≤ Manager.next m')%nat →
  Manager.handle_ok m g → Manager.handle_ok m' g.
Proof. unfold Manager.handle_ok. intros ? [? ?]. split; [done|lia]. Qed.

Lemma well_formed_ext m m' :
  Manager.eventGroups m' = Manager.eventGroups m →
  Manager.groupSubscriptions m' = Manager.groupSubscriptions m →
  Manager.arrays m' = Manager.arrays m →
  (Manager.next m ≤ Manager.next m')%nat →
  Manager.well_formed m → Manager.well_formed m'.
Proof.
  intros He Hg Ha Hn (H1 & H2 & H3 & H4). unfold Manager.well_formed.
  rewrite He, Hg, Ha. split_and!; try done.
  intros ref arr Hl. eapply Forall_impl; [by eapply H4|].
  intros g. by apply handle_ok_mono.
Qed.

Lemma array_ok m ref :
  Manager.well_formed m → Forall (Manager.handle_ok m) (Manager.array m ref).
Proof.
  intros (_ & _ & _ & H4). unfold Manager.array.
  destruct (Manager.arrays m !! ref) as [arr|] eqn:Hl; simpl; [|done].
  by eapply H4.
Qed.

Lemma subscribe_Ok isOnce (b : @EventBus (Manager.ManagerData V) Err) e h p sub b' :
  subscribe (Err:=Err) isOnce b e h p = (Ok sub, b') →
  sub = NamedSubscription e h ∧ validateEventName e = true.
Proof.
  unfold subscribe. destruct (validateEventName e); [|done].
  by intros [= <- <-].
Qed.

Lemma subscribeEach_valid isOnce h p (l : list string)
    (b : @EventBus (Manager.ManagerData V) Err) subs :
  Forall Manager.valid_subscription subs →
  Forall Manager.valid_subscription
    (Manager.forEach (Manager.subscribeEach (Err:=Err) isOnce h p) l
       (b, subs)).2.2.
Proof.
  intros Hs.
  apply (forEach_invariant
           (λ s : @EventBus (Manager.ManagerData V) Err * list EventSubscription,
              Forall Manager.valid_subscription s.2)); [|done].
  intros e [b1 subs1] _ H1. unfold Manager.subscribeEach. simpl.
  destruct (subscribe _ _ _ _ _) as [[sub|t] b2] eqn:Hsub; simpl; [|done].
  apply subscribe_Ok in Hsub as [-> Hv].
  apply Forall_app. split; [done|]. by constructor.
Qed.

Lemma unsubscribeEach_valid sub (b : @EventBus (Manager.ManagerData V) Err) :
  Manager.valid_subscription sub →
  (Manager.unsubscribeEach (Err:=Err) sub b).1 = None.
Proof.
  destruct sub as [n h|h]; simpl; intros Hv;
    unfold Manager.unsubscribeEach; simpl.
  - unfold off. rewrite Hv. by destruct (handlers b !! n).
  - by destruct (findIndex _ _).
Qed.

Lemma unsubscribeGroup_succeeds g m :
  Forall Manager.valid_subscription (Manager.subscriptions g) →
  (Manager.unsubscribeGroup (Err:=Err) g m).1 = None.
Proof.
  intros Hg. unfold Manager.unsubscribeGroup.
  destruct (forEach_succeeds (λ _, True)
              (Manager.unsubscribeEach (Err:=Err))
              (Manager.subscriptions g) (Manager.eventBus m)) as [H1 _];
    [|done|].
  { intros sub b Hin _. split; [|done]. apply unsubscribeEach_valid.
    by eapply Forall_forall in Hg. }
  destruct (Manager.forEach _ _ _) as [[e|] b]; simpl in *; [done|].
  by destruct (findIndex _ _).
Qed.

Lemma unsubscribeGroup_wf g m :
  Manager.well_formed m →
  Manager.well_formed (Manager.unsubscribeGroup (Err:=Err) g m).2.
Proof.
  intros Hwf. unfold Manager.unsubscribeGroup.
  destruct (Manager.forEach _ _ _) as [[e|] b]; simpl.
  - by apply (well_formed_ext m).
  - destruct (findIndex _ _) as [index|] eqn:Hi; simpl;
      [|by apply (well_formed_ext m)].
    pose proof (array_ok m (Manager.groupSubs g) Hwf) as Harr.
    destruct Hwf as (H1 & H2 & H3 & H4).
    split_and!; try done. simpl. intros ref arr.
    rewrite lookup_insert. case_decide as Href.
    + intros [= <-]. eapply Forall_sublist_of; [apply splice1_sublist|].
      done.
    + apply H4.
Qed.

Lemma forEach_unsubscribeGroup_wf (l : list Manager.GroupSubscription) m :
  Forall (λ g, Forall Manager.valid_subscription (Manager.subscriptions g)) l →
  Manager.well_formed m →
  (Manager.forEach (Manager.unsubscribeGroup (Err:=Err)) l m).1 = None ∧
  Manager.well_formed
    (Manager.forEach (Manager.unsubscribeGroup (Err:=Err)) l m).2.
Proof.
  intros Hl Hwf. apply (forEach_succeeds Manager.well_formed); [|done].
  intros g m1 Hg Hm1. split; [|by apply unsubscribeGroup_wf].
  apply unsubscribeGroup_succeeds. by eapply Forall_forall in Hl.
Qed.

Lemma set_groupSubscriptions_empty_wf groupName m :
  groupName ∈ (Manager.groupSubscriptions m).*1 →
  Manager.well_formed m →
  Manager.well_formed (Manager.set_groupSubscriptions_empty groupName m).
Proof.
  intros Hin (H1 & H2 & H3 & H4).
  unfold Manager.well_formed, Manager.set_groupSubscriptions_empty. simpl.
  split_and!; try done.
  - by rewrite Map_set_keys_present.
  - intros ref arr. rewrite lookup_insert. case_decide.
    + by intros [= <-].
    + intros Hl. eapply Forall_impl; [by eapply H4|].
      intros g. apply handle_ok_mono. simpl. lia.
Qed.

Lemma offGroup_wf m groupName :
  Manager.well_formed m →
  (Manager.offGroup (Err:=Err) m groupName).1 = None ∧
  Manager.well_formed (Manager.offGroup (Err:=Err) m groupName).2.
Proof.
  intros Hwf. unfold Manager.offGroup.
  destruct (Manager.Map_get _ _) as [ref|] eqn:Hg; [|done].
  pose proof (forEach_unsubscribeGroup_keeps (Manager.array m ref) m) as Hk.
  destruct (forEach_unsubscribeGroup_wf (Manager.array m ref) m) as [H1 H2];
    [|done|].
  { eapply Forall_impl; [by apply array_ok|]. by intros g [? _]. }
  simpl in Hk. destruct Hk as (_ & _ & _ & _ & _ & Hk & _).
  destruct (Manager.forEach _ _ _) as [[e|] m1]; simpl in *; [done|].
  split; [done|]. apply set_groupSubscriptions_empty_wf; [|done].
  rewrite Hk. apply Map_get_is_Some. eauto.
Qed.

Lemma forEach_offGroup_wf (l : list (string * list string)) m :
  Manager.well_formed m →
  (Manager.forEach
     (λ (g : string * list string) m, Manager.offGroup (Err:=Err) m g.1)
     l m).1 = None ∧
  Manager.well_formed
    (Manager.forEach
       (λ (g : string * list string) m, Manager.offGroup (Err:=Err) m g.1)
       l m).2.
Proof.
  intros Hwf. apply (forEach_succeeds Manager.well_formed); [|done].
  intros g m1 _ Hm1. by apply offGroup_wf.
Qed.

Lemma subscribeGroup_wf isOnce m groupName h p :
  Manager.well_formed m →
  Manager.well_formed
    (Manager.subscribeGroup (Err:=Err) isOnce m groupName h p).2.
Proof.
  intros Hwf. unfold Manager.subscribeGroup.
  destruct (Manager.Map_get _ (Manager.eventGroups m)) as [group|]; [|done].
  pose proof (subscribeEach_valid isOnce h p group (Manager.eventBus m) []
                (Forall_nil_2 _)) as Hsubs.
  destruct (Manager.forEach _ _ _) as [[e|] [b subs]]; simpl in *.
  - by apply (well_formed_ext m).
  - destruct (Manager.Map_get _ _) as [ref|]; simpl;
      [|by apply (well_formed_ext m)].
    pose proof (array_ok m ref Hwf) as Harr.
    destruct Hwf as (H1 & H2 & H3 & H4).
    split_and!; try done. simpl. intros ref' arr.
    rewrite lookup_insert. case_decide as Href.
    + intros [= <-]. apply Forall_app. split.
      * eapply Forall_impl; [exact Harr|]. intros g.
        apply handle_ok_mono. simpl. lia.
      * constructor; [|done]. split; simpl; [done|lia].
    + intros Hl. eapply Forall_impl; [by eapply H4|].
      intros g. apply handle_ok_mono. simpl. lia.
Qed.

Lemma manager_emit_void_wf m n d now now' w :
  Manager.well_formed m →
  Manager.well_formed (Manager.emit_void call report m n d now now' w).1.2.
Proof.
  rewrite manager_emit_void. unfold Manager.emit. simpl.
  destruct (Manager.recordHistory (Manager.options m));
    by apply (well_formed_ext m).
Qed.

Lemma Map_set_sets groupName (group : list string) gs :
  NoDup group → Forall (λ g : string * list string, NoDup g.2) gs →
  Forall (λ g : string * list string, NoDup g.2)
    (Manager.Map_set groupName group gs).
Proof.
  intros Hg Hgs. apply Forall_forall. intros e [->|He]%Map_set_elem; [done|].
  by eapply Forall_forall in Hgs.
Qed.

Lemma Map_get_sets groupName (group : list string) gs :
  Forall (λ g : string * list string, NoDup g.2) gs →
  Manager.Map_get groupName gs = Some group → NoDup group.
Proof.
  intros Hgs Hg%Map_get_Some. rewrite Forall_forall in Hgs.
  by apply (Hgs (groupName, group)).
Qed.

(** Every operation keeps the state well formed. *)
Lemma manager_step_wf m w op :
  Manager.well_formed m →
  Manager.well_formed (Manager.step call report notify (m, w) op).1.
Proof.
  intros Hwf. destruct op; simpl.
  - unfold Manager.createGroup.
    destruct (Manager.Map_has _ _) eqn:Hhas; [done|].
    apply Map_has_false in Hhas.
    apply manager_emit_void_wf.
    destruct Hwf as (H1 & H2 & H3 & H4).
    unfold Manager.well_formed, Manager.set_groupSubscriptions_empty. simpl.
    split_and!.
    + rewrite Map_set_keys_absent by done.
      apply NoDup_app. split_and!; [done| |apply NoDup_singleton].
      by intros x Hx ->%list_elem_of_singleton.
    + apply Map_set_sets; [apply Set_new_NoDup|done].
    + rewrite !Map_set_keys_absent by (by rewrite ?H3). by rewrite H3.
    + intros ref arr. rewrite lookup_insert. case_decide.
      * by intros [= <-].
      * intros Hl. eapply Forall_impl; [by eapply H4|].
        intros g. apply handle_ok_mono. simpl. lia.
  - unfold Manager.addToGroup.
    destruct (Manager.Map_get _ _) as [group|] eqn:Hg; [|done].
    assert (Manager.well_formed
              (Manager.set_eventGroups
                 (Manager.Map_set groupName
                    (Manager.Set_addAll eventNames0 group)
                    (Manager.eventGroups m)) m)) as Hwf'.
    { destruct Hwf as (H1 & H2 & H3 & H4).
      unfold Manager.well_formed. simpl.
      rewrite Map_set_keys_present by (apply Map_get_is_Some; eauto).
      split_and!; try done.
      apply Map_set_sets; [|done].
      apply Set_addAll_NoDup. by eapply Map_get_sets. }
    case_bool_decide; [|done]. by apply manager_emit_void_wf.
  - unfold Manager.removeFromGroup.
    destruct (Manager.Map_get _ _) as [group|] eqn:Hg; [|done].
    assert (Manager.well_formed
              (Manager.set_eventGroups
                 (Manager.Map_set groupName
                    (Manager.Set_deleteAll eventNames0 group)
                    (Manager.eventGroups m)) m)) as Hwf'.
    { destruct Hwf as (H1 & H2 & H3 & H4).
      unfold Manager.well_formed. simpl.
      rewrite Map_set_keys_present by (apply Map_get_is_Some; eauto).
      split_and!; try done.
      apply Map_set_sets; [|done].
      apply Set_deleteAll_NoDup. by eapply Map_get_sets. }
    case_bool_decide; [|done]. by apply manager_emit_void_wf.
  - unfold Manager.deleteGroup.
    destruct (negb _); [done|].
    destruct (offGroup_wf m groupName Hwf) as [Hres Hwf1].
    destruct (Manager.offGroup m groupName) as [[e|] m1]; simpl in Hres, Hwf1;
      cbv iota beta; [done|].
    apply manager_emit_void_wf.
    destruct Hwf1 as (H1 & H2 & H3 & H4).
    unfold Manager.well_formed. simpl. split_and!.
    + rewrite Map_delete_keys. by apply NoDup_filter.
    + unfold Manager.Map_delete.
      eapply Forall_sublist_of; [apply sublist_filter|done].
    + by rewrite !Map_delete_keys, H3.
    + done.
  - by apply subscribeGroup_wf.
  - by apply subscribeGroup_wf.
  - by apply unsubscribeGroup_wf.
  - by apply offGroup_wf.
  - pose proof (manager_emit_void_wf m eventName d now now' w Hwf) as H1.
    by rewrite manager_emit_void in H1.
  - by apply (well_formed_ext m).
  - unfold Manager.setState.
    destruct (negb _); [done|]. destruct (Manager.strictEquals _ _); [done|].
    destruct (Manager.forEach _ _ _) as [[e|] w1].
    + by apply (well_formed_ext m).
    + apply manager_emit_void_wf. by apply (well_formed_ext m).
  - unfold Manager.onStateChange.
    destruct (negb _); [done|].
    destruct (Manager.stateListeners m !! key); simpl.
    + by apply (well_formed_ext m).
    + apply (well_formed_ext m); simpl; try done. lia.
  - by apply (well_formed_ext m).
  - unfold Manager.reset.
    destruct (forEach_offGroup_wf (Manager.eventGroups m) m Hwf)
      as [Hres Hwf1].
    destruct (Manager.forEach _ _ _) as [[e|] m1]; simpl in Hres, Hwf1;
      cbv iota beta; [done|].
    apply manager_emit_void_wf.
    destruct Hwf1 as (H1 & H2 & H3 & H4).
    assert (Manager.well_formed
              (Manager.clearHistory
                 (Manager.set_groupSubscriptions []
                    (Manager.set_eventGroups [] m1)))) as Hwf2.
    { unfold Manager.well_formed. simpl. split_and!; try done.
      constructor. }
    destruct (Manager.enableStateManagement _); [|done].
    revert Hwf2. by apply well_formed_ext.
  - by apply (well_formed_ext m).
Qed.

Lemma manager_new_wf o : Manager.well_formed (Manager.EventManager_new (V:=V) (Err:=Err) o).
Proof.
  unfold Manager.well_formed. simpl. split_and!; try done; constructor.
Qed.

Lemma manager_run_wf ops m w :
  Manager.well_formed m →
  Manager.well_formed (Manager.run call report notify ops (m, w)).1.
Proof.
  intros Hwf. induction ops as [|op ops IH] using rev_ind; [done|].
  rewrite manager_run_snoc.
  destruct (Manager.run call report notify ops (m, w)) as [m1 w1].
  by apply manager_step_wf.
Qed.

(** ** The history *)

(** The manager records an event before the bus looks at it: with the
    history on and a capacity that is at least one or [undefined], the last
    record of the history after [emit] is the event, whatever the bus does
    with it; the bus and the world are what the bus's [emit] makes of them.  For a name
    that the bus rejects, the bus (its history included) and the world stay
    as they are, and the manager's history has the record all the same. *)
Theorem manager_emit_records_first m n d now now' w :
  Manager.recordHistory (Manager.options m) = true →
  Manager.keeps_record (Manager.options m) = true →
  let r := Manager.emit call report m n d now now' w in
  let e := emit call report (Manager.eventBus m) n d now' w in
  last (Manager.getHistory r.1.2 None) = Some (Manager.record_of n d now) ∧
  Manager.eventBus r.1.2 = emit_bus e ∧ r.2 = emit_world e ∧
  (validateEventName n = false →
   r.1.1 = Manager.Throw (Manager.BusError InvalidArgument) ∧
   Manager.eventBus r.1.2 = Manager.eventBus m ∧ r.2 = w).
Proof.
  intros Hrec Hcap r e. subst r e.
  unfold Manager.emit, Manager.getHistory. rewrite Hrec. simpl.
  rewrite Hrec. simpl. split_and!; try done.
  - by apply manager_recordEvent_last.
  - intros Hv. by rewrite emit_invalid.
Qed.

(** In every state that operations on a new manager reach, the options are
    those the constructor made of its argument.  A manager made without
    [maxHistoryLength] holds at most 1000 records in its history; one made
    with a number holds at most that many (none when the number is
    negative).  One made with [maxHistoryLength: undefined] has no bound:
    with the history on, every [emit] makes the history one record longer.
    A manager made with [recordHistory: undefined] keeps no history. *)
Theorem manager_history_bound o ops w0 historyFilter n d now now' :
  let s := Manager.run call report notify ops
             (Manager.EventManager_new o, w0) in
  let m := s.1 in
  Manager.options m =
    Manager.options (Manager.EventManager_new (V:=V) (Err:=Err) o) ∧
  Manager.history_bounded m ∧
  match Manager.o_maxHistoryLength o with
  | Manager.Absent =>
      (length (Manager.getHistory m historyFilter) ≤ 1000)%nat
  | Manager.Given cap =>
      (length (Manager.getHistory m historyFilter) ≤ Z.to_nat cap)%nat
  | Manager.Undefined =>
      Manager.recordHistory (Manager.options m) = true →
      Manager.getHistory
        (Manager.emit call report m n d now now' s.2).1.2 None =
      Manager.getHistory m None ++ [Manager.record_of n d now]
  end ∧
  (Manager.o_recordHistory o = Manager.Undefined →
   Manager.getHistory m historyFilter = []).
Proof.
  intros s m.
  assert (Manager.options m =
            Manager.options (Manager.EventManager_new (V:=V) (Err:=Err) o) ∧
          Manager.history_bounded m) as [Ho Hb].
  { subst m s. induction ops as [|op ops IH] using rev_ind.
    - split; [done|]. unfold Manager.history_bounded. simpl.
      destruct (Manager.spread _ _); [lia|done].
    - rewrite manager_run_snoc.
      destruct (Manager.run call report notify ops _) as [m1 w1].
      pose proof (manager_step_history m1 w1 op) as [H1 H2].
      simpl in *. destruct IH as [IH1 IH2]. split; [congruence|auto]. }
  assert (∀ cap, Manager.maxHistoryLength (Manager.options m) = Some cap →
                 (length (Manager.getHistory m historyFilter) ≤
                  Z.to_nat cap)%nat) as Hlen.
  { intros cap Hcap. unfold Manager.history_bounded in Hb.
    rewrite Hcap in Hb. unfold Manager.getHistory.
    case_match; [simpl; lia|].
    destruct historyFilter as [f|]; [|lia].
    etrans; [apply length_filter|]. lia. }
  split_and!; [done..| |].
  - rewrite Ho in Hlen. simpl in Hlen.
    destruct (Manager.o_maxHistoryLength o) as [| |cap] eqn:Hmax;
      simpl in Hlen.
    + by apply (Hlen 1000).
    + intros Hrec. unfold Manager.emit, Manager.getHistory.
      rewrite Hrec. simpl. rewrite Hrec. simpl.
      unfold Manager.recordEvent. simpl. rewrite Ho. simpl.
      by rewrite Hmax.
    + by apply Hlen.
  - intros Hrec. unfold Manager.getHistory. rewrite Ho. simpl.
    by rewrite Hrec.
Qed.

(** ** Groups *)

Lemma getGroups_fold (l : list (string * list string))
    (acc : gmap string (list string)) k :
  NoDup l.*1 →
  foldl (λ result g,
           if bool_decide (g.1 = "__proto__") then result
           else <[g.1 := g.2]> result) acc l !! k =
    if bool_decide (k = "__proto__") then acc !! k
    else match Manager.Map_get k l with
         | Some v => Some v
         | None => acc !! k
         end.
Proof.
  revert acc. induction l as [|[k1 v1] l IH]; intros acc; csimpl.
  { intros _. by case_bool_decide. }
  intros [Hk1 Hnd]%NoDup_cons. rewrite IH by done.
  destruct (bool_decide (k = "__proto__")) eqn:Hp.
  - apply bool_decide_eq_true in Hp. subst k.
    case_bool_decide; [done|]. by rewrite lookup_insert_ne.
  - apply bool_decide_eq_false in Hp.
    destruct (bool_decide (k1 = k)) eqn:Hk.
    + apply bool_decide_eq_true in Hk. subst k1.
      apply Map_get_None in Hk1. rewrite Hk1.
      rewrite bool_decide_false by done. by rewrite lookup_insert_eq.
    + apply bool_decide_eq_false in Hk.
      destruct (Manager.Map_get k l); [done|].
      case_bool_decide; [done|]. by rewrite lookup_insert_ne.
Qed.

(** In a well-formed state [getGroups] lists what [eventGroups.get]
    finds, but for ['__proto__']. *)
Lemma getGroups_lookup m groupName :
  Manager.well_formed m →
  Manager.getGroups m !! groupName =
    if bool_decide (groupName = "__proto__") then None
    else Manager.Map_get groupName (Manager.eventGroups m).
Proof.
  intros (H1 & _). unfold Manager.getGroups. rewrite getGroups_fold by done.
  case_bool_decide; [done|]. by destruct (Manager.Map_get _ _).
Qed.

Lemma getGroups_Some m groupName group :
  Manager.well_formed m →
  Manager.getGroups m !! groupName = Some group →
  groupName ≠ "__proto__" ∧
  Manager.Map_get groupName (Manager.eventGroups m) = Some group.
Proof.
  intros Hwf. rewrite getGroups_lookup by done. by case_bool_decide.
Qed.

Lemma getGroups_None m groupName :
  Manager.well_formed m → groupName ≠ "__proto__" →
  Manager.getGroups m !! groupName = None →
  Manager.Map_get groupName (Manager.eventGroups m) = None.
Proof.
  intros Hwf Hp. rewrite getGroups_lookup by done.
  by rewrite bool_decide_false.
Qed.

Lemma Map_set_NoDup {A} (k : string) (v : A) (l : list (string * A)) :
  NoDup l.*1 → NoDup (Manager.Map_set k v l).*1.
Proof.
  intros Hnd. destruct (decide (k ∈ l.*1)) as [Hin|Hnin].
  - by rewrite Map_set_keys_present.
  - rewrite Map_set_keys_absent by done.
    apply NoDup_app. split_and!; [done| |apply NoDup_singleton].
    by intros x Hx ->%list_elem_of_singleton.
Qed.

Lemma getGroups_set m m' groupName group :
  NoDup (Manager.eventGroups m).*1 → groupName ≠ "__proto__" →
  Manager.eventGroups m' =
    Manager.Map_set groupName group (Manager.eventGroups m) →
  Manager.getGroups m' = <[groupName := group]> (Manager.getGroups m).
Proof.
  intros Hnd Hp He. apply map_eq. intros g. unfold Manager.getGroups.
  rewrite He, getGroups_fold by by apply Map_set_NoDup.
  rewrite Map_get_set, lookup_insert, getGroups_fold by done.
  case_bool_decide as Hg; case_decide; simplify_eq; try done;
    by destruct (Manager.Map_get _ _).
Qed.

Lemma getGroups_ext m m' :
  Manager.eventGroups m' = Manager.eventGroups m →
  Manager.getGroups m' = Manager.getGroups m.
Proof. unfold Manager.getGroups. by intros ->. Qed.

Lemma manager_emit_void_groups m n d now now' w :
  Manager.getGroups (Manager.emit_void call report m n d now now' w).1.2 =
    Manager.getGroups m.
Proof.
  apply getGroups_ext. rewrite manager_emit_void. cbn [fst snd].
  by destruct (manager_emit_keeps m n d now now' w) as (_ & _ & _ & -> & _).
Qed.

Lemma manager_emit_void_last m n d now now' w :
  Manager.recordHistory (Manager.options m) = true →
  Manager.keeps_record (Manager.options m) = true →
  last (Manager.getHistory
          (Manager.emit_void call report m n d now now' w).1.2 None) =
    Some (Manager.record_of n d now).
Proof.
  intros Hrec Hcap. rewrite manager_emit_void.
  unfold Manager.emit, Manager.getHistory. rewrite Hrec. simpl.
  rewrite Hrec. simpl. by apply manager_recordEvent_last.
Qed.

(** [createGroup] in a state that operations on a new manager reach, for a
    group name other than ['__proto__'], which [getGroups] never lists.  For
    a name that [getGroups] lists it throws and changes nothing.  Otherwise
    the group is listed afterwards with the given names, each once, in the
    order of their first occurrence, beside the groups that were there; this
    is so even when the [emit] of ['@group:created'] throws.  With the
    history on and a capacity that keeps a record, the last record of the
    history is that event. *)
Theorem createGroup_registers o ops w0 groupName eventNames now now' :
  groupName ≠ "__proto__" →
  let s := Manager.run call report notify ops
             (Manager.EventManager_new o, w0) in
  let r := Manager.createGroup call report s.1 groupName eventNames now now'
             s.2 in
  Manager.getGroups s.1 !! "__proto__" = None ∧
  match Manager.getGroups s.1 !! groupName with
  | Some _ => r = (Manager.Throw (Manager.GroupExists groupName), s.1, s.2)
  | None =>
      Manager.getGroups r.1.2 =
        <[groupName := Manager.Set_new eventNames]> (Manager.getGroups s.1) ∧
      NoDup (Manager.Set_new eventNames) ∧
      (∀ e, e ∈ Manager.Set_new eventNames ↔ e ∈ eventNames) ∧
      (Manager.recordHistory (Manager.options s.1) = true →
       Manager.keeps_record (Manager.options s.1) = true →
       last (Manager.getHistory r.1.2 None) =
         Some (Manager.record_of Manager.GROUP_CREATED
                 (Manager.GroupCreated groupName (Manager.Set_new eventNames))
                 now))
  end.
Proof.
  intros Hproto s r.
  assert (Manager.well_formed s.1) as Hwf
    by (subst s; apply manager_run_wf, manager_new_wf).
  rewrite !getGroups_lookup by done.
  rewrite bool_decide_true, bool_decide_false by done. split; [done|].
  subst r. unfold Manager.createGroup, Manager.Map_has.
  destruct (Manager.Map_get groupName (Manager.eventGroups s.1)) as [group|]
    eqn:Hg.
  { by rewrite bool_decide_true by eauto. }
  rewrite bool_decide_false by (by intros [? ?]).
  split_and!.
  - rewrite manager_emit_void_groups.
    apply getGroups_set; [apply Hwf|done..].
  - apply Set_new_NoDup.
  - apply Set_new_elem.
  - intros Hrec Hcap. by apply manager_emit_void_last.
Qed.

Lemma set_eventGroups_same m groupName group :
  Manager.Map_get groupName (Manager.eventGroups m) = Some group →
  Manager.set_eventGroups
    (Manager.Map_set groupName group (Manager.eventGroups m)) m = m.
Proof.
  intros Hg. rewrite Map_set_same by done. by destruct m.
Qed.

(** [addToGroup] in a state that operations on a new manager reach, for a
    group that [getGroups] lists: the group keeps its names in their order
    and gets the new ones behind them, each once.  When every given name is
    already in the group nothing happens at all: no event, no record, no
    change.  When a name is new, ['@group:updated'] is emitted, and with the
    history on it is the last record. *)
Lemma addToGroup_adds o ops w0 groupName group eventNames now now' :
  let s := Manager.run call report notify ops
             (Manager.EventManager_new o, w0) in
  Manager.getGroups s.1 !! groupName = Some group →
  let r := Manager.addToGroup call report s.1 groupName eventNames now now'
             s.2 in
  let group' := Manager.Set_addAll eventNames group in
  Manager.getGroups r.1.2 = <[groupName := group']> (Manager.getGroups s.1) ∧
  NoDup group' ∧ group `prefix_of` group' ∧
  (∀ e, e ∈ group' ↔ e ∈ eventNames ∨ e ∈ group) ∧
  (Forall (λ e, e ∈ group) eventNames → r = (Manager.Done (), s.1, s.2)) ∧
  (Exists (λ e, e ∉ group) eventNames →
   Manager.recordHistory (Manager.options s.1) = true →
   Manager.keeps_record (Manager.options s.1) = true →
   last (Manager.getHistory r.1.2 None) =
     Some (Manager.record_of Manager.GROUP_UPDATED
             (Manager.GroupUpdated groupName group' Manager.Add) now)).
Proof.
  intros s Hgroup r group'.
  assert (Manager.well_formed s.1) as Hwf
    by (subst s; apply manager_run_wf, manager_new_wf).
  apply getGroups_Some in Hgroup as [Hproto Hgroup]; [|done].
  assert (NoDup group) as Hnd by (eapply Map_get_sets; [apply Hwf|done]).
  subst r. unfold Manager.addToGroup. rewrite Hgroup. fold group'.
  split_and!.
  - case_bool_decide.
    + rewrite manager_emit_void_groups.
      apply getGroups_set; [apply Hwf|done..].
    + apply getGroups_set; [apply Hwf|done..].
  - by apply Set_addAll_NoDup.
  - apply Set_addAll_prefix.
  - intros e. apply Set_addAll_elem.
  - intros Hall. subst group'. rewrite Set_addAll_present by done.
    rewrite bool_decide_false by lia. by rewrite set_eventGroups_same.
  - intros (e & He & Hne)%Exists_exists Hrec Hcap.
    assert (length group < length group')%nat as Hlen.
    { destruct (Set_addAll_prefix eventNames group) as [k Hk].
      fold group' in Hk. destruct k as [|x k].
      - rewrite app_nil_r in Hk. exfalso. apply Hne. rewrite <-Hk.
        apply Set_addAll_elem. by left.
      - rewrite Hk, length_app. simpl. lia. }
    rewrite bool_decide_true by done. by apply manager_emit_void_last.
Qed.

(** [removeFromGroup], likewise: the group keeps the names that are not
    given, in their order.  When none of the given names is in the group
    nothing happens at all; when one is, ['@group:updated'] is emitted. *)
Lemma removeFromGroup_removes o ops w0 groupName group eventNames now now' :
  let s := Manager.run call report notify ops
             (Manager.EventManager_new o, w0) in
  Manager.getGroups s.1 !! groupName = Some group →
  let r := Manager.removeFromGroup call report s.1 groupName eventNames
             now now' s.2 in
  let group' := Manager.Set_deleteAll eventNames group in
  Manager.getGroups r.1.2 = <[groupName := group']> (Manager.getGroups s.1) ∧
  NoDup group' ∧ group' `sublist_of` group ∧
  (∀ e, e ∈ group' ↔ e ∈ group ∧ e ∉ eventNames) ∧
  (Forall (λ e, e ∉ group) eventNames → r = (Manager.Done (), s.1, s.2)) ∧
  (Exists (λ e, e ∈ group) eventNames →
   Manager.recordHistory (Manager.options s.1) = true →
   Manager.keeps_record (Manager.options s.1) = true →
   last (Manager.getHistory r.1.2 None) =
     Some (Manager.record_of Manager.GROUP_UPDATED
             (Manager.GroupUpdated groupName group' Manager.Remove) now)).
Proof.
  intros s Hgroup r group'.
  assert (Manager.well_formed s.1) as Hwf
    by (subst s; apply manager_run_wf, manager_new_wf).
  apply getGroups_Some in Hgroup as [Hproto Hgroup]; [|done].
  assert (NoDup group) as Hnd by (eapply Map_get_sets; [apply Hwf|done]).
  subst r. unfold Manager.removeFromGroup. rewrite Hgroup. fold group'.
  split_and!.
  - case_bool_decide.
    + rewrite manager_emit_void_groups.
      apply getGroups_set; [apply Hwf|done..].
    + apply getGroups_set; [apply Hwf|done..].
  - by apply Set_deleteAll_NoDup.
  - apply Set_deleteAll_sublist.
  - intros e. apply Set_deleteAll_elem.
  - intros Hall. subst group'. rewrite Set_deleteAll_absent by done.
    rewrite bool_decide_false by lia. by rewrite set_eventGroups_same.
  - intros (e & He & Hin)%Exists_exists Hrec Hcap.
    assert (length group' < length group)%nat as Hlen.
    { pose proof (Set_deleteAll_sublist eventNames group) as Hsub.
      fold group' in Hsub.
      pose proof (sublist_length _ _ Hsub) as Hle.
      destruct (decide (length group ≤ length group')%nat) as [Hge|]; [|lia].
      apply sublist_submseteq in Hsub.
      apply (submseteq_length_Permutation _ _ Hsub) in Hge.
      assert (e ∈ group') as He' by by rewrite Hge.
      apply Set_deleteAll_elem in He' as [_ ?]. done. }
    rewrite bool_decide_true by done. by apply manager_emit_void_last.
Qed.

(** Changing the names of a group.  In a state that operations on a new
    manager reach, for a group that [getGroups] lists: [addToGroup] keeps the
    names of the group in their order and puts the new ones behind them,
    each once; [removeFromGroup] keeps the names that are not given, in
    their order.  When there is nothing to add (to remove) nothing happens
    at all: no event, no record, no change.  Otherwise ['@group:updated'] is
    emitted with the names the group has now and the action, and with the
    history on and a capacity that keeps a record it is the last record. *)
Theorem group_membership_updates o ops w0 groupName group eventNames now now' :
  let s := Manager.run call report notify ops
             (Manager.EventManager_new o, w0) in
  Manager.getGroups s.1 !! groupName = Some group →
  let a := Manager.addToGroup call report s.1 groupName eventNames now now'
             s.2 in
  let r := Manager.removeFromGroup call report s.1 groupName eventNames
             now now' s.2 in
  let added := Manager.Set_addAll eventNames group in
  let kept := Manager.Set_deleteAll eventNames group in
  (Manager.getGroups a.1.2 = <[groupName := added]> (Manager.getGroups s.1) ∧
   NoDup added ∧ group `prefix_of` added ∧
   (∀ e, e ∈ added ↔ e ∈ eventNames ∨ e ∈ group) ∧
   (Forall (λ e, e ∈ group) eventNames → a = (Manager.Done (), s.1, s.2)) ∧
   (Exists (λ e, e ∉ group) eventNames →
    Manager.recordHistory (Manager.options s.1) = true →
    Manager.keeps_record (Manager.options s.1) = true →
    last (Manager.getHistory a.1.2 None) =
      Some (Manager.record_of Manager.GROUP_UPDATED
              (Manager.GroupUpdated groupName added Manager.Add) now))) ∧
  (Manager.getGroups r.1.2 = <[groupName := kept]> (Manager.getGroups s.1) ∧
   NoDup kept ∧ kept `sublist_of` group ∧
   (∀ e, e ∈ kept ↔ e ∈ group ∧ e ∉ eventNames) ∧
   (Forall (λ e, e ∉ group) eventNames → r = (Manager.Done (), s.1, s.2)) ∧
   (Exists (λ e, e ∈ group) eventNames →
    Manager.recordHistory (Manager.options s.1) = true →
    Manager.keeps_record (Manager.options s.1) = true →
    last (Manager.getHistory r.1.2 None) =
      Some (Manager.record_of Manager.GROUP_UPDATED
              (Manager.GroupUpdated groupName kept Manager.Remove) now))).
Proof.
  intros s Hgroup a r added kept. split.
  - by apply addToGroup_adds.
  - by apply removeFromGroup_removes.
Qed.

(** A group name other than ['__proto__'] that [getGroups] does not list, in
    a state that operations on a new manager reach: [addToGroup],
    [removeFromGroup], [onGroup] and [onceGroup] throw and change nothing;
    [deleteGroup] and [offGroup] return without doing anything. *)
Theorem missing_group_operations o ops w0 groupName eventNames isOnce h p
    now now' :
  groupName ≠ "__proto__" →
  let s := Manager.run call report notify ops
             (Manager.EventManager_new o, w0) in
  Manager.getGroups s.1 !! groupName = None →
  Manager.addToGroup call report s.1 groupName eventNames now now' s.2 =
    (Manager.Throw (Manager.GroupNotFound groupName), s.1, s.2) ∧
  Manager.removeFromGroup call report s.1 groupName eventNames now now' s.2 =
    (Manager.Throw (Manager.GroupNotFound groupName), s.1, s.2) ∧
  Manager.subscribeGroup (Err:=Err) isOnce s.1 groupName h p =
    (Manager.Throw (Manager.GroupNotFound groupName), s.1) ∧
  Manager.deleteGroup call report s.1 groupName now now' s.2 =
    (Manager.Done (), s.1, s.2) ∧
  Manager.offGroup (Err:=Err) s.1 groupName = (None, s.1).
Proof.
  intros Hproto s Hgroup.
  assert (Manager.well_formed s.1) as Hwf
    by (subst s; apply manager_run_wf, manager_new_wf).
  apply getGroups_None in Hgroup; [|done..].
  assert (Manager.Map_get groupName (Manager.groupSubscriptions s.1) = None)
    as Hsubs.
  { destruct Hwf as (_ & _ & H3 & _).
    apply Map_get_None. rewrite H3. by apply Map_get_None. }
  unfold Manager.addToGroup, Manager.removeFromGroup, Manager.subscribeGroup,
    Manager.deleteGroup, Manager.offGroup, Manager.Map_has.
  rewrite Hgroup, Hsubs.
  rewrite bool_decide_false by (by intros [? ?]). done.
Qed.

(** ** The bus of a manager *)

Section BusInvariant.

(** A property of the bus that every operation of the bus keeps is kept by
    every operation of the manager: the manager acts on its bus through
    [on], [once], [unsubscribe()] and [emit] only. *)
Variable P : @EventBus (Manager.ManagerData V) Err → Prop.
Hypothesis P_step : ∀ b w op, P b → P (step call report (b, w) op).1.

Lemma invariant_emit_void m n d now now' w :
  P (Manager.eventBus m) →
  P (Manager.eventBus (Manager.emit_void call report m n d now now' w).1.2).
Proof.
  intros Hb. rewrite manager_emit_void. unfold Manager.emit. simpl.
  destruct (Manager.recordHistory (Manager.options m)); simpl;
    apply (P_step _ w (OpEmit n d now') Hb).
Qed.

Lemma invariant_subscribeGroup isOnce m groupName h p w :
  P (Manager.eventBus m) →
  P (Manager.eventBus
       (Manager.subscribeGroup (Err:=Err) isOnce m groupName h p).2).
Proof.
  intros Hb. unfold Manager.subscribeGroup.
  destruct (Manager.Map_get _ (Manager.eventGroups m)) as [group|]; [|done].
  assert (P (Manager.forEach (Manager.subscribeEach (Err:=Err) isOnce h p)
               group (Manager.eventBus m, [])).2.1) as Hloop.
  { apply (forEach_invariant
             (λ s : @EventBus (Manager.ManagerData V) Err * list EventSubscription,
                P s.1)); [|done].
    intros e [b subs] _ H1. simpl in H1. unfold Manager.subscribeEach. simpl.
    assert (P (subscribe (Err:=Err) isOnce b e h p).2) as H2.
    { destruct isOnce.
      - apply (P_step b w (OpOnce e h p) H1).
      - apply (P_step b w (OpOn e h p) H1). }
    by destruct (subscribe _ _ _ _ _) as [[sub|t] b2]. }
  destruct (Manager.forEach _ _ _) as [[e|] [b subs]]; simpl in *; [done|].
  by destruct (Manager.Map_get _ _).
Qed.

Lemma invariant_unsubscribeGroup g m w :
  P (Manager.eventBus m) →
  P (Manager.eventBus (Manager.unsubscribeGroup (Err:=Err) g m).2).
Proof.
  intros Hb. unfold Manager.unsubscribeGroup.
  assert (P (Manager.forEach (Manager.unsubscribeEach (Err:=Err))
               (Manager.subscriptions g) (Manager.eventBus m)).2) as Hloop.
  { apply (forEach_invariant P); [|done].
    intros sub b _ H1. unfold Manager.unsubscribeEach.
    pose proof (P_step b w (OpUnsubscribe sub) H1) as H2. simpl in H2.
    by destruct (unsubscribe sub b) as [[?|?] ?]. }
  destruct (Manager.forEach _ _ _) as [[e|] b]; simpl in *; [done|].
  by destruct (findIndex _ _).
Qed.

Lemma invariant_offGroup m groupName w :
  P (Manager.eventBus m) →
  P (Manager.eventBus (Manager.offGroup (Err:=Err) m groupName).2).
Proof.
  intros Hb. unfold Manager.offGroup.
  destruct (Manager.Map_get _ _) as [ref|]; [|done].
  assert (P (Manager.eventBus
               (Manager.forEach (Manager.unsubscribeGroup (Err:=Err))
                  (Manager.array m ref) m).2)) as Hloop.
  { apply (forEach_invariant (λ m, P (Manager.eventBus m))); [|done].
    intros g m1 _ H1. by apply invariant_unsubscribeGroup. }
  by destruct (Manager.forEach _ _ _) as [[e|] m1].
Qed.

Lemma invariant_step m w op :
  P (Manager.eventBus m) →
  P (Manager.eventBus (Manager.step call report notify (m, w) op).1).
Proof.
  intros Hb. destruct op; simpl.
  - unfold Manager.createGroup. destruct (Manager.Map_has _ _); [done|].
    by apply invariant_emit_void.
  - unfold Manager.addToGroup. destruct (Manager.Map_get _ _); [|done].
    case_bool_decide; [|done]. by apply invariant_emit_void.
  - unfold Manager.removeFromGroup. destruct (Manager.Map_get _ _); [|done].
    case_bool_decide; [|done]. by apply invariant_emit_void.
  - unfold Manager.deleteGroup. destruct (negb _); [done|].
    pose proof (invariant_offGroup m groupName w Hb) as H1.
    destruct (Manager.offGroup m groupName) as [[e|] m1]; simpl in H1;
      cbv iota beta; [done|].
    by apply invariant_emit_void.
  - by apply invariant_subscribeGroup.
  - by apply invariant_subscribeGroup.
  - by apply invariant_unsubscribeGroup.
  - by apply invariant_offGroup.
  - pose proof (invariant_emit_void m eventName d now now' w Hb) as H1.
    by rewrite manager_emit_void in H1.
  - done.
  - unfold Manager.setState. destruct (negb _); [done|].
    destruct (Manager.strictEquals _ _); [done|].
    destruct (Manager.forEach _ _ _) as [[e|] w1]; [done|].
    by apply invariant_emit_void.
  - unfold Manager.onStateChange. destruct (negb _); [done|].
    by destruct (Manager.stateListeners m !! key).
  - done.
  - unfold Manager.reset.
    assert (P (Manager.eventBus
                 (Manager.forEach
                    (λ (g : string * list string) m,
                       Manager.offGroup (Err:=Err) m g.1)
                    (Manager.eventGroups m) m).2)) as Hloop.
    { apply (forEach_invariant (λ m, P (Manager.eventBus m))); [|done].
      intros g m1 _ H1. by apply invariant_offGroup. }
    destruct (Manager.forEach _ _ _) as [[e|] m1]; simpl in Hloop;
      cbv iota beta; [done|].
    apply invariant_emit_void.
    by destruct (Manager.enableStateManagement _).
  - by apply P_step.
Qed.

Lemma invariant_run ops m w :
  P (Manager.eventBus m) →
  P (Manager.eventBus (Manager.run call report notify ops (m, w)).1).
Proof.
  intros Hb. induction ops as [|op ops IH] using rev_ind; [done|].
  rewrite manager_run_snoc.
  destruct (Manager.run call report notify ops (m, w)) as [m1 w1].
  by apply invariant_step.
Qed.

End BusInvariant.

(** The bus of a manager keeps the invariants of a bus.  In every state
    that operations on a new manager reach (operations on the bus itself,
    through [getEventBus], included), every bucket of its bus and the
    wildcard list are in priority order, and no wildcard record is a once
    record. *)
Theorem manager_bus_invariants o ops w0 :
  let m := (Manager.run call report notify ops
              (Manager.EventManager_new o, w0)).1 in
  bus_sorted (Manager.getEventBus m) ∧
  Forall (λ r, w_once r = false) (wildcardHandlers (Manager.getEventBus m)).
Proof.
  intros m. subst m. unfold Manager.getEventBus. split.
  - apply (invariant_run bus_sorted); [|apply new_sorted].
    intros b w op. apply step_sorted.
  - apply (invariant_run
             (λ b, Forall (λ r, w_once r = false) (wildcardHandlers b)));
      [|constructor].
    intros b w op. apply step_wildcards_never_once.
Qed.


(** ** Group subscriptions *)

Lemma subscribed_keeps isOnce h p (l : list string)
    (b : @EventBus (Manager.ManagerData V) Err) :
  let b' := Manager.subscribed (Err:=Err) isOnce h p l b in
  wildcardHandlers b' = wildcardHandlers b ∧
  eventHistory b' = eventHistory b ∧ options b' = options b.
Proof.
  unfold Manager.subscribed. revert b.
  induction l as [|e l IH]; intros b; simpl; [done|].
  destruct (IH (subscribe (Err:=Err) isOnce b e h p).2) as (-> & -> & ->).
  unfold subscribe. by destruct (validateEventName e).
Qed.

Lemma subscribed_lookup isOnce h p (l : list string)
    (b : @EventBus (Manager.ManagerData V) Err) name :
  Forall (λ e, validateEventName e = true) l → NoDup l →
  handlers (Manager.subscribed (Err:=Err) isOnce h p l b) !! name =
    if decide (name ∈ l)
    then Some (sortHandlersByPriority
                 (bucket b name ++
                  [{| handler := h; priority := p; once := isOnce |}]))
    else handlers b !! name.
Proof.
  unfold Manager.subscribed. intros Hv. revert b.
  induction Hv as [|e l He _ IH]; intros b Hnd; simpl.
  - done.
  - apply NoDup_cons in Hnd as [Hel Hnd]. rewrite IH by done.
    destruct (decide (name = e)) as [->|Hne].
    + rewrite decide_False by done.
      rewrite decide_True by left.
      by rewrite subscribe_handlers, decide_True.
    + case_decide as Hin.
      * rewrite decide_True by (by right).
        unfold bucket at 1.
        by rewrite subscribe_handlers, decide_False.
      * rewrite decide_False
          by (intros [?|?]%elem_of_cons; [congruence|done]).
        by rewrite subscribe_handlers, decide_False.
Qed.

Lemma forEach_subscribeEach_valid isOnce h p (l : list string)
    (b : @EventBus (Manager.ManagerData V) Err) subs :
  Forall (λ e, validateEventName e = true) l →
  Manager.forEach (Manager.subscribeEach (Err:=Err) isOnce h p) l (b, subs) =
    (None, (Manager.subscribed (Err:=Err) isOnce h p l b,
            subs ++ ((λ e, NamedSubscription e h) <$> l))).
Proof.
  intros Hv. revert b subs.
  induction Hv as [|e l He _ IH]; intros b subs; simpl.
  - by rewrite app_nil_r.
  - unfold Manager.subscribeEach at 1. simpl.
    unfold subscribe at 1. rewrite He. rewrite IH.
    unfold Manager.subscribed. simpl. unfold subscribe at 3. rewrite He.
    by rewrite <-app_assoc.
Qed.

Lemma forEach_subscribeEach_invalid isOnce h p (pre : list string) bad post
    (b : @EventBus (Manager.ManagerData V) Err) subs :
  Forall (λ e, validateEventName e = true) pre →
  validateEventName bad = false →
  Manager.forEach (Manager.subscribeEach (Err:=Err) isOnce h p)
    (pre ++ bad :: post) (b, subs) =
    (Some (Manager.BusError InvalidArgument),
     (Manager.subscribed (Err:=Err) isOnce h p pre b,
      subs ++ ((λ e, NamedSubscription e h) <$> pre))).
Proof.
  intros Hv Hbad. revert b subs.
  induction Hv as [|e l He _ IH]; intros b subs; simpl.
  - unfold Manager.subscribeEach. simpl. unfold subscribe. rewrite Hbad.
    by rewrite app_nil_r.
  - unfold Manager.subscribeEach at 1. simpl.
    unfold subscribe at 1. rewrite He. rewrite IH.
    unfold Manager.subscribed. simpl. unfold subscribe at 3. rewrite He.
    by rewrite <-app_assoc.
Qed.

(** The buckets after the loop of [onGroup] went through the names [l]. *)
Lemma subscribed_bucket isOnce h p (l : list string)
    (b : @EventBus (Manager.ManagerData V) Err) name :
  Forall (λ e, validateEventName e = true) l → NoDup l →
  bucket (Manager.subscribed (Err:=Err) isOnce h p l b) name ≡ₚ
    bucket b name ++
    (if bool_decide (name ∈ l)
     then [{| handler := h; priority := p; once := isOnce |}] else []).
Proof.
  intros Hv Hnd. unfold bucket at 1. rewrite subscribed_lookup by done.
  case_decide.
  - rewrite bool_decide_true by done. simpl.
    apply stable_sort_by_Permutation.
  - rewrite bool_decide_false by done. by rewrite app_nil_r.
Qed.

(** [onGroup] and [onceGroup] on a group whose names are all valid, in a
    state that operations on a new manager reach: the handler gets one more
    record in the bucket of every name of the group and nowhere else, and
    the object returned holds one bus subscription per name, in the order of
    the group.  Groups, history and wildcard records are untouched. *)
Lemma onGroup_valid_names o ops w0 isOnce groupName group h p :
  let m := (Manager.run call report notify ops
              (Manager.EventManager_new o, w0)).1 in
  Manager.getGroups m !! groupName = Some group →
  Forall (λ e, validateEventName e = true) group →
  let r := Manager.subscribeGroup (Err:=Err) isOnce m groupName h p in
  (∃ g, r.1 = Manager.Done g ∧
        Manager.subscriptions g = (λ e, NamedSubscription e h) <$> group) ∧
  (∀ e, bucket (Manager.eventBus r.2) e ≡ₚ
        bucket (Manager.eventBus m) e ++
        (if bool_decide (e ∈ group)
         then [{| handler := h; priority := p; once := isOnce |}] else [])) ∧
  wildcardHandlers (Manager.eventBus r.2) =
    wildcardHandlers (Manager.eventBus m) ∧
  Manager.getGroups r.2 = Manager.getGroups m ∧
  Manager.eventHistory r.2 = Manager.eventHistory m.
Proof.
  intros m Hgroup Hv r.
  assert (Manager.well_formed m) as Hwf
    by (subst m; apply manager_run_wf, manager_new_wf).
  apply getGroups_Some in Hgroup as [Hproto Hgroup]; [|done].
  assert (NoDup group) as Hnd by (eapply Map_get_sets; [apply Hwf|done]).
  assert (is_Some (Manager.Map_get groupName (Manager.groupSubscriptions m)))
    as [ref Href].
  { destruct Hwf as (_ & _ & H3 & _).
    apply Map_get_is_Some. rewrite H3. apply Map_get_is_Some. eauto. }
  subst r. unfold Manager.subscribeGroup.
  rewrite Hgroup, Href, forEach_subscribeEach_valid by done. simpl.
  split_and!; try done.
  - eauto.
  - intros e. by apply subscribed_bucket.
  - apply subscribed_keeps.
Qed.

(** A group may hold a name that the bus rejects ([createGroup] does not
    look at the names).  [onGroup] then throws at that name, after it has
    subscribed the handler to the names in front of it: these records stay on
    the bus, and no object that could remove them is returned or stored. *)
Lemma onGroup_invalid_name o ops w0 isOnce groupName pre bad post h p :
  let m := (Manager.run call report notify ops
              (Manager.EventManager_new o, w0)).1 in
  Manager.getGroups m !! groupName = Some (pre ++ bad :: post) →
  Forall (λ e, validateEventName e = true) pre →
  validateEventName bad = false →
  let r := Manager.subscribeGroup (Err:=Err) isOnce m groupName h p in
  r.1 = Manager.Throw (Manager.BusError InvalidArgument) ∧
  (∀ e, bucket (Manager.eventBus r.2) e ≡ₚ
        bucket (Manager.eventBus m) e ++
        (if bool_decide (e ∈ pre)
         then [{| handler := h; priority := p; once := isOnce |}] else [])) ∧
  Manager.arrays r.2 = Manager.arrays m ∧
  Manager.groupSubscriptions r.2 = Manager.groupSubscriptions m ∧
  wildcardHandlers (Manager.eventBus r.2) =
    wildcardHandlers (Manager.eventBus m) ∧
  Manager.getGroups r.2 = Manager.getGroups m ∧
  Manager.eventHistory r.2 = Manager.eventHistory m.
Proof.
  intros m Hgroup Hv Hbad r.
  assert (Manager.well_formed m) as Hwf
    by (subst m; apply manager_run_wf, manager_new_wf).
  apply getGroups_Some in Hgroup as [Hproto Hgroup]; [|done].
  assert (NoDup (pre ++ bad :: post)) as Hnd
    by (eapply Map_get_sets; [apply Hwf|done]).
  apply NoDup_app in Hnd as (Hnd & _ & _).
  subst r. unfold Manager.subscribeGroup.
  rewrite Hgroup, forEach_subscribeEach_invalid by done. simpl.
  split_and!; try done.
  - intros e. by apply subscribed_bucket.
  - apply subscribed_keeps.
Qed.

(** [onGroup] and [onceGroup] in a state that operations on a new manager
    reach, for a group that [getGroups] lists.  The handler is subscribed to
    the names of the group, in their order, up to the first name that the
    bus rejects: it gets one more record in the bucket of each of these
    names, and no other bucket changes.  When the bus rejects no name, the
    object returned holds one bus subscription per name.  When it rejects
    one, the call throws the error of the bus; the records made so far stay
    on the bus, and no object that could remove them is returned or stored.
    Wildcard records, groups and history are untouched either way. *)
Theorem onGroup_subscribes o ops w0 isOnce groupName pre rest h p :
  let m := (Manager.run call report notify ops
              (Manager.EventManager_new o, w0)).1 in
  Manager.getGroups m !! groupName = Some (pre ++ rest) →
  Forall (λ e, validateEventName e = true) pre →
  match rest with
  | [] => True
  | bad :: _ => validateEventName bad = false
  end →
  let r := Manager.subscribeGroup (Err:=Err) isOnce m groupName h p in
  (∀ e, bucket (Manager.eventBus r.2) e ≡ₚ
        bucket (Manager.eventBus m) e ++
        (if bool_decide (e ∈ pre)
         then [{| handler := h; priority := p; once := isOnce |}] else [])) ∧
  match rest with
  | [] => ∃ g, r.1 = Manager.Done g ∧
               Manager.subscriptions g = (λ e, NamedSubscription e h) <$> pre
  | _ :: _ => r.1 = Manager.Throw (Manager.BusError InvalidArgument) ∧
              Manager.arrays r.2 = Manager.arrays m
  end ∧
  wildcardHandlers (Manager.eventBus r.2) =
    wildcardHandlers (Manager.eventBus m) ∧
  Manager.getGroups r.2 = Manager.getGroups m ∧
  Manager.eventHistory r.2 = Manager.eventHistory m.
Proof.
  intros m Hgroup Hv Hrest r.
  destruct rest as [|bad post].
  - rewrite app_nil_r in Hgroup.
    destruct (onGroup_valid_names o ops w0 isOnce groupName pre h p
                Hgroup Hv) as (H1 & H2 & H3 & H4 & H5).
    by split_and!.
  - destruct (onGroup_invalid_name o ops w0 isOnce groupName pre bad post
                h p Hgroup Hv Hrest) as (H1 & H2 & H3 & H4 & H5 & H6 & H7).
    by split_and!.
Qed.

Lemma forEach_unsubscribeEach_pushed isOnce h p (l : list string)
    (b0 b : @EventBus (Manager.ManagerData V) Err) :
  NoDup l →
  Forall (λ e, validateEventName e = true ∧
               bucket_sorted (bucket b0 e) ∧
               (h ∉ handler <$> bucket b0 e) ∧
               handlers b !! e =
                 Some (sortHandlersByPriority
                         (bucket b0 e ++
                          [{| handler := h; priority := p;
                              once := isOnce |}]))) l →
  let r := Manager.forEach (Manager.unsubscribeEach (Err:=Err))
             ((λ e, NamedSubscription e h) <$> l) b in
  r.1 = None ∧
  (∀ e, e ∈ l → bucket r.2 e = bucket b0 e) ∧
  (∀ e, e ∉ l → handlers r.2 !! e = handlers b !! e) ∧
  wildcardHandlers r.2 = wildcardHandlers b.
Proof.
  intros Hnd. revert b.
  induction Hnd as [|e l Hel Hnd IH]; intros b Hl r; subst r.
  - csimpl. split_and!; try done. by intros e ?%elem_of_nil.
  - rewrite fmap_cons.
    apply Forall_cons in Hl as [(Hv & Hs & Hh & Hb) Hl].
    destruct (off_pushed_record (Err:=Err) b e h p isOnce (bucket b0 e)
                Hv Hs Hh Hb)
      as (Hres & Hbe & Hother & Hw & _).
    destruct (off (Err:=Err) b e (Some h)) as [res b1] eqn:Hoff.
    simpl in Hres, Hbe, Hother, Hw. subst res.
    assert (Manager.forEach (Manager.unsubscribeEach (Err:=Err))
              (NamedSubscription e h :: ((λ e, NamedSubscription e h) <$> l))
              b =
            Manager.forEach (Manager.unsubscribeEach (Err:=Err))
              ((λ e, NamedSubscription e h) <$> l) b1) as ->.
    { simpl. unfold Manager.unsubscribeEach at 1. simpl. by rewrite Hoff. }
    destruct (IH b1) as (H1 & H2 & H3 & H4).
    { apply Forall_forall. intros e' He'.
      rewrite Forall_forall in Hl. destruct (Hl e' He') as (? & ? & ? & Hb').
      split_and!; try done. rewrite Hother; [done|]. by intros ->. }
    split_and!.
    + done.
    + intros e' [->|He']%elem_of_cons; [|by apply H2].
      unfold bucket at 1. by rewrite H3.
    + intros e' [Hne1 Hne2]%not_elem_of_cons.
      rewrite H3 by done. by apply Hother.
    + by rewrite H4.
Qed.

Lemma unsubscribeGroup_pushed g m b arr :
  Manager.forEach (Manager.unsubscribeEach (Err:=Err))
    (Manager.subscriptions g) (Manager.eventBus m) = (None, b) →
  Manager.arrays m !! Manager.groupSubs g = Some (arr ++ [g]) →
  Forall (λ x, Manager.gs_ref x ≠ Manager.gs_ref g) arr →
  Manager.unsubscribeGroup (Err:=Err) g m =
    (None,
     Manager.set_arrays (<[Manager.groupSubs g := arr]> (Manager.arrays m))
       (Manager.set_eventBus b m)).
Proof.
  intros Hloop Harr Hfresh. unfold Manager.unsubscribeGroup.
  rewrite Hloop. unfold Manager.array. simpl. rewrite Harr. simpl.
  rewrite findIndex_first; [| |by apply bool_decide_eq_true].
  - by rewrite splice1_middle, app_nil_r.
  - eapply Forall_impl; [exact Hfresh|]. intros x Hx.
    by apply bool_decide_eq_false.
Qed.

(** Subscribing to a group and unsubscribing through the object returned.
    In a state that operations on a new manager reach, for a group whose
    names are all valid and a handler that holds no record in the buckets of
    these names: [unsubscribe()] does not throw and gives every bucket of
    the bus back as it was, and the object is no longer in the array of the
    group, so that a later [offGroup] does not unsubscribe it again. *)
Theorem onGroup_unsubscribe_round_trip o ops w0 isOnce groupName group h p :
  let m := (Manager.run call report notify ops
              (Manager.EventManager_new o, w0)).1 in
  Manager.getGroups m !! groupName = Some group →
  Forall (λ e, validateEventName e = true) group →
  Forall (λ e, h ∉ handler <$> bucket (Manager.eventBus m) e) group →
  let r := Manager.subscribeGroup (Err:=Err) isOnce m groupName h p in
  ∃ g, r.1 = Manager.Done g ∧
       let u := Manager.unsubscribeGroup (Err:=Err) g r.2 in
       u.1 = None ∧
       (∀ e, bucket (Manager.eventBus u.2) e =
             bucket (Manager.eventBus m) e) ∧
       wildcardHandlers (Manager.eventBus u.2) =
         wildcardHandlers (Manager.eventBus m) ∧
       (∀ ref, Manager.array u.2 ref = Manager.array m ref) ∧
       Manager.groupSubscriptions u.2 = Manager.groupSubscriptions m ∧
       Manager.getGroups u.2 = Manager.getGroups m.
Proof.
  intros m Hgroup Hv Hfresh r.
  assert (Manager.well_formed m) as Hwf
    by (subst m; apply manager_run_wf, manager_new_wf).
  assert (bus_sorted (Manager.eventBus m)) as Hsorted.
  { subst m. apply (invariant_run bus_sorted); [|apply new_sorted].
    intros b w op. apply step_sorted. }
  apply getGroups_Some in Hgroup as [Hproto Hgroup]; [|done].
  assert (NoDup group) as Hnd by (eapply Map_get_sets; [apply Hwf|done]).
  assert (is_Some (Manager.Map_get groupName (Manager.groupSubscriptions m)))
    as [ref Href].
  { destruct Hwf as (_ & _ & H3 & _).
    apply Map_get_is_Some. rewrite H3. apply Map_get_is_Some. eauto. }
  subst r. unfold Manager.subscribeGroup.
  rewrite Hgroup, Href, forEach_subscribeEach_valid by done. simpl.
  eexists. split; [done|].
  set (b0 := Manager.eventBus m).
  set (b := Manager.subscribed isOnce h p group b0).
  destruct (forEach_unsubscribeEach_pushed isOnce h p group b0 b Hnd)
    as (H1 & H2 & H3 & H4).
  { apply Forall_forall. intros e He.
    pose proof Hv as Hv'. rewrite Forall_forall in Hv'.
    rewrite Forall_forall in Hfresh.
    split_and!; [by apply Hv'|by apply bucket_sorted_of_bus|by apply Hfresh|].
    subst b. rewrite subscribed_lookup by done.
    by rewrite decide_True. }
  destruct (Manager.forEach _ _ b) as [[e|] b3] eqn:Hloop;
    simpl in H1, H2, H3, H4; [done|].
  rewrite (unsubscribeGroup_pushed _ _ b3 (Manager.array m ref)); simpl.
  - split_and!; try done.
    + intros e. destruct (decide (e ∈ group)) as [He|He]; [by apply H2|].
      unfold bucket. rewrite H3 by done. subst b.
      rewrite subscribed_lookup by done. by rewrite decide_False.
    + rewrite H4. subst b. apply subscribed_keeps.
    + intros ref'. unfold Manager.array at 1. simpl.
      destruct (decide (ref = ref')) as [->|Hne].
      * by rewrite lookup_insert_eq.
      * by rewrite !lookup_insert_ne.
  - done.
  - by rewrite lookup_insert_eq.
  - eapply Forall_impl; [by apply array_ok|].
    intros g [_ Hg]. simpl in *. lia.
Qed.

(** ** [offGroup] and [deleteGroup] *)

Lemma unsubscribeEach_sublist sub (b : @EventBus (Manager.ManagerData V) Err) :
  let b' := (Manager.unsubscribeEach (Err:=Err) sub b).2 in
  (∀ e, bucket b' e `sublist_of` bucket b e) ∧
  wildcardHandlers b' `sublist_of` wildcardHandlers b.
Proof.
  unfold Manager.unsubscribeEach. destruct sub as [n h|h]; simpl.
  - assert (∀ e, bucket (off (Err:=Err) b n (Some h)).2 e `sublist_of`
                 bucket b e) as Hb.
    { intros e. unfold bucket at 1.
      destruct (handlers (off b n (Some h)).2 !! e) as [hs'|] eqn:Hl; simpl;
        [|apply sublist_nil_l].
      apply off_handlers_lookup in Hl as (hs & Hhs & Hsub & _).
      unfold bucket. by rewrite Hhs. }
    assert (wildcardHandlers (off (Err:=Err) b n (Some h)).2 =
            wildcardHandlers b) as Hw.
    { unfold off. by repeat case_match. }
    destruct (off b n (Some h)) as [[?|?] b']; simpl in *; by rewrite Hw.
  - destruct (findIndex _ _); simpl; [|done].
    split; [done|]. apply splice1_sublist.
Qed.

Lemma unsubscribeGroup_sublist g m :
  let m' := (Manager.unsubscribeGroup (Err:=Err) g m).2 in
  (∀ e, bucket (Manager.eventBus m') e `sublist_of`
        bucket (Manager.eventBus m) e) ∧
  wildcardHandlers (Manager.eventBus m') `sublist_of`
    wildcardHandlers (Manager.eventBus m).
Proof.
  unfold Manager.unsubscribeGroup.
  assert (let b' := (Manager.forEach (Manager.unsubscribeEach (Err:=Err))
                       (Manager.subscriptions g) (Manager.eventBus m)).2 in
          (∀ e, bucket b' e `sublist_of` bucket (Manager.eventBus m) e) ∧
          wildcardHandlers b' `sublist_of`
            wildcardHandlers (Manager.eventBus m)) as Hloop.
  { apply (forEach_invariant
             (λ b', (∀ e, bucket b' e `sublist_of`
                          bucket (Manager.eventBus m) e) ∧
                    wildcardHandlers b' `sublist_of`
                      wildcardHandlers (Manager.eventBus m))); [|done].
    intros sub b _ [H1 H2].
    destruct (unsubscribeEach_sublist sub b) as [H3 H4].
    split; [intros e|]; etrans; eauto. }
  destruct (Manager.forEach _ _ _) as [[e|] b]; simpl in *; [done|].
  by destruct (findIndex _ _).
Qed.

Lemma filter_handler_nil h (hs : list SubscriptionRecord) :
  h ∉ handler <$> hs → filter (λ r, handler r = h) hs = [].
Proof.
  induction hs as [|x hs IH]; [done|].
  rewrite fmap_cons, not_elem_of_cons, filter_cons. intros [Hx Hhs].
  rewrite decide_False by done. auto.
Qed.

Lemma filter_sublist_mono {A} (P : A → Prop) `{!∀ x, Decision (P x)}
    (l1 l2 : list A) :
  l1 `sublist_of` l2 → filter P l1 `sublist_of` filter P l2.
Proof.
  induction 1 as [|x l1 l2 _ IH|x l1 l2 _ IH]; [done|..];
    rewrite ?filter_cons; repeat case_decide; try done.
  - by constructor.
  - by constructor.
Qed.

Lemma findIndex_None {A} (P : A → bool) (l : list A) :
  findIndex P l = None → Forall (λ x, P x = false) l.
Proof.
  induction l as [|a l IH]; simpl; [done|].
  destruct (P a) eqn:Ha; [done|].
  destruct (findIndex P l); simpl; [done|]. intros _. by constructor; auto.
Qed.

(** [off(name, h)] takes the record of [h] out of a bucket that holds one
    such record at most, and leaves the other buckets. *)
Lemma off_last_record (b : @EventBus (Manager.ManagerData V) Err) e h :
  validateEventName e = true →
  (length (filter (λ r, handler r = h) (bucket b e)) ≤ 1)%nat →
  let r := off (Err:=Err) b e (Some h) in
  r.1 = Ok () ∧ (h ∉ handler <$> bucket r.2 e) ∧
  ∀ e', e' ≠ e → bucket r.2 e' = bucket b e'.
Proof.
  intros Hv Hone. unfold off. rewrite Hv. unfold bucket in *.
  destruct (handlers b !! e) as [hs|] eqn:Hl; simpl in *;
    [|rewrite Hl; split_and!; [done| |done]; by intros ?%elem_of_nil].
  set (hs' := match findIndex _ hs with
              | Some index => splice1 index hs | None => hs end).
  assert (h ∉ handler <$> hs') as Hgone.
  { subst hs'. destruct (findIndex _ hs) as [i|] eqn:Hi.
    - apply findIndex_Some in Hi as (x & Hx & HP & _).
      apply bool_decide_eq_true in HP.
      rewrite <-(take_drop_middle hs i x Hx), filter_app, filter_cons,
        decide_True, length_app in Hone by done.
      simpl in Hone. unfold splice1.
      intros (y & Hy & Hin)%list_elem_of_fmap.
      apply elem_of_app in Hin as [Hin|Hin].
      + assert (y ∈ filter (λ r, handler r = h) (take i hs)) as Hf
          by (by apply list_elem_of_filter).
        destruct (filter _ (take i hs)); [by apply elem_of_nil in Hf|].
        simpl in Hone. lia.
      + assert (y ∈ filter (λ r, handler r = h) (drop (S i) hs)) as Hf
          by (by apply list_elem_of_filter).
        destruct (filter _ (drop (S i) hs)); [by apply elem_of_nil in Hf|].
        simpl in Hone. lia.
    - apply findIndex_None in Hi. rewrite Forall_forall in Hi.
      intros (y & Hy & Hin)%list_elem_of_fmap.
      apply Hi in Hin. by apply bool_decide_eq_false in Hin. }
  clearbody hs'. split; [done|]. case_bool_decide as Hlen; simpl.
  - rewrite lookup_delete_eq. split; [by intros ?%elem_of_nil|].
    intros e' Hne. by rewrite lookup_delete_ne.
  - rewrite lookup_insert_eq. split; [done|].
    intros e' Hne. by rewrite lookup_insert_ne.
Qed.

(** The loop of a group subscription over names that are valid and distinct:
    it takes the records of [h] out of the buckets that hold one at most. *)
Lemma forEach_unsubscribeEach_removes h (l : list string)
    (b : @EventBus (Manager.ManagerData V) Err) :
  NoDup l →
  Forall (λ e, validateEventName e = true) l →
  Forall (λ e, (length (filter (λ r, handler r = h) (bucket b e)) ≤ 1)%nat)
    l →
  let r := Manager.forEach (Manager.unsubscribeEach (Err:=Err))
             ((λ e, NamedSubscription e h) <$> l) b in
  r.1 = None ∧
  (∀ e, e ∈ l → h ∉ handler <$> bucket r.2 e) ∧
  (∀ e, e ∉ l → bucket r.2 e = bucket b e).
Proof.
  intros Hnd. revert b.
  induction Hnd as [|e l Hnotin Hnd IH]; intros b Hv Hone; simpl.
  { split_and!; [done| |done]. by intros e ?%elem_of_nil. }
  apply Forall_cons in Hv as [Hv Hvs]. apply Forall_cons in Hone as [Hone Hones].
  destruct (off_last_record b e h Hv Hone) as (H1 & H2 & H3).
  destruct (off b e (Some h)) as [[[]|t] b1] eqn:Hoff; simpl in H1, H2, H3;
    [|done].
  assert (Manager.unsubscribeEach (Err:=Err) (NamedSubscription e h) b =
          (None, b1)) as ->
    by (unfold Manager.unsubscribeEach; simpl; by rewrite Hoff).
  destruct (IH b1 Hvs) as (G1 & G2 & G3).
  { rewrite Forall_forall in Hones. apply Forall_forall. intros e' He'.
    rewrite H3; [by apply Hones|]. by intros ->. }
  split_and!; [done| |].
  - intros e' [->|He']%elem_of_cons; [|by apply G2].
    by rewrite G3.
  - intros e' [Hne He']%not_elem_of_cons. rewrite G3 by done. by apply H3.
Qed.

Lemma unsubscribeGroup_eventBus g m :
  Manager.eventBus (Manager.unsubscribeGroup (Err:=Err) g m).2 =
    (Manager.forEach (Manager.unsubscribeEach (Err:=Err))
       (Manager.subscriptions g) (Manager.eventBus m)).2.
Proof.
  unfold Manager.unsubscribeGroup.
  destruct (Manager.forEach _ _ _) as [[e|] b]; simpl; [done|].
  by destruct (findIndex _ _).
Qed.

Lemma forEach_unsubscribeGroup_sublist (l : list Manager.GroupSubscription) m :
  let m' := (Manager.forEach (Manager.unsubscribeGroup (Err:=Err)) l m).2 in
  (∀ e, bucket (Manager.eventBus m') e `sublist_of`
        bucket (Manager.eventBus m) e) ∧
  wildcardHandlers (Manager.eventBus m') `sublist_of`
    wildcardHandlers (Manager.eventBus m).
Proof.
  apply (forEach_invariant
           (λ m', (∀ e, bucket (Manager.eventBus m') e `sublist_of`
                        bucket (Manager.eventBus m) e) ∧
                  wildcardHandlers (Manager.eventBus m') `sublist_of`
                    wildcardHandlers (Manager.eventBus m))); [|done].
  intros g m1 _ [G1 G2].
  destruct (unsubscribeGroup_sublist g m1) as [G3 G4].
  split; [intros e|]; etrans; eauto.
Qed.

(** [offGroup] for a group that [getGroups] lists, in a state that
    operations on a new manager reach.  It does not throw; it only removes
    records from the bus (every bucket and the wildcard list keep a
    subsequence of their records); it leaves the groups as they are; and it
    leaves the group with an empty array of subscriptions, so that calling it
    again changes nothing on the bus.  It does unsubscribe what [onGroup] and
    [onceGroup] subscribed: when the names of the group are all valid and a
    handler holds no record under them, then after [onGroup] or [onceGroup]
    it holds a record under each of them, and after [offGroup] it holds none
    again. *)
Theorem offGroup_unsubscribes o ops w0 groupName group isOnce h p :
  let m := (Manager.run call report notify ops
              (Manager.EventManager_new o, w0)).1 in
  Manager.getGroups m !! groupName = Some group →
  let r := Manager.offGroup (Err:=Err) m groupName in
  r.1 = None ∧
  (∀ e, bucket (Manager.eventBus r.2) e `sublist_of`
        bucket (Manager.eventBus m) e) ∧
  wildcardHandlers (Manager.eventBus r.2) `sublist_of`
    wildcardHandlers (Manager.eventBus m) ∧
  Manager.getGroups r.2 = Manager.getGroups m ∧
  (∃ ref, Manager.Map_get groupName (Manager.groupSubscriptions r.2) =
            Some ref ∧ Manager.array r.2 ref = []) ∧
  (Manager.offGroup (Err:=Err) r.2 groupName).1 = None ∧
  Manager.eventBus (Manager.offGroup (Err:=Err) r.2 groupName).2 =
    Manager.eventBus r.2 ∧
  (Forall (λ e, validateEventName e = true) group →
   Forall (λ e, h ∉ handler <$> bucket (Manager.eventBus m) e) group →
   let s := Manager.subscribeGroup (Err:=Err) isOnce m groupName h p in
   let r' := Manager.offGroup (Err:=Err) s.2 groupName in
   (∃ g, s.1 = Manager.Done g) ∧
   (∀ e, e ∈ group → h ∈ handler <$> bucket (Manager.eventBus s.2) e) ∧
   r'.1 = None ∧
   (∀ e, e ∈ group → h ∉ handler <$> bucket (Manager.eventBus r'.2) e)).
Proof.
  intros m Hgroup r.
  assert (Manager.well_formed m) as Hwf
    by (subst m; apply manager_run_wf, manager_new_wf).
  apply getGroups_Some in Hgroup as [Hproto Hgroup]; [|done].
  assert (is_Some (Manager.Map_get groupName (Manager.groupSubscriptions m)))
    as [ref Href].
  { destruct Hwf as (_ & _ & H3 & _).
    apply Map_get_is_Some. rewrite H3. apply Map_get_is_Some. eauto. }
  destruct (offGroup_wf m groupName Hwf) as [Hres Hwf'].
  pose proof (offGroup_keeps m groupName) as Hk. simpl in Hk.
  destruct Hk as (_ & _ & _ & _ & Hgroups & _).
  fold r in Hres, Hwf', Hgroups.
  assert ((∀ e, bucket (Manager.eventBus r.2) e `sublist_of`
                bucket (Manager.eventBus m) e) ∧
          wildcardHandlers (Manager.eventBus r.2) `sublist_of`
            wildcardHandlers (Manager.eventBus m) ∧
          ∃ ref', Manager.Map_get groupName (Manager.groupSubscriptions r.2) =
                    Some ref' ∧ Manager.array r.2 ref' = []) as (H1 & H2 & H3).
  { subst r. unfold Manager.offGroup. rewrite Href.
    pose proof (forEach_unsubscribeGroup_sublist (Manager.array m ref) m)
      as Hloop.
    destruct (forEach_unsubscribeGroup_wf (Manager.array m ref) m)
      as [Hnone _]; [|done|].
    { eapply Forall_impl; [by apply array_ok|]. by intros g [? _]. }
    destruct (Manager.forEach _ _ _) as [[e|] m1]; simpl in Hnone, Hloop;
      [done|].
    simpl. destruct Hloop as [G1 G2]. split_and!; [done..|].
    exists (Manager.next m1). rewrite Map_get_set, decide_True by done.
    split; [done|]. unfold Manager.array. simpl.
    by rewrite lookup_insert_eq. }
  split_and!; try done.
  - by apply getGroups_ext.
  - by apply offGroup_wf.
  - destruct H3 as (ref' & Href' & Harr).
    unfold Manager.offGroup. rewrite Href', Harr. done.
  - intros Hv Hfresh s r'.
    assert (NoDup group) as Hnd by (eapply Map_get_sets; [apply Hwf|done]).
    pose proof (subscribeGroup_wf isOnce m groupName h p Hwf) as Hwfs.
    fold s in Hwfs.
    set (b := Manager.subscribed (Err:=Err) isOnce h p group
                (Manager.eventBus m)).
    set (g := {| Manager.gs_ref := Manager.next m;
                 Manager.subscriptions := (λ e, NamedSubscription e h) <$> group;
                 Manager.groupSubs := ref |}).
    assert (s = (Manager.Done g,
                 Manager.set_next (S (Manager.next m))
                   (Manager.set_arrays
                      (<[ref := Manager.array m ref ++ [g]]> (Manager.arrays m))
                      (Manager.set_eventBus b m)))) as Hs.
    { subst s. unfold Manager.subscribeGroup.
      by rewrite Hgroup, Href, forEach_subscribeEach_valid by done. }
    assert (∀ e, e ∈ group →
                 bucket b e ≡ₚ
                   bucket (Manager.eventBus m) e ++
                   [{| handler := h; priority := p; once := isOnce |}])
      as Hbucket.
    { intros e He. unfold bucket at 1. subst b.
      rewrite subscribed_lookup, decide_True by done. simpl.
      apply stable_sort_by_Permutation. }
    split; [rewrite Hs; by eexists|].
    split.
    { intros e He. rewrite Hs. simpl. rewrite (Hbucket e He).
      rewrite fmap_app. apply elem_of_app. right. simpl. by left. }
    destruct (offGroup_wf s.2 groupName Hwfs) as [Hres' _].
    split; [done|].
    subst r'. unfold Manager.offGroup.
    assert (Manager.Map_get groupName (Manager.groupSubscriptions s.2) =
            Some ref) as ->  by (by rewrite Hs).
    assert (Manager.array s.2 ref = Manager.array m ref ++ [g]) as ->.
    { rewrite Hs. unfold Manager.array at 1. simpl.
      by rewrite lookup_insert_eq. }
    pose proof (forEach_unsubscribeGroup_sublist (Manager.array m ref) s.2)
      as [Hsub _].
    destruct (forEach_unsubscribeGroup_wf (Manager.array m ref) s.2)
      as [Hnone _]; [|done|].
    { eapply Forall_impl; [by apply array_ok|]. by intros g' [? _]. }
    rewrite forEach_snoc by done.
    set (m2 := (Manager.forEach Manager.unsubscribeGroup
                  (Manager.array m ref) s.2).2) in *.
    destruct (forEach_unsubscribeEach_removes h group (Manager.eventBus m2))
      as (G1 & G2 & _); [done..| |].
    { apply Forall_forall. intros e He.
      etrans; [apply sublist_length, filter_sublist_mono, Hsub|].
      rewrite Hs. simpl. rewrite (Hbucket e He), filter_app, length_app.
      rewrite Forall_forall in Hfresh. specialize (Hfresh e He).
      assert (filter (λ r, handler r = h) (bucket (Manager.eventBus m) e) = [])
        as ->.
      { by apply filter_handler_nil. }
      simpl. rewrite filter_cons. case_decide; simpl; lia. }
    pose proof (unsubscribeGroup_eventBus g m2) as Hbus.
    intros e He.
    destruct (Manager.unsubscribeGroup g m2) as [[t|] m3]; simpl in *;
      rewrite Hbus; by apply G2.
Qed.

Lemma getGroups_delete m m' groupName :
  NoDup (Manager.eventGroups m).*1 →
  Manager.eventGroups m' =
    Manager.Map_delete groupName (Manager.eventGroups m) →
  Manager.getGroups m' = delete groupName (Manager.getGroups m).
Proof.
  intros Hnd He. apply map_eq. intros g. unfold Manager.getGroups.
  rewrite He, getGroups_fold
    by (rewrite Map_delete_keys; by apply NoDup_filter).
  rewrite Map_get_delete, lookup_delete, getGroups_fold by done.
  case_bool_decide as Hg; case_decide; simplify_eq; try done;
    by destruct (Manager.Map_get _ _).
Qed.

(** [deleteGroup] for a group that [getGroups] lists, in a state that
    operations on a new manager reach: the group is no longer listed, the
    other groups are; the records of the bus can only have become fewer
    when the event ['@group:deleted'] is emitted, which carries the names the
    group had; the call can only fail with an error of the bus. *)
Theorem deleteGroup_removes o ops w0 groupName group now now' :
  let s := Manager.run call report notify ops
             (Manager.EventManager_new o, w0) in
  Manager.getGroups s.1 !! groupName = Some group →
  let r := Manager.deleteGroup call report s.1 groupName now now' s.2 in
  Manager.getGroups r.1.2 = delete groupName (Manager.getGroups s.1) ∧
  (Manager.recordHistory (Manager.options s.1) = true →
   Manager.keeps_record (Manager.options s.1) = true →
   last (Manager.getHistory r.1.2 None) =
     Some (Manager.record_of Manager.GROUP_DELETED
             (Manager.GroupDeleted groupName group) now)) ∧
  (∀ t, r.1.1 = Manager.Throw t → ∃ t', t = Manager.BusError t').
Proof.
  intros s Hgroup r.
  assert (Manager.well_formed s.1) as Hwf
    by (subst s; apply manager_run_wf, manager_new_wf).
  apply getGroups_Some in Hgroup as [Hproto Hgroup]; [|done].
  subst r. unfold Manager.deleteGroup, Manager.Map_has.
  rewrite bool_decide_true by (rewrite Hgroup; eauto). simpl.
  destruct (offGroup_wf s.1 groupName Hwf) as [Hres _].
  pose proof (offGroup_keeps s.1 groupName) as Hk. simpl in Hk.
  destruct Hk as (Ho & _ & _ & _ & Hgroups & _).
  destruct (Manager.offGroup s.1 groupName) as [[e|] m1];
    simpl in Hres, Ho, Hgroups; [done|].
  cbv iota beta. rewrite Hgroups, Hgroup.
  change (default [] (Some group)) with group. split_and!.
  - rewrite manager_emit_void_groups.
    by apply getGroups_delete; [apply Hwf|].
  - intros Hrec Hcap. apply manager_emit_void_last; simpl; by rewrite Ho.
  - intros t. rewrite manager_emit_void. unfold Manager.emit. simpl.
    destruct (emit_result _); [done|]. intros [= <-]. eauto.
Qed.

(** ** [reset] *)

Lemma manager_run_options ops m w :
  Manager.options (Manager.run call report notify ops (m, w)).1 =
    Manager.options m.
Proof.
  induction ops as [|op ops IH] using rev_ind; [done|].
  rewrite manager_run_snoc.
  destruct (Manager.run call report notify ops (m, w)) as [m1 w1].
  destruct (manager_step_history m1 w1 op) as [H1 _]. simpl in *.
  congruence.
Qed.

(** [reset] in a state that operations on a new manager reach: afterwards
    no group is listed and, with state management on, no state value and no
    state listener is left.  The history is cleared before the event
    ['@manager:reset'] is emitted, so that with the history on (and a
    capacity that is at least one or [undefined]) the history after [reset]
    consists of the record of that event.  The call can only fail with an error of the
    bus. *)
Theorem reset_clears o ops w0 now now' key :
  let s := Manager.run call report notify ops
             (Manager.EventManager_new o, w0) in
  let r := Manager.reset call report s.1 now now' s.2 in
  Manager.getGroups r.1.2 = ∅ ∧
  Manager.getHistory r.1.2 None =
    (if Manager.recordHistory (Manager.options s.1) &&
        Manager.keeps_record (Manager.options s.1)
     then [Manager.record_of Manager.MANAGER_RESET (Manager.UserValue None)
             now]
     else []) ∧
  (Manager.enableStateManagement (Manager.options s.1) = true →
   Manager.getState (Err:=Err) r.1.2 key = Manager.Done None ∧
   Manager.listenersOf r.1.2 key = []) ∧
  (∀ t, r.1.1 = Manager.Throw t → ∃ t', t = Manager.BusError t').
Proof.
  intros s r.
  assert (Manager.well_formed s.1) as Hwf
    by (subst s; apply manager_run_wf, manager_new_wf).
  subst r. unfold Manager.reset.
  destruct (forEach_offGroup_wf (Manager.eventGroups s.1) s.1 Hwf)
    as [Hres _].
  pose proof (forEach_offGroup_keeps (Manager.eventGroups s.1) s.1) as Hk.
  simpl in Hk. destruct Hk as (Ho & _).
  destruct (Manager.forEach _ _ _) as [[e|] m1]; simpl in Hres, Ho; [done|].
  cbv iota beta. rewrite manager_emit_void. cbn [fst snd].
  unfold Manager.emit, Manager.getHistory, Manager.getState,
    Manager.listenersOf, Manager.stateValue, Manager.getGroups.
  rewrite <-Ho.
  destruct (Manager.enableStateManagement (Manager.options m1)) eqn:Hen;
    destruct (Manager.recordHistory (Manager.options m1)) eqn:Hrec;
    simpl; rewrite ?Hen, ?Hrec; simpl; rewrite ?Hrec; simpl.
  all: split_and!; try done.
  all: try (by (intros t; destruct (emit_result _); [done|];
                 intros [= <-]; eauto)).
  all: simpl; rewrite ?Hen, ?Hrec, ?lookup_empty; simpl; try done.
  all: unfold Manager.record_of, Manager.keeps_record; simpl.
  all: destruct (Manager.maxHistoryLength (Manager.options m1)); [|done].
  all: case_bool_decide; case_bool_decide; try done; lia.
Qed.

(** ** State *)

(** [setState] with state management on; the other keys are as before.
    With a value that is [===] to the one stored under the key, nothing
    happens at all: no listener is called, no event emitted, and the stored
    value stays.  With any other value -- also with the stored value itself
    when that is not [===] to itself, as [NaN] -- the value is stored, so
    that [getState] gives it, and the listeners of the key are called with
    the new and the old value, in the order in which they were registered;
    if one of them throws, [setState] throws its error, the value stays
    stored and no event is emitted; else ['@state:change'] is emitted on the
    world the listeners left. *)
Theorem setState_getState m key value now now' w :
  Manager.enableStateManagement (Manager.options m) = true →
  let r := Manager.setState call report notify m key value now now' w in
  let oldValue := Manager.stateValue m key in
  let n := Manager.forEach
             (λ listener w, notify listener value oldValue w)
             (Manager.listenersOf m key) w in
  (∀ k, k ≠ key →
        Manager.getState (Err:=Err) r.1.2 k = Manager.getState (Err:=Err) m k) ∧
  (Manager.strictEquals oldValue value = true →
   r = (Manager.Done (), m, w)) ∧
  (Manager.strictEquals oldValue value = false →
   Manager.getState (Err:=Err) r.1.2 key = Manager.Done value ∧
   match n.1 with
   | Some e =>
       r.1.1 = Manager.Throw (Manager.ListenerError e) ∧ r.2 = n.2 ∧
       Manager.eventHistory r.1.2 = Manager.eventHistory m ∧
       Manager.eventBus r.1.2 = Manager.eventBus m
   | None =>
       r.2 = emit_world
               (emit call report (Manager.eventBus m) Manager.STATE_CHANGE
                  (Manager.StateChange key value oldValue) now' n.2) ∧
       (Manager.recordHistory (Manager.options m) = true →
        Manager.keeps_record (Manager.options m) = true →
        last (Manager.getHistory r.1.2 None) =
          Some (Manager.record_of Manager.STATE_CHANGE
                  (Manager.StateChange key value oldValue) now))
   end).
Proof.
  intros Hen r oldValue n. subst r. unfold Manager.setState.
  rewrite Hen. simpl. fold oldValue.
  change (Manager.listenersOf
            (Manager.set_stateValues (<[key:=value]> (Manager.stateValues m))
               m) key)
    with (Manager.listenersOf m key).
  fold n.
  destruct (Manager.strictEquals oldValue value) eqn:Hold.
  - split_and!; done.
  - assert (∀ m', Manager.options m' = Manager.options m →
                  Manager.stateValues m' =
                    <[key:=value]> (Manager.stateValues m) →
                  Manager.getState (Err:=Err) m' key = Manager.Done value ∧
                  ∀ k, k ≠ key →
                       Manager.getState (Err:=Err) m' k =
                       Manager.getState (Err:=Err) m k) as Hget.
    { intros m' Ho Hs. unfold Manager.getState, Manager.stateValue.
      rewrite Ho, Hs, Hen. simpl. split.
      - by rewrite lookup_insert_eq.
      - intros k Hk. by rewrite lookup_insert_ne. }
    destruct n as [[e|] w1] eqn:Hn; simpl.
    + destruct (Hget (Manager.set_stateValues
                        (<[key:=value]> (Manager.stateValues m)) m))
        as [H1 H2]; [done..|].
      split_and!; done.
    + rewrite manager_emit_void. cbn [fst snd].
      set (m1 := Manager.set_stateValues
                   (<[key:=value]> (Manager.stateValues m)) m).
      pose proof (manager_emit_keeps m1 Manager.STATE_CHANGE
                    (Manager.StateChange key value oldValue) now now' w1)
        as Hk.
      cbv zeta in Hk. destruct Hk as (Ho & Hs & _).
      destruct (Hget _ Ho Hs) as [H1 H2].
      split_and!; [done..|]. intros _. split_and!; [done| |].
      * unfold Manager.emit. simpl.
        by destruct (Manager.recordHistory (Manager.options m)).
      * intros Hrec Hcap.
        pose proof (manager_emit_void_last m1 Manager.STATE_CHANGE
                      (Manager.StateChange key value oldValue) now now' w1
                      Hrec Hcap) as Hl.
        by rewrite manager_emit_void in Hl.
Qed.

(** State management is off unless the constructor is told otherwise, and no
    operation turns it on: in every state that operations on such a manager
    reach, [setState], [getState] and [onStateChange] throw and change
    nothing. *)
Lemma state_management_off o ops w0 key value listener now now' :
  Manager.o_enableStateManagement o ≠ Manager.Given true →
  let s := Manager.run call report notify ops
             (Manager.EventManager_new o, w0) in
  Manager.setState call report notify s.1 key value now now' s.2 =
    (Manager.Throw Manager.StateManagementDisabled, s.1, s.2) ∧
  Manager.getState (Err:=Err) s.1 key =
    Manager.Throw Manager.StateManagementDisabled ∧
  Manager.onStateChange (Err:=Err) s.1 key listener =
    (Manager.Throw Manager.StateManagementDisabled, s.1).
Proof.
  intros Ho s.
  assert (Manager.enableStateManagement (Manager.options s.1) = false) as Hen.
  { subst s. rewrite manager_run_options. simpl.
    by destruct (Manager.o_enableStateManagement o) as [| |[]]. }
  unfold Manager.setState, Manager.getState, Manager.onStateChange.
  by rewrite Hen.
Qed.

Lemma offGroup_next m groupName :
  (Manager.next m ≤
   Manager.next (Manager.offGroup (Err:=Err) m groupName).2)%nat.
Proof.
  unfold Manager.offGroup.
  destruct (Manager.Map_get _ _) as [ref|]; [|done].
  pose proof (forEach_unsubscribeGroup_keeps (Manager.array m ref) m) as H1.
  simpl in H1. destruct H1 as (_ & _ & _ & _ & _ & _ & _ & H1).
  destruct (Manager.forEach _ _ _) as [[e|] m1]; simpl in *; lia.
Qed.

Lemma forEach_offGroup_next (l : list (string * list string)) m :
  (Manager.next m ≤
   Manager.next
     (Manager.forEach
        (λ (g : string * list string) m, Manager.offGroup (Err:=Err) m g.1)
        l m).2)%nat.
Proof.
  apply (forEach_invariant
           (λ m', (Manager.next m ≤ Manager.next m')%nat)); [|done].
  intros g m1 _ H1. pose proof (offGroup_next m1 g.1). lia.
Qed.

Lemma subscribeGroup_next isOnce m groupName h p :
  (Manager.next m ≤
   Manager.next
     (Manager.subscribeGroup (Err:=Err) isOnce m groupName h p).2)%nat.
Proof.
  unfold Manager.subscribeGroup.
  destruct (Manager.Map_get _ (Manager.eventGroups m)); [|done].
  destruct (Manager.forEach _ _ _) as [[e|] s]; simpl; [done|].
  destruct (Manager.Map_get _ _); simpl; lia.
Qed.

Lemma listeners_fresh_ext lo m m' :
  Manager.stateListeners m' = Manager.stateListeners m →
  (Manager.next m ≤ Manager.next m')%nat →
  Manager.listeners_fresh lo m → Manager.listeners_fresh lo m'.
Proof.
  intros Hs Hn (H1 & H2 & H3). unfold Manager.listeners_fresh.
  rewrite Hs. split_and!; [lia| |done].
  intros k ref Hl. apply H2 in Hl. lia.
Qed.

Lemma listeners_fresh_emit_void lo m n d now now' w :
  Manager.listeners_fresh lo m →
  Manager.listeners_fresh lo
    (Manager.emit_void call report m n d now now' w).1.2.
Proof.
  rewrite manager_emit_void. cbn [fst snd].
  destruct (manager_emit_keeps m n d now now' w)
    as (_ & _ & Hs & _ & _ & _ & _ & Hn & _).
  apply listeners_fresh_ext; [done|]. by rewrite Hn.
Qed.

(** Every operation keeps the references of the listener sets distinct and
    within their bounds. *)
Lemma manager_step_fresh lo m w op :
  Manager.listeners_fresh lo m →
  Manager.listeners_fresh lo (Manager.step call report notify (m, w) op).1.
Proof.
  intros Hf. destruct op; simpl.
  - unfold Manager.createGroup. destruct (Manager.Map_has _ _); [done|].
    apply listeners_fresh_emit_void.
    revert Hf. apply listeners_fresh_ext; simpl; [done|lia].
  - unfold Manager.addToGroup. destruct (Manager.Map_get _ _); [|done].
    case_bool_decide; [|done]. by apply listeners_fresh_emit_void.
  - unfold Manager.removeFromGroup. destruct (Manager.Map_get _ _); [|done].
    case_bool_decide; [|done]. by apply listeners_fresh_emit_void.
  - unfold Manager.deleteGroup. destruct (negb _); [done|].
    pose proof (offGroup_keeps m groupName) as Hk.
    pose proof (offGroup_next m groupName) as Hn.
    simpl in Hk. destruct Hk as (_ & _ & Hs & _).
    destruct (Manager.offGroup m groupName) as [[e|] m1]; simpl in Hs, Hn;
      cbv iota beta.
    + revert Hf. by apply listeners_fresh_ext.
    + apply listeners_fresh_emit_void.
      revert Hf. by apply listeners_fresh_ext.
  - revert Hf. apply listeners_fresh_ext.
    + apply subscribeGroup_keeps.
    + apply subscribeGroup_next.
  - revert Hf. apply listeners_fresh_ext.
    + apply subscribeGroup_keeps.
    + apply subscribeGroup_next.
  - revert Hf. apply listeners_fresh_ext.
    + apply unsubscribeGroup_keeps.
    + by destruct (unsubscribeGroup_keeps g m)
        as (_ & _ & _ & _ & _ & _ & _ & ->).
  - revert Hf. apply listeners_fresh_ext.
    + apply offGroup_keeps.
    + apply offGroup_next.
  - pose proof (listeners_fresh_emit_void lo m eventName d now now' w Hf)
      as H1.
    by rewrite manager_emit_void in H1.
  - done.
  - unfold Manager.setState. destruct (negb _); [done|].
    destruct (Manager.strictEquals _ _); [done|].
    destruct (Manager.forEach _ _ _) as [[e|] w1]; [done|].
    by apply listeners_fresh_emit_void.
  - unfold Manager.onStateChange. destruct (negb _); [done|].
    destruct (Manager.stateListeners m !! key) as [ref|] eqn:Hkey; simpl;
      [done|].
    destruct Hf as (H1 & H2 & H3). unfold Manager.listeners_fresh. simpl.
    split_and!; [lia| |].
    + intros k ref. rewrite lookup_insert. case_decide.
      * intros [= <-]. lia.
      * intros Hl%H2. lia.
    + intros k1 k2 ref. rewrite !lookup_insert.
      repeat case_decide; try congruence.
      * intros [= <-] Hl%H2. lia.
      * intros Hl%H2 [= <-]. lia.
      * apply H3.
  - done.
  - unfold Manager.reset.
    pose proof (forEach_offGroup_keeps (Manager.eventGroups m) m) as Hk.
    pose proof (forEach_offGroup_next (Manager.eventGroups m) m) as Hn.
    simpl in Hk. destruct Hk as (_ & _ & Hs & _).
    destruct (Manager.forEach _ _ _) as [[e|] m1]; simpl in Hs, Hn;
      cbv iota beta.
    + revert Hf. by apply listeners_fresh_ext.
    + apply listeners_fresh_emit_void.
      destruct (Manager.enableStateManagement _).
      * destruct Hf as (H1 & _). unfold Manager.listeners_fresh. simpl.
        split_and!; [lia|by intros k ref; rewrite lookup_empty|].
        intros k1 k2 ref. by rewrite lookup_empty.
      * revert Hf. by apply listeners_fresh_ext.
  - done.
Qed.

Lemma manager_run_fresh lo ops m w :
  Manager.listeners_fresh lo m →
  Manager.listeners_fresh lo (Manager.run call report notify ops (m, w)).1.
Proof.
  intros Hf. induction ops as [|op ops IH] using rev_ind; [done|].
  rewrite manager_run_snoc.
  destruct (Manager.run call report notify ops (m, w)) as [m1 w1].
  by apply manager_step_fresh.
Qed.

Lemma Set_delete_Set_add (l : Manager.StateListener) ls :
  Manager.Set_delete l (Manager.Set_add l ls) = Manager.Set_delete l ls.
Proof.
  unfold Manager.Set_add, Manager.Set_delete. case_bool_decide; [done|].
  rewrite filter_app, filter_cons_False by (by intros ?).
  apply app_nil_r.
Qed.

(** [onStateChange] and the function it returns, in a state that operations
    on a new manager with state management reach.  The listener joins the
    listeners of the key, behind the others, unless it is one of them
    already; the listeners of the other keys are as before.  The function
    returned takes the listener out of the listeners of the key (also when it
    was there before), and leaves the other keys alone. *)
Theorem onStateChange_unsubscribe o ops w0 key listener :
  let m := (Manager.run call report notify ops
              (Manager.EventManager_new o, w0)).1 in
  Manager.enableStateManagement (Manager.options m) = true →
  let r := Manager.onStateChange (Err:=Err) m key listener in
  ∃ u, r.1 = Manager.Done u ∧
       Manager.listenersOf r.2 key =
         Manager.Set_add listener (Manager.listenersOf m key) ∧
       (∀ k, k ≠ key → Manager.listenersOf r.2 k = Manager.listenersOf m k) ∧
       let m' := Manager.unsubscribeState u r.2 in
       Manager.listenersOf m' key =
         Manager.Set_delete listener (Manager.listenersOf m key) ∧
       (∀ k, k ≠ key → Manager.listenersOf m' k = Manager.listenersOf m k).
Proof.
  intros m Hen r.
  assert (Manager.listeners_fresh 0 m) as (_ & Hlt & Hinj).
  { subst m. apply manager_run_fresh. unfold Manager.listeners_fresh. simpl.
    split_and!; [lia|by intros k ref; rewrite lookup_empty|].
    intros k1 k2 ref. by rewrite lookup_empty. }
  subst r. unfold Manager.onStateChange. rewrite Hen. simpl.
  destruct (Manager.stateListeners m !! key) as [ref|] eqn:Hkey; simpl.
  - eexists. split; [done|]. cbv zeta.
    unfold Manager.unsubscribeState, Manager.listenersOf, Manager.listeners.
    simpl. rewrite Hkey.
    rewrite !lookup_insert_eq. simpl. split_and!.
    + done.
    + intros k Hk. destruct (Manager.stateListeners m !! k) as [ref'|] eqn:Hk';
        [|done].
      rewrite lookup_insert_ne; [done|]. intros <-. apply Hk. eauto.
    + apply Set_delete_Set_add.
    + intros k Hk. destruct (Manager.stateListeners m !! k) as [ref'|] eqn:Hk';
        [|done].
      rewrite !lookup_insert_ne; [done|..]; intros <-; apply Hk; eauto.
  - eexists. split; [done|]. cbv zeta.
    unfold Manager.unsubscribeState, Manager.listenersOf, Manager.listeners.
    simpl. rewrite Hkey.
    rewrite !lookup_insert_eq. simpl.
    split_and!.
    + done.
    + intros k Hk. rewrite lookup_insert_ne by done.
      destruct (Manager.stateListeners m !! k) as [ref'|] eqn:Hk'; [|done].
      apply Hlt in Hk'. rewrite !lookup_insert_ne by lia. done.
    + apply Set_delete_Set_add.
    + intros k Hk. rewrite lookup_insert_ne by done.
      destruct (Manager.stateListeners m !! k) as [ref'|] eqn:Hk'; [|done].
      apply Hlt in Hk'. rewrite !lookup_insert_ne by lia. done.
Qed.

(** The function returned by [onStateChange] holds on to the set it was
    made for, and [reset] starts new sets: a function handed out before a
    [reset] changes no listener of any key in any state reached after it. *)
Theorem stale_unsubscribe_after_reset o ops w0 now now' ops' u k :
  let s := Manager.run call report notify ops
             (Manager.EventManager_new o, w0) in
  Manager.enableStateManagement (Manager.options s.1) = true →
  (Manager.su_listeners u < Manager.next s.1)%nat →
  let r := Manager.reset call report s.1 now now' s.2 in
  let m' := (Manager.run call report notify ops' (r.1.2, r.2)).1 in
  Manager.listenersOf (Manager.unsubscribeState u m') k =
    Manager.listenersOf m' k.
Proof.
  intros s Hen Hu r m'.
  assert (Manager.well_formed s.1) as Hwf
    by (subst s; apply manager_run_wf, manager_new_wf).
  assert (Manager.listeners_fresh (Manager.next s.1) r.1.2) as Hf.
  { subst r. unfold Manager.reset.
    destruct (forEach_offGroup_wf (Manager.eventGroups s.1) s.1 Hwf)
      as [Hres _].
    pose proof (forEach_offGroup_keeps (Manager.eventGroups s.1) s.1) as Hk.
    pose proof (forEach_offGroup_next (Manager.eventGroups s.1) s.1) as Hn.
    simpl in Hk. destruct Hk as (Ho & _).
    destruct (Manager.forEach _ _ _) as [[e|] m1]; simpl in Hres, Ho, Hn;
      [done|].
    cbv iota beta. apply listeners_fresh_emit_void. simpl.
    rewrite Ho, Hen. unfold Manager.listeners_fresh. simpl.
    split_and!; [lia|by intros k0 ref; rewrite lookup_empty|].
    intros k1 k2 ref. by rewrite lookup_empty. }
  assert (Manager.listeners_fresh (Manager.next s.1) m') as (_ & Hge & _).
  { subst m'. by apply manager_run_fresh. }
  unfold Manager.listenersOf, Manager.listeners. simpl.
  destruct (Manager.stateListeners m' !! k) as [ref|] eqn:Hk; [|done].
  apply Hge in Hk. rewrite lookup_insert_ne by lia. done.
Qed.

End ManagerFacts.

(** ** Concrete runs of the manager *)

(** An [emit] with a name of two spaces on a new manager: the bus rejects
    it, the manager's history has it. *)
Lemma manager_emit_records_first_witness :
  last (Manager.getHistory
          (Manager.emit manager_call demo_report
             (Manager.EventManager_new plain_manager) "  "
             (Manager.UserValue (Some 1%nat)) 5 6 []).1.2 None) =
    Some (Manager.record_of "  " (Manager.UserValue (Some 1%nat)) 5) ∧
  (Manager.emit manager_call demo_report
     (Manager.EventManager_new plain_manager) "  "
     (Manager.UserValue (Some 1%nat)) 5 6 []).1.1 =
    Manager.Throw (Manager.BusError InvalidArgument).
Proof.
  assert (Manager.keeps_record
            (Manager.options
               (Manager.EventManager_new (V:=nat) (Err:=nat) plain_manager)) =
          true) as Hcap by by vm_compute.
  destruct (manager_emit_records_first manager_call demo_report
              (Manager.EventManager_new plain_manager) "  "
              (Manager.UserValue (Some 1%nat)) 5 6 [] eq_refl Hcap)
    as (Hlast & _ & _ & Hinv).
  destruct (Hinv eq_refl) as (Hres & _).
  split; [exact Hlast|exact Hres].
Defined.

(** [addToGroup('users', ['logout', 'signup'])] and
    [removeFromGroup('users', ['logout', 'signup'])] after [users_ops]. *)
Lemma group_membership_updates_witness :
  Manager.getGroups
    (Manager.addToGroup manager_call demo_report
       (Manager.run manager_call demo_report manager_notify users_ops
          (Manager.EventManager_new plain_manager, [])).1
       "users" ["logout"; "signup"] 3 4 []).1.2 =
  <["users" := ["login"; "logout"; "signup"]]>
    (Manager.getGroups
       (Manager.run manager_call demo_report manager_notify users_ops
          (Manager.EventManager_new plain_manager, [])).1) ∧
  Manager.getGroups
    (Manager.removeFromGroup manager_call demo_report
       (Manager.run manager_call demo_report manager_notify users_ops
          (Manager.EventManager_new plain_manager, [])).1
       "users" ["logout"; "signup"] 3 4 []).1.2 =
  <["users" := ["login"]]>
    (Manager.getGroups
       (Manager.run manager_call demo_report manager_notify users_ops
          (Manager.EventManager_new plain_manager, [])).1).
Proof.
  assert (Manager.getGroups
            (Manager.run manager_call demo_report manager_notify users_ops
               (Manager.EventManager_new plain_manager, [])).1 !! "users" =
          Some ["login"; "logout"]) as Hg by by vm_compute.
  destruct (group_membership_updates manager_call demo_report manager_notify
              plain_manager users_ops [] "users" ["login"; "logout"]
              ["logout"; "signup"] 3 4 Hg) as ((H1 & _) & (H2 & _)).
  split; [exact H1|exact H2].
Defined.

(** [createGroup('users', ['login', 'logout', 'login'])] on a manager that
    has a group ['__proto__']: [getGroups] lists the new group, and not the
    other. *)
Lemma createGroup_registers_witness :
  Manager.getGroups
    (Manager.run manager_call demo_report manager_notify proto_ops
       (Manager.EventManager_new plain_manager, [])).1 !! "__proto__" = None ∧
  Manager.getGroups
    (Manager.createGroup manager_call demo_report
       (Manager.run manager_call demo_report manager_notify proto_ops
          (Manager.EventManager_new plain_manager, [])).1
       "users" ["login"; "logout"; "login"] 3 4
       (Manager.run manager_call demo_report manager_notify proto_ops
          (Manager.EventManager_new plain_manager, [])).2).1.2 =
  <["users" := ["login"; "logout"]]>
    (Manager.getGroups
       (Manager.run manager_call demo_report manager_notify proto_ops
          (Manager.EventManager_new plain_manager, [])).1).
Proof.
  assert ("users" ≠ "__proto__") as Hproto by done.
  destruct (createGroup_registers manager_call demo_report manager_notify
              plain_manager proto_ops [] "users" ["login"; "logout"; "login"]
              3 4 Hproto) as [H1 H2].
  split; [exact H1|].
  assert (Manager.getGroups
            (Manager.run manager_call demo_report manager_notify proto_ops
               (Manager.EventManager_new plain_manager, [])).1 !! "users" =
          None) as Hg by by vm_compute.
  rewrite Hg in H2. destruct H2 as (H2 & _). exact H2.
Defined.

(** A new manager has no group ["nobody"]. *)
Lemma missing_group_operations_witness :
  Manager.addToGroup manager_call demo_report
    (Manager.EventManager_new plain_manager) "nobody" ["a"] 1 2 [] =
  (Manager.Throw (Manager.GroupNotFound "nobody"),
   Manager.EventManager_new plain_manager, []).
Proof.
  assert ("nobody" ≠ "__proto__") as Hproto by done.
  destruct (missing_group_operations manager_call demo_report manager_notify
              plain_manager [] [] "nobody" ["a"] false 7%nat Normal 1 2
              Hproto eq_refl) as (H1 & _).
  exact H1.
Defined.

(** [onGroup('users', 7)] after [users_ops]: one record for ["login"];
    [onGroup('g', 7)] after [blank_ops] throws at the blank name. *)
Lemma onGroup_subscribes_witness :
  bucket
    (Manager.eventBus
       (Manager.subscribeGroup (Err:=nat) false
          (Manager.run manager_call demo_report manager_notify users_ops
             (Manager.EventManager_new plain_manager, [])).1
          "users" 7 Normal).2) "login" ≡ₚ
  [{| handler := 7; priority := Normal; once := false |}] ∧
  (Manager.subscribeGroup (Err:=nat) false
     (Manager.run manager_call demo_report manager_notify blank_ops
        (Manager.EventManager_new plain_manager, [])).1
     "g" 7 Normal).1 =
  Manager.Throw (Manager.BusError InvalidArgument).
Proof.
  assert (Manager.getGroups
            (Manager.run manager_call demo_report manager_notify users_ops
               (Manager.EventManager_new plain_manager, [])).1 !! "users" =
          Some (["login"; "logout"] ++ [])) as Hg by by vm_compute.
  assert (Forall (λ e, validateEventName e = true) ["login"; "logout"])
    as Hv by (by repeat constructor).
  assert (Manager.getGroups
            (Manager.run manager_call demo_report manager_notify blank_ops
               (Manager.EventManager_new plain_manager, [])).1 !! "g" =
          Some (["a"] ++ " " :: ["b"])) as Hg' by by vm_compute.
  assert (Forall (λ e, validateEventName e = true) ["a"])
    as Hv' by (by repeat constructor).
  destruct (onGroup_subscribes manager_call demo_report manager_notify
              plain_manager users_ops [] false "users" ["login"; "logout"]
              [] 7%nat Normal Hg Hv I) as (H1 & _).
  destruct (onGroup_subscribes manager_call demo_report manager_notify
              plain_manager blank_ops [] false "g" ["a"] (" " :: ["b"])
              7%nat Normal Hg' Hv' eq_refl) as (_ & (H2 & _) & _).
  split; [exact (H1 "login")|exact H2].
Defined.

(** [onGroup('users', 7)] after [users_ops], and [unsubscribe()]. *)
Lemma onGroup_unsubscribe_round_trip_witness :
  ∃ g,
    (Manager.subscribeGroup (Err:=nat) false
       (Manager.run manager_call demo_report manager_notify users_ops
          (Manager.EventManager_new plain_manager, [])).1
       "users" 7 Normal).1 = Manager.Done g ∧
    bucket
      (Manager.eventBus
         (Manager.unsubscribeGroup (Err:=nat) g
            (Manager.subscribeGroup (Err:=nat) false
               (Manager.run manager_call demo_report manager_notify
                  users_ops (Manager.EventManager_new plain_manager, [])).1
               "users" 7 Normal).2).2) "login" = [].
Proof.
  assert (Manager.getGroups
            (Manager.run manager_call demo_report manager_notify users_ops
               (Manager.EventManager_new plain_manager, [])).1 !! "users" =
          Some ["login"; "logout"]) as Hg by by vm_compute.
  assert (Forall (λ e, validateEventName e = true) ["login"; "logout"])
    as Hv by (by repeat constructor).
  assert (Forall
            (λ e, 7%nat ∉ handler <$>
                    bucket
                      (Manager.eventBus
                         (Manager.run manager_call demo_report manager_notify
                            users_ops
                            (Manager.EventManager_new plain_manager, [])).1)
                      e) ["login"; "logout"]) as Hfresh.
  { repeat constructor; vm_compute; by intros ?%elem_of_nil. }
  destruct (onGroup_unsubscribe_round_trip manager_call demo_report
              manager_notify plain_manager users_ops [] false "users"
              ["login"; "logout"] 7%nat Normal Hg Hv Hfresh)
    as (g & H1 & _ & H2 & _).
  exists g. split; [exact H1|exact (H2 "login")].
Defined.

(** [onGroup('users', 8)] after [subscribed_ops], where handler [7] is
    subscribed to the group already, and then [offGroup('users')]: neither
    handler has a record under ["login"] afterwards. *)
Lemma offGroup_unsubscribes_witness :
  (Manager.offGroup (Err:=nat)
     (Manager.subscribeGroup (Err:=nat) false
        (Manager.run manager_call demo_report manager_notify subscribed_ops
           (Manager.EventManager_new plain_manager, [])).1
        "users" 8 Normal).2 "users").1 = None ∧
  8%nat ∉ handler <$>
    bucket
      (Manager.eventBus
         (Manager.offGroup (Err:=nat)
            (Manager.subscribeGroup (Err:=nat) false
               (Manager.run manager_call demo_report manager_notify
                  subscribed_ops (Manager.EventManager_new plain_manager, [])).1
               "users" 8 Normal).2 "users").2) "login".
Proof.
  assert (Manager.getGroups
            (Manager.run manager_call demo_report manager_notify
               subscribed_ops
               (Manager.EventManager_new plain_manager, [])).1 !! "users" =
          Some ["login"; "logout"]) as Hg by by vm_compute.
  assert (Forall (λ e, validateEventName e = true) ["login"; "logout"])
    as Hv by (by repeat constructor).
  assert (Forall
            (λ e, 8%nat ∉ handler <$>
                    bucket
                      (Manager.eventBus
                         (Manager.run manager_call demo_report manager_notify
                            subscribed_ops
                            (Manager.EventManager_new plain_manager, [])).1)
                      e) ["login"; "logout"]) as Hfresh.
  { repeat constructor; vm_compute;
      intros Hin; apply list_elem_of_singleton in Hin; lia. }
  destruct (offGroup_unsubscribes manager_call demo_report manager_notify
              plain_manager subscribed_ops [] "users" ["login"; "logout"]
              false 8%nat Normal Hg)
    as (_ & _ & _ & _ & _ & _ & _ & H8).
  destruct (H8 Hv Hfresh) as (_ & _ & H9 & H10).
  split; [exact H9|]. apply H10. by left.
Defined.

(** [deleteGroup('users')] after [subscribed_ops]. *)
Lemma deleteGroup_removes_witness :
  Manager.getGroups
    (Manager.deleteGroup manager_call demo_report
       (Manager.run manager_call demo_report manager_notify subscribed_ops
          (Manager.EventManager_new plain_manager, [])).1 "users" 3 4
       (Manager.run manager_call demo_report manager_notify subscribed_ops
          (Manager.EventManager_new plain_manager, [])).2).1.2 =
  delete "users"
    (Manager.getGroups
       (Manager.run manager_call demo_report manager_notify subscribed_ops
          (Manager.EventManager_new plain_manager, [])).1).
Proof.
  assert (Manager.getGroups
            (Manager.run manager_call demo_report manager_notify
               subscribed_ops
               (Manager.EventManager_new plain_manager, [])).1 !! "users" =
          Some ["login"; "logout"]) as Hg by by vm_compute.
  destruct (deleteGroup_removes manager_call demo_report manager_notify
              plain_manager subscribed_ops [] "users" ["login"; "logout"]
              3 4 Hg) as (H1 & _).
  exact H1.
Defined.

(** [setState('k', NaN)] on a manager with state management that holds
    [NaN] under ['k'] and has listener [5] for the key: the value is stored
    again and the listener is called. *)
Lemma setState_getState_witness :
  Manager.getState (Err:=nat)
    (Manager.setState num_call demo_report num_notify
       (Manager.run num_call demo_report num_notify nan_ops
          (Manager.EventManager_new stateful_manager, [])).1
       "k" (Some NaN) 3 4 []).1.2 "k" =
  Manager.Done (Some NaN) ∧
  (Manager.setState num_call demo_report num_notify
     (Manager.run num_call demo_report num_notify nan_ops
        (Manager.EventManager_new stateful_manager, [])).1
     "k" (Some NaN) 3 4 []).2 = [5%nat].
Proof.
  assert (Manager.enableStateManagement
            (Manager.options
               (Manager.run num_call demo_report num_notify nan_ops
                  (Manager.EventManager_new stateful_manager, [])).1) = true)
    as Hen by by vm_compute.
  destruct (setState_getState num_call demo_report num_notify
              (Manager.run num_call demo_report num_notify nan_ops
                 (Manager.EventManager_new stateful_manager, [])).1
              "k" (Some NaN) 3 4 [] Hen) as (_ & _ & H3).
  destruct H3 as (H3 & H4); [by vm_compute|].
  split; [exact H3|]. by vm_compute.
Defined.

(** [onStateChange('k', 5)] on a new manager with state management. *)
Lemma onStateChange_unsubscribe_witness :
  ∃ u,
    (Manager.onStateChange (Err:=nat)
       (Manager.EventManager_new (V:=nat) (Err:=nat) stateful_manager) "k" 5).1 =
      Manager.Done u ∧
    Manager.listenersOf
      (Manager.onStateChange (Err:=nat)
         (Manager.EventManager_new (V:=nat) (Err:=nat) stateful_manager) "k" 5).2 "k" =
      [5%nat].
Proof.
  destruct (onStateChange_unsubscribe manager_call demo_report manager_notify
              stateful_manager [] [] "k" 5%nat eq_refl)
    as (u & H1 & H2 & _).
  exists u. split; [exact H1|exact H2].
Defined.

(** A listener registered before [reset] and again after it: the function
    returned by the first registration does not touch the second. *)
Lemma stale_unsubscribe_after_reset_witness :
  Manager.listenersOf
    (Manager.unsubscribeState
       {| Manager.su_listeners := 0; Manager.su_listener := 5 |}
       (Manager.run manager_call demo_report manager_notify
          [Manager.OpOnStateChange "k" 5]
          ((Manager.reset manager_call demo_report
              (Manager.run manager_call demo_report manager_notify
                 [Manager.OpOnStateChange "k" 5]
                 (Manager.EventManager_new stateful_manager, [])).1 3 4
              (Manager.run manager_call demo_report manager_notify
                 [Manager.OpOnStateChange "k" 5]
                 (Manager.EventManager_new stateful_manager, [])).2).1.2,
           (Manager.reset manager_call demo_report
              (Manager.run manager_call demo_report manager_notify
                 [Manager.OpOnStateChange "k" 5]
                 (Manager.EventManager_new stateful_manager, [])).1 3 4
              (Manager.run manager_call demo_report manager_notify
                 [Manager.OpOnStateChange "k" 5]
                 (Manager.EventManager_new stateful_manager, [])).2).2)).1)
    "k" =
  Manager.listenersOf
    (Manager.run manager_call demo_report manager_notify
       [Manager.OpOnStateChange "k" 5]
       ((Manager.reset manager_call demo_report
           (Manager.run manager_call demo_report manager_notify
              [Manager.OpOnStateChange "k" 5]
              (Manager.EventManager_new stateful_manager, [])).1 3 4
           (Manager.run manager_call demo_report manager_notify
              [Manager.OpOnStateChange "k" 5]
              (Manager.EventManager_new stateful_manager, [])).2).1.2,
        (Manager.reset manager_call demo_report
           (Manager.run manager_call demo_report manager_notify
              [Manager.OpOnStateChange "k" 5]
              (Manager.EventManager_new stateful_manager, [])).1 3 4
           (Manager.run manager_call demo_report manager_notify
              [Manager.OpOnStateChange "k" 5]
              (Manager.EventManager_new stateful_manager, [])).2).2)).1
    "k".
Proof.
  assert (Manager.enableStateManagement
            (Manager.options
               (Manager.run manager_call demo_report manager_notify
                  [Manager.OpOnStateChange "k" 5]
                  (Manager.EventManager_new stateful_manager, [])).1) = true)
    as Hen by by vm_compute.
  assert (Manager.su_listeners
            {| Manager.su_listeners := 0; Manager.su_listener := 5 |} <
          Manager.next
            (Manager.run manager_call demo_report manager_notify
               [Manager.OpOnStateChange "k" 5]
               (Manager.EventManager_new stateful_manager, [])).1)%nat
    as Hu by (vm_compute; lia).
  exact (stale_unsubscribe_after_reset manager_call demo_report
           manager_notify stateful_manager [Manager.OpOnStateChange "k" 5]
           [] 3 4 [Manager.OpOnStateChange "k" 5]
           {| Manager.su_listeners := 0; Manager.su_listener := 5 |} "k"
           Hen Hu).
Defined.

(** * Throttled and debounced handlers *)

Section UtilsFacts.

Context {T Err Promise World : Type}.

Variable is_null : T → bool.
Variable handler : T → World → @Outcome Err Promise * World.

Implicit Types (w : World) (tr : list (@Utils.Invocation T)).












End UtilsFacts.

(** ** Concrete runs of the wrapped handlers *)


